(** * Comfy Workflow Agent: response ingestion and structured extraction

    A shallow embedding of the provider pipeline of the user interface and
    of its session bookkeeping, followed by the properties established about
    them.  Line numbers refer to [ui/src/App.tsx] as it stands in the source
    tree, which holds the component [App] (lines 1-700) and, after it, the
    service functions that the component imports from [services/aiService]
    (lines 702-1226): template resolver, custom-API adapter, cloud-SDK
    adapter, orchestration-stream adapter, history and analysis services,
    structured extraction and the entry point [sendMessageToComfyAgent].
    Two functions of the configuration service (held by the source tree as
    [unnamed/part_000]) are embedded as well.

    JavaScript strings are sequences of UTF-16 code units; they are modelled
    as lists of code units.  Values produced by [JSON.parse] are modelled by
    the inductive type [json]; [undefined] is [None] in an [option json].
    A call is modelled by the list of its observable events (requests issued,
    callback invocations) and its completion, normal or by a thrown error. *)

From Stdlib Require Import List NArith ZArith Bool Arith Lia String Ascii.
From Stdlib Require Import DecimalString DecimalNat Permutation FinFun.
From Stdlib Require Strings.Byte.
Import ListNotations.

Set Implicit Arguments.
Set Warnings "-register-all".

(* ================================================================== *)
(** * Part I.  The embedding                                           *)
(* ================================================================== *)

(** ** Strings *)

Definition char := N.
Definition str := list char.

(** [lit s] is the JavaScript string written [s] (ASCII literals only). *)
Definition lit (s : string) : str := map N_of_ascii (list_ascii_of_string s).

Definition dquote : char := 34%N.
Definition squote : char := 39%N.
Definition dollar : char := 36%N.
Definition newline : char := 10%N.
Definition backslash : char := 92%N.

(** [qlit s] is [lit s] with every tilde read as a double quote, so that
    JSON texts can be written legibly. *)
Definition qlit (s : string) : str :=
  map (fun c => if N.eqb c 126 then dquote else c) (lit s).

Fixpoint str_eqb (a b : str) : bool :=
  match a, b with
  | [], [] => true
  | x :: a', y :: b' => N.eqb x y && str_eqb a' b'
  | _, _ => false
  end.

(** [is_prefix p s]: [s.startsWith(p)]. *)
Fixpoint is_prefix (p s : str) : bool :=
  match p, s with
  | [], _ => true
  | x :: p', y :: s' => N.eqb x y && is_prefix p' s'
  | _ :: _, [] => false
  end.

(** Decimal rendering of a natural number. *)
Definition nat_to_str (n : nat) : str :=
  lit (NilEmpty.string_of_uint (Nat.to_uint n)).

Definition N_to_str (n : N) : str :=
  lit (NilEmpty.string_of_uint (N.to_uint n)).

(** ECMAScript [WhiteSpace] and [LineTerminator] code units: the class [\s]
    of regular expressions and the characters removed by [trim]. *)
Definition is_line_terminator (c : char) : bool :=
  (N.eqb c 10 || N.eqb c 13 || N.eqb c 8232 || N.eqb c 8233)%N.

Definition is_js_space (c : char) : bool :=
  (N.eqb c 9 || N.eqb c 11 || N.eqb c 12 || N.eqb c 32 || N.eqb c 160
   || N.eqb c 5760 || (N.leb 8192 c && N.leb c 8202) || N.eqb c 8239
   || N.eqb c 8287 || N.eqb c 12288 || N.eqb c 65279
   || is_line_terminator c)%N.

Fixpoint trimStart (s : str) : str :=
  match s with
  | c :: s' => if is_js_space c then trimStart s' else s
  | [] => []
  end.

Definition trimEnd (s : str) : str := rev (trimStart (rev s)).

(** [s.trim()] *)
Definition trim (s : str) : str := trimEnd (trimStart s).

(** [s.split(sep)] for a one-character separator: always at least one
    piece. *)
Fixpoint split (sep : char) (s : str) : list str :=
  match s with
  | [] => [[]]
  | c :: s' =>
      if N.eqb c sep then [] :: split sep s'
      else match split sep s' with
           | piece :: rest => (c :: piece) :: rest
           | [] => [[c]]
           end
  end.

(** ** JSON values *)

Inductive json (number : Type) : Type :=
| JNull
| JBool (b : bool)
| JNum (n : number)
| JStr (s : str)
| JArr (l : list (json number))
| JObj (kvs : list (str * json number)).

Arguments JNull {number}.
Arguments JBool {number} b.
Arguments JNum {number} n.
Arguments JStr {number} s.
Arguments JArr {number} l.
Arguments JObj {number} kvs.

(** The services of the JavaScript engine that the code relies on and that
    are not part of the repository: IEEE numbers with their conversions,
    [JSON.parse] ([None] when it throws a [SyntaxError]) and the message of
    that error for a given input. *)
Class JSRuntime : Type := {
  number : Type;
  number_truthy : number -> bool;
  number_finite : number -> bool;
  number_to_string : number -> str;
  number_of_nat : nat -> number;
  number_to_string_nonempty : forall n, number_to_string n <> [];
  JSON_parse : str -> option (json number);
  syntax_error_message : str -> str
}.

(** The association behind a JavaScript object or [Map]: keys in insertion
    order, a repeated [set] overwrites the value and keeps the position. *)
Fixpoint assoc_get {V : Type} (k : str) (m : list (str * V)) : option V :=
  match m with
  | [] => None
  | (k', v) :: m' => if str_eqb k k' then Some v else assoc_get k m'
  end.

Fixpoint assoc_set {V : Type} (k : str) (v : V) (m : list (str * V))
  : list (str * V) :=
  match m with
  | [] => [(k, v)]
  | (k', v') :: m' =>
      if str_eqb k k' then (k, v) :: m' else (k', v') :: assoc_set k v m'
  end.

Definition hex_digit (n : N) : char :=
  (if n <? 10 then 48 + n else 87 + n)%N.

(** [\uXXXX] with lower-case hexadecimal digits. *)
Definition unicode_escape (c : char) : str :=
  lit "\u" ++ [hex_digit (N.shiftr c 12 mod 16); hex_digit (N.shiftr c 8 mod 16);
               hex_digit (N.shiftr c 4 mod 16); hex_digit (c mod 16)]%N.

Definition is_high_surrogate (c : char) : bool := (N.leb 55296 c && N.leb c 56319)%N.
Definition is_low_surrogate (c : char) : bool := (N.leb 56320 c && N.leb c 57343)%N.

(** [QuoteJSONString] without the surrounding quotes. *)
Fixpoint quote_chars (s : str) : str :=
  match s with
  | [] => []
  | c :: s' =>
      if N.eqb c 34 then [backslash; dquote] ++ quote_chars s'
      else if N.eqb c 92 then lit "\\" ++ quote_chars s'
      else if N.eqb c 8 then lit "\b" ++ quote_chars s'
      else if N.eqb c 12 then lit "\f" ++ quote_chars s'
      else if N.eqb c 10 then lit "\n" ++ quote_chars s'
      else if N.eqb c 13 then lit "\r" ++ quote_chars s'
      else if N.eqb c 9 then lit "\t" ++ quote_chars s'
      else if N.ltb c 32 then unicode_escape c ++ quote_chars s'
      else if is_high_surrogate c then
        match s' with
        | d :: s'' =>
            if is_low_surrogate d then c :: d :: quote_chars s''
            else unicode_escape c ++ quote_chars s'
        | [] => unicode_escape c
        end
      else if is_low_surrogate c then unicode_escape c ++ quote_chars s'
      else c :: quote_chars s'
  end.

Definition quote_string (s : str) : str := [dquote] ++ quote_chars s ++ [dquote].

Section JsonValues.
Context {RT : JSRuntime}.

Definition value := json number.

(** [JSON.stringify(v)] without indentation. *)
Fixpoint stringify (v : value) : str :=
  match v with
  | JNull => lit "null"
  | JBool true => lit "true"
  | JBool false => lit "false"
  | JNum n => if number_finite n then number_to_string n else lit "null"
  | JStr s => quote_string s
  | JArr l =>
      lit "[" ++
      (fix elems (l : list value) : str :=
         match l with
         | [] => []
         | x :: r =>
             stringify x ++ match r with [] => [] | _ :: _ => lit "," ++ elems r end
         end) l ++ lit "]"
  | JObj kvs =>
      lit "{" ++
      (fix members (kvs : list (str * value)) : str :=
         match kvs with
         | [] => []
         | (k, x) :: r =>
             quote_string k ++ lit ":" ++ stringify x ++
             match r with [] => [] | _ :: _ => lit "," ++ members r end
         end) kvs ++ lit "}"
  end.

(** [String(v)], also the conversion behind [+=] and template literals. *)
Fixpoint toString (v : value) : str :=
  match v with
  | JNull => lit "null"
  | JBool true => lit "true"
  | JBool false => lit "false"
  | JNum n => number_to_string n
  | JStr s => s
  | JArr l =>
      (fix join (l : list value) : str :=
         match l with
         | [] => []
         | x :: r =>
             match x with JNull => [] | _ => toString x end ++
             match r with [] => [] | _ :: _ => lit "," ++ join r end
         end) l
  | JObj _ => lit "[object Object]"
  end.

(** [undefined] is [None]. *)
Definition toString_opt (v : option value) : str :=
  match v with Some x => toString x | None => lit "undefined" end.

(** [ToBoolean] *)
Definition truthy (v : value) : bool :=
  match v with
  | JNull => false
  | JBool b => b
  | JNum n => number_truthy n
  | JStr s => negb (str_eqb s [])
  | JArr _ | JObj _ => true
  end.

Definition truthy_opt (v : option value) : bool :=
  match v with Some x => truthy x | None => false end.

(** [typeof v === 'object'] *)
Definition typeof_object (v : value) : bool :=
  match v with
  | JNull | JArr _ | JObj _ => true
  | JBool _ | JNum _ | JStr _ => false
  end.

(** A canonical array index written in decimal. *)
Fixpoint digits_value (acc : nat) (s : str) : option nat :=
  match s with
  | [] => Some acc
  | c :: s' =>
      if (N.leb 48 c && N.leb c 57)%bool
      then digits_value (10 * acc + N.to_nat (c - 48)) s'
      else None
  end.

Definition array_index (k : str) : option nat :=
  match k with
  | [] => None
  | [c] => digits_value 0 [c]
  | c :: _ => if N.eqb c 48 then None else digits_value 0 k
  end.

(** [v[k]] for a value that is neither [null] nor [undefined].  None of the
    property names read by the code is defined on a built-in prototype, so
    only own properties matter. *)
Definition getProp (v : value) (k : str) : option value :=
  match v with
  | JObj kvs => assoc_get k kvs
  | JArr l =>
      match array_index k with
      | Some i => nth_error l i
      | None =>
          if str_eqb k (lit "length")
          then Some (JNum (number_of_nat (List.length l))) else None
      end
  | JStr s =>
      match array_index k with
      | Some i => option_map (fun c => JStr [c]) (nth_error s i)
      | None =>
          if str_eqb k (lit "length")
          then Some (JNum (number_of_nat (List.length s))) else None
      end
  | JNull | JBool _ | JNum _ => None
  end.

(** [v?.k]: [undefined] when [v] is [null] or [undefined]. *)
Definition getOpt (v : option value) (k : str) : option value :=
  match v with
  | None | Some JNull => None
  | Some x => getProp x k
  end.

End JsonValues.

(** ** A reference runtime

    An executable instance of [JSRuntime], used to run the embedding on
    concrete inputs.  A number is kept as the numeral it was written with
    (so [number_to_string] agrees with the engine on numerals in canonical
    form); [JSON_parse] implements the JSON grammar of ECMA-404, a repeated
    key keeping its first position and its last value. *)

Record numeral : Type := Numeral { num_head : char; num_tail : str }.

Definition numeral_to_string (n : numeral) : str := num_head n :: num_tail n.

Definition is_digit (c : char) : bool := (N.leb 48 c && N.leb c 57)%N.

(** The mantissa (the part before an exponent mark) has a non-zero digit. *)
Fixpoint mantissa_nonzero (s : str) : bool :=
  match s with
  | [] => false
  | c :: s' =>
      if (N.eqb c 101 || N.eqb c 69)%bool then false
      else if (N.leb 49 c && N.leb c 57)%bool then true
      else mantissa_nonzero s'
  end.

Definition numeral_of_nat (n : nat) : numeral :=
  match nat_to_str n with
  | c :: r => Numeral c r
  | [] => Numeral 48%N []
  end.

Definition is_json_ws (c : char) : bool :=
  (N.eqb c 32 || N.eqb c 9 || N.eqb c 10 || N.eqb c 13)%N.

Fixpoint skip_ws (s : str) : str :=
  match s with
  | c :: s' => if is_json_ws c then skip_ws s' else s
  | [] => []
  end.

Fixpoint span_digits (s : str) : str * str :=
  match s with
  | c :: s' =>
      if is_digit c then let (d, r) := span_digits s' in (c :: d, r) else ([], s)
  | [] => ([], [])
  end.

(** [int frac? exp?] after an optional minus sign. *)
Definition lex_unsigned (s : str) : option (str * str) :=
  match span_digits s with
  | ([], _) => None
  | ((c :: ds) as int, r) =>
      if (N.eqb c 48 && negb (match ds with [] => true | _ => false end))%bool
      then None
      else
        let after_frac :=
          match r with
          | 46%N :: r1 =>
              match span_digits r1 with
              | ([], _) => None
              | (fd, r2) => Some (int ++ 46%N :: fd, r2)
              end
          | _ => Some (int, r)
          end in
        match after_frac with
        | None => None
        | Some (m, r2) =>
            match r2 with
            | e :: r3 =>
                if (N.eqb e 101 || N.eqb e 69)%bool then
                  let (sign, r4) :=
                    match r3 with
                    | sg :: r3' =>
                        if (N.eqb sg 43 || N.eqb sg 45)%bool
                        then ([sg], r3') else ([], r3)
                    | [] => ([], r3)
                    end in
                  match span_digits r4 with
                  | ([], _) => None
                  | (ed, r5) => Some (m ++ e :: sign ++ ed, r5)
                  end
                else Some (m, r2)
            | [] => Some (m, r2)
            end
        end
  end.

Definition lex_number (s : str) : option (numeral * str) :=
  match s with
  | 45%N :: s' =>
      match lex_unsigned s' with
      | Some (m, r) => Some (Numeral 45%N m, r)
      | None => None
      end
  | _ =>
      match lex_unsigned s with
      | Some (c :: m, r) => Some (Numeral c m, r)
      | _ => None
      end
  end.

Definition hex_value (c : char) : option N :=
  (if N.leb 48 c && N.leb c 57 then Some (c - 48)
   else if N.leb 97 c && N.leb c 102 then Some (c - 87)
   else if N.leb 65 c && N.leb c 70 then Some (c - 55)
   else None)%N.

(** The characters of a string literal after its opening quote. *)
Fixpoint lex_string (s : str) : option (str * str) :=
  match s with
  | [] => None
  | c :: s' =>
      if N.eqb c 34 then Some ([], s')
      else if N.eqb c 92 then
        match s' with
        | e :: s'' =>
            let simple (x : char) :=
              match lex_string s'' with
              | Some (t, r) => Some (x :: t, r)
              | None => None
              end in
            if N.eqb e 34 then simple 34%N
            else if N.eqb e 92 then simple 92%N
            else if N.eqb e 47 then simple 47%N
            else if N.eqb e 98 then simple 8%N
            else if N.eqb e 102 then simple 12%N
            else if N.eqb e 110 then simple 10%N
            else if N.eqb e 114 then simple 13%N
            else if N.eqb e 116 then simple 9%N
            else if N.eqb e 117 then
              match s'' with
              | h1 :: h2 :: h3 :: h4 :: s4 =>
                  match hex_value h1, hex_value h2, hex_value h3, hex_value h4 with
                  | Some a, Some b, Some c', Some d =>
                      match lex_string s4 with
                      | Some (t, r) =>
                          Some ((4096 * a + 256 * b + 16 * c' + d)%N :: t, r)
                      | None => None
                      end
                  | _, _, _, _ => None
                  end
              | _ => None
              end
            else None
        | [] => None
        end
      else if N.ltb c 32 then None
      else
        match lex_string s' with
        | Some (t, r) => Some (c :: t, r)
        | None => None
        end
  end.

Fixpoint parse_value (fuel : nat) (s : str) {struct fuel}
  : option (json numeral * str) :=
  match fuel with
  | O => None
  | S f =>
      let s0 := skip_ws s in
      match s0 with
      | 123%N :: r =>
          match skip_ws r with
          | 125%N :: r' => Some (JObj [], r')
          | _ => parse_members f [] r
          end
      | 91%N :: r =>
          match skip_ws r with
          | 93%N :: r' => Some (JArr [], r')
          | _ => parse_elems f [] r
          end
      | 34%N :: r =>
          match lex_string r with
          | Some (t, r') => Some (JStr t, r')
          | None => None
          end
      | _ =>
          if is_prefix (lit "true") s0 then Some (JBool true, skipn 4 s0)
          else if is_prefix (lit "false") s0 then Some (JBool false, skipn 5 s0)
          else if is_prefix (lit "null") s0 then Some (JNull, skipn 4 s0)
          else match lex_number s0 with
               | Some (n, r) => Some (JNum n, r)
               | None => None
               end
      end
  end
with parse_elems (fuel : nat) (acc : list (json numeral)) (s : str) {struct fuel}
  : option (json numeral * str) :=
  match fuel with
  | O => None
  | S f =>
      match parse_value f s with
      | Some (v, r) =>
          match skip_ws r with
          | 44%N :: r' => parse_elems f (acc ++ [v]) r'
          | 93%N :: r' => Some (JArr (acc ++ [v]), r')
          | _ => None
          end
      | None => None
      end
  end
with parse_members (fuel : nat) (acc : list (str * json numeral)) (s : str)
  {struct fuel} : option (json numeral * str) :=
  match fuel with
  | O => None
  | S f =>
      match skip_ws s with
      | 34%N :: r =>
          match lex_string r with
          | Some (k, r1) =>
              match skip_ws r1 with
              | 58%N :: r2 =>
                  match parse_value f r2 with
                  | Some (v, r3) =>
                      match skip_ws r3 with
                      | 44%N :: r4 => parse_members f (assoc_set k v acc) r4
                      | 125%N :: r4 => Some (JObj (assoc_set k v acc), r4)
                      | _ => None
                      end
                  | None => None
                  end
              | _ => None
              end
          | None => None
          end
      | _ => None
      end
  end.

Definition parse_json (s : str) : option (json numeral) :=
  match parse_value (2 * List.length s + 2) s with
  | Some (v, r) => match skip_ws r with [] => Some v | _ :: _ => None end
  | None => None
  end.

#[export] Instance ReferenceRuntime : JSRuntime := {
  number := numeral;
  number_truthy n := mantissa_nonzero (numeral_to_string n);
  number_finite _ := true;
  number_to_string := numeral_to_string;
  number_of_nat := numeral_of_nat;
  number_to_string_nonempty :=
    fun n H => @nil_cons _ (num_head n) (num_tail n) (eq_sym H);
  JSON_parse := parse_json;
  syntax_error_message := fun _ => lit "Unexpected token in JSON"
}.

(** ** Regular expressions

    The fragment of ECMAScript regular expressions used by the code, with
    the backtracking priorities of the language: a greedy star tries one more
    iteration first, a lazy star tries the continuation first, an
    alternative tries its left branch first.  No expression of the code uses
    the [i], [u] or [y] flag, so matching is by code unit. *)

Inductive regex : Type :=
| Eps
| Chr (p : char -> bool)
| Lit (s : str)
| Seq (a b : regex)
| Alt (a b : regex)
| Star (greedy : bool) (a : regex)
| Group (a : regex)
| Eol
| Eoi.

Declare Scope regex_scope.
Delimit Scope regex_scope with re.
Notation "a +++ b" := (Seq a b) (at level 61, right associativity) : regex_scope.

(** [a?] *)
Definition Opt (a : regex) : regex := Alt a Eps.

(** [\s], [[\s\S]] and [.] *)
Definition rx_space : regex := Chr is_js_space.
Definition rx_any : regex := Chr (fun _ => true).
Definition rx_dot : regex := Chr (fun c => negb (is_line_terminator c)).

(** The iterations of a star whose body is matched by [body]: at most [n]
    more of them, each consuming at least one character. *)
Fixpoint star_loop {A : Type} (greedy : bool)
  (body : str -> option str -> (str -> option str -> option A) -> option A)
  (k : str -> option str -> option A) (n : nat) (s : str) (cap : option str)
  {struct n} : option A :=
  match n with
  | O => k s cap
  | S n' =>
      let again (s1 : str) (c1 : option str) :=
        if List.length s1 <? List.length s
        then star_loop greedy body k n' s1 c1 else None in
      if greedy then
        match body s cap again with
        | Some x => Some x
        | None => k s cap
        end
      else
        match k s cap with
        | Some x => Some x
        | None => body s cap again
        end
  end.

(** [rmatch r s cap k] matches [r] at the start of [s] and hands the rest
    of the text and the capture to the continuation [k]; the result is the
    first success in priority order.  [Eol] is [$] under the [m] flag,
    [Eoi] is [$] without it. *)
Fixpoint rmatch {A : Type} (r : regex) (s : str) (cap : option str)
  (k : str -> option str -> option A) {struct r} : option A :=
  match r with
  | Eps => k s cap
  | Chr p =>
      match s with
      | c :: s' => if p c then k s' cap else None
      | [] => None
      end
  | Lit l => if is_prefix l s then k (skipn (List.length l) s) cap else None
  | Seq a b => rmatch a s cap (fun s1 c1 => rmatch b s1 c1 k)
  | Alt a b =>
      match rmatch a s cap k with
      | Some x => Some x
      | None => rmatch b s cap k
      end
  | Star greedy a =>
      star_loop greedy (fun s1 c1 k1 => rmatch a s1 c1 k1) k (List.length s) s cap
  | Group a =>
      rmatch a s cap
        (fun s1 _ => k s1 (Some (firstn (List.length s - List.length s1) s)))
  | Eol =>
      match s with
      | [] => k s cap
      | c :: _ => if is_line_terminator c then k s cap else None
      end
  | Eoi =>
      match s with
      | [] => k s cap
      | _ :: _ => None
      end
  end.

(** A match: the text before it, the matched text, the first capture group
    and the text after it. *)
Record rx_match : Type := RxMatch {
  m_before : str;
  m_text : str;
  m_group : option str;
  m_after : str
}.

Definition match_here (r : regex) (s : str) : option (str * option str) :=
  rmatch r s None (fun rest cap => Some (rest, cap)).

(** [s.match(r)] for an expression without the [g] flag: the leftmost
    match. *)
Fixpoint search (r : regex) (seen : str) (s : str) : option rx_match :=
  match match_here r s with
  | Some (rest, cap) =>
      Some (RxMatch (rev seen) (firstn (List.length s - List.length rest) s) cap rest)
  | None =>
      match s with
      | [] => None
      | c :: s' => search r (c :: seen) s'
      end
  end.

Definition exec (r : regex) (s : str) : option rx_match := search r [] s.

(** [GetSubstitution] for an expression without capture groups, which all
    expressions used with a replacement string are: in a replacement string, [$$] stands for a dollar sign, [$&] for the matched text,
    [$`] for the text before the match and [$'] for the text after it; any
    other dollar sign is literal. *)
Fixpoint getSubstitution (matched before after rep : str) : str :=
  match rep with
  | [] => []
  | c :: r =>
      if N.eqb c dollar then
        match r with
        | d :: r' =>
            if N.eqb d dollar then dollar :: getSubstitution matched before after r'
            else if N.eqb d 38 then matched ++ getSubstitution matched before after r'
            else if N.eqb d 96 then before ++ getSubstitution matched before after r'
            else if N.eqb d squote then after ++ getSubstitution matched before after r'
            else dollar :: getSubstitution matched before after r
        | [] => [dollar]
        end
      else c :: getSubstitution matched before after r
  end.

(** [s.replace(r, rep)] without the [g] flag, and [s.replace(pat, rep)] for
    a string pattern (use [Lit pat]). *)
Definition replace_first (r : regex) (rep s : str) : str :=
  match exec r s with
  | Some m =>
      m_before m ++ getSubstitution (m_text m) (m_before m) (m_after m) rep
      ++ m_after m
  | None => s
  end.

(** [s.replace(r, rep)] with the [g] flag. *)
Fixpoint replace_global_scan (r : regex) (rep : str) (seen : str) (skip : nat)
  (s : str) {struct s} : str :=
  match skip with
  | S k =>
      match s with
      | [] => []
      | c :: s' => replace_global_scan r rep (c :: seen) k s'
      end
  | O =>
      match match_here r s with
      | Some (rest, _) =>
          let n := List.length s - List.length rest in
          getSubstitution (firstn n s) (rev seen) rest rep ++
          match s with
          | [] => []
          | c :: s' =>
              (if n =? 0 then [c] else [])
              ++ replace_global_scan r rep (c :: seen) (n - 1) s'
          end
      | None =>
          match s with
          | [] => []
          | c :: s' => c :: replace_global_scan r rep (c :: seen) 0 s'
          end
      end
  end.

Definition replace_global (r : regex) (rep s : str) : str :=
  replace_global_scan r rep [] 0 s.

(** ** Template resolver ([resolveTemplate], [newRP]) *)

(** [newRP(str)] escapes every regular-expression metacharacter of [str]
    and sets the [g] flag: the expression matches the text [str] itself. *)
Definition newRP (str : str) : regex := Lit str.

(** [s.replace(newRP(pat), rep)] *)
Definition replaceAll (pat rep s : str) : str := replace_global (newRP pat) rep s.

Section Template.
Context {RT : JSRuntime}.

(** One iteration of [Object.keys(vars).forEach]. *)
Definition resolveKey (result : str) (kv : str * value) : str :=
  let (key, val) := kv in
  let placeholder := dollar :: key in
  if typeof_object val then
    let jsonVal := stringify val in
    let result1 := replaceAll ([dquote] ++ placeholder ++ [dquote]) jsonVal result in
    let result2 := replaceAll ([squote] ++ placeholder ++ [squote]) jsonVal result1 in
    replaceAll placeholder jsonVal result2
  else
    replaceAll placeholder (toString val) result.

(** [vars] lists the own properties of the variable object in the order of
    [Object.keys]. *)
Definition resolveTemplate (templateStr : str) (vars : list (str * value)) : str :=
  fold_left resolveKey vars templateStr.

End Template.

(** ** Effects: exceptions and observable actions *)

(** A thrown [Error]; only its [message] is ever read. *)
Record js_error : Type := JsError { message : str }.

Inductive completion (A : Type) : Type :=
| Normal (a : A)
| Throw (e : js_error).

Arguments Normal {A} a.
Arguments Throw {A} e.

Section Effects.
Context {RT : JSRuntime}.

(** The argument of [onStatus]. *)
Record AgentStatus : Type := MkStatus {
  st_node : option value;
  st_displayText : value;
  st_status : value;
  st_details : option value
}.

(** The second argument of [fetch]. *)
Record request_init : Type := MkRequest {
  req_method : str;
  req_headers : value;
  req_body : str
}.

(** What a call does to the outside: HTTP requests issued and callback
    invocations, in order. *)
Inductive event : Type :=
| Fetched (url : str) (init : request_init)
| Delta (chunk : value)
| Status (status : AgentStatus).

(** A computation: the events it caused, then its completion. *)
Definition M (A : Type) : Type := (list event * completion A)%type.

Definition ret {A : Type} (a : A) : M A := ([], Normal a).
Definition throw {A : Type} (msg : str) : M A := ([], Throw (JsError msg)).
Definition emit (e : event) : M unit := ([e], Normal tt).
Definition lift {A : Type} (c : completion A) : M A := ([], c).

Definition bind {A B : Type} (m : M A) (f : A -> M B) : M B :=
  match m with
  | (tr, Normal a) => let (tr', r) := f a in (tr ++ tr', r)
  | (tr, Throw e) => (tr, Throw e)
  end.

(** [try { body } catch (e) { handler(e) }] *)
Definition try_catch {A : Type} (body : M A) (handler : js_error -> M A) : M A :=
  match body with
  | (tr, Normal a) => (tr, Normal a)
  | (tr, Throw e) => let (tr', r) := handler e in (tr ++ tr', r)
  end.

Definition when (b : bool) (m : M unit) : M unit := if b then m else ret tt.

End Effects.

Declare Scope comp_scope.
Notation "x <- m ; k" := (bind m (fun x => k))
  (at level 100, m at next level, right associativity) : comp_scope.
Notation "m ;; k" := (bind m (fun _ => k))
  (at level 100, right associativity) : comp_scope.
Delimit Scope comp_scope with comp.

(** ** The world outside the program *)

Section World.
Context {RT : JSRuntime}.

(** A [Response]: [resp_text] is what [text()] resolves to ([json()] parses
    it), [resp_body] is the byte stream behind [body.getReader()], as the
    chunks delivered by successive [read()] calls and the error, if any, that
    ends the stream early. *)
Record http_response : Type := MkResponse {
  resp_ok : bool;
  resp_status : nat;
  resp_statusText : str;
  resp_text : completion str;
  resp_body : option (list (list Byte.byte) * option js_error)
}.

(** A citation attached to a streamed chunk ([gc.web]). *)
Record web_ref : Type := MkWeb { web_uri : option str; web_title : option str }.

(** One chunk of the SDK stream: [chunk.text] and
    [chunk.candidates?.[0]?.groundingMetadata?.groundingChunks] (each entry
    being its [web] field). *)
Record sdk_chunk : Type := MkChunk {
  chunk_text : option str;
  chunk_grounding : option (list (option web_ref))
}.

Record sdk_request : Type := MkSdkRequest {
  sdk_apiKey : str;
  sdk_model : str;
  sdk_contents : str;
  sdk_systemInstruction : str
}.

(** Everything the code obtains from its environment: the network, the
    vendor SDK, the process environment, the clock and the string table of
    [utils/i18n]. *)
Record World : Type := MkWorld {
  fetch : str -> request_init -> completion http_response;
  generateContentStream :
    sdk_request -> completion (list sdk_chunk * option js_error);
  env_API_KEY : str;
  date_now : N;
  t : str -> str -> str
}.

Record CustomConfig : Type := MkCustomConfig {
  endpoint : str;
  headers : str;
  body : str
}.

(** [AppSettings]; an absent or empty string field is the empty string. *)
Record AppSettings : Type := MkSettings {
  provider : str;
  apiKey : str;
  modelName : str;
  baseUrl : str;
  language : str;
  usePythonBackend : bool;
  pythonBackendUrl : str;
  customConfig : option CustomConfig;
  activeBackendConfigId : str
}.

End World.

(** ** Custom-API adapter ([callCustomLLM]) *)

Section CustomLLM.
Context {RT : JSRuntime}.
Local Open Scope comp_scope.

(** [a || b] on strings. *)
Definition or_else (a b : str) : str := if str_eqb a [] then b else a.

(** [JSON.parse(s)] as a computation. *)
Definition json_parse (s : str) : M value :=
  match JSON_parse s with
  | Some v => ret v
  | None => throw (syntax_error_message s)
  end.

(** [fetch(url, init)]: the request is issued, then the world answers. *)
Definition do_fetch (w : World) (url : str) (init : request_init)
  : M http_response :=
  emit (Fetched url init) ;; lift (fetch w url init).

(** The two templates of [defaultConfig] are the serializations of the
    object literals of the source. *)
Definition defaultConfig : CustomConfig :=
  {| endpoint := lit "/chat/completions";
     headers :=
       qlit "{~Content-Type~:~application/json~,~Authorization~:~Bearer $apiKey~}";
     body :=
       qlit "{~model~:~$model~,~messages~:~$messages~,~temperature~:0.5,~stream~:false}" |}.

(** [url.replace(/\/$/, '')] *)
Definition strip_trailing_slash (s : str) : str :=
  replace_first (Lit (lit "/") +++ Eoi)%re [] s.

Definition resolveUrl (settings : AppSettings) (endpointTpl : str) : str :=
  if is_prefix (lit "http") endpointTpl then endpointTpl
  else
    let base := strip_trailing_slash (baseUrl settings) in
    let path :=
      if is_prefix (lit "/") endpointTpl then endpointTpl
      else lit "/" ++ endpointTpl in
    base ++ path.

Definition chat_message (role content : str) : value :=
  JObj [(lit "role", JStr role); (lit "content", JStr content)].

Definition templateVariables (settings : AppSettings)
  (prompt systemInstruction : str) : list (str * value) :=
  [ (lit "model", JStr (modelName settings));
    (lit "apiKey", JStr (or_else (apiKey settings) []));
    (lit "prompt", JStr (systemInstruction ++ [newline; newline] ++ prompt));
    (lit "system", JStr systemInstruction);
    (lit "user_prompt", JStr prompt);
    (lit "messages",
      JArr [ chat_message (lit "system") systemInstruction;
             chat_message (lit "user") prompt ]) ].

(** Reading a property of [null] throws a [TypeError] (message as worded by
    V8). *)
Definition null_property_error (k : str) : js_error :=
  JsError (lit "Cannot read properties of null (reading '" ++ k ++ lit "')").

(** [v.k], which throws when [v] is [null] or [undefined]. *)
Definition getStrict (v : option value) (k : str) : completion (option value) :=
  match v with
  | None =>
      Throw (JsError (lit "Cannot read properties of undefined (reading '"
                      ++ k ++ lit "')"))
  | Some JNull => Throw (null_property_error k)
  | Some x => Normal (getProp x k)
  end.

(** Lines 855-866 for a response [data] that is not [null]: the value left
    in [text] before the final fallback. *)
Definition selectReplyFrom (data : value) : option value :=
  let choices := getProp data (lit "choices") in
  let choice0 :=
    if truthy_opt choices then getOpt choices (lit "0") else None in
  if truthy_opt choices && truthy_opt choice0 then
    let msg := getOpt choice0 (lit "message") in
    if truthy_opt msg then getOpt msg (lit "content")
    else if truthy_opt (getOpt choice0 (lit "text"))
         then getOpt choice0 (lit "text")
         else Some (JStr [])
  else if truthy_opt (getProp data (lit "content"))
       then getProp data (lit "content")
  else if truthy_opt (getProp data (lit "response"))
       then getProp data (lit "response")
  else Some (JStr []).

(** Reading [data.choices] throws when [data] is [null]. *)
Definition selectReply (data : value) : completion (option value) :=
  match data with
  | JNull => Throw (null_property_error (lit "choices"))
  | _ => Normal (selectReplyFrom data)
  end.

(** Lines 853-870: the reply text extracted from the response. *)
Definition extractReplyText (data : value) : completion value :=
  match selectReply data with
  | Throw e => Throw e
  | Normal text =>
      match text with
      | Some v => if truthy v then Normal v else Normal (JStr (stringify data))
      | None => Normal (JStr (stringify data))
      end
  end.

(** Lines 794-797: the custom configuration over the defaults. *)
Definition mergedConfig (settings : AppSettings) : CustomConfig :=
  let custom :=
    match customConfig settings with
    | Some c => c
    | None => MkCustomConfig [] [] []
    end in
  MkCustomConfig
    (or_else (endpoint custom) (endpoint defaultConfig))
    (or_else (headers custom) (headers defaultConfig))
    (or_else (body custom) (body defaultConfig)).

Definition callCustomLLM (w : World) (settings : AppSettings)
  (prompt systemInstruction : str) (onStream : bool) : M value :=
  if str_eqb (baseUrl settings) [] then
    throw (lit "Base URL required for custom provider")
  else
    let endpointTpl := endpoint (mergedConfig settings) in
    let headersTpl := headers (mergedConfig settings) in
    let bodyTpl := body (mergedConfig settings) in
    let url := resolveUrl settings endpointTpl in
    let variables := templateVariables settings prompt systemInstruction in
    hdrs <- try_catch
              (json_parse (resolveTemplate headersTpl variables))
              (fun _ => throw (lit "Invalid Headers Configuration")) ;
    bodyStr <- try_catch
                 (let bodyStr := resolveTemplate bodyTpl variables in
                  json_parse bodyStr ;; ret bodyStr)
                 (fun _ => throw (lit "Invalid Body Template JSON")) ;
    response <- do_fetch w url (MkRequest (lit "POST") hdrs bodyStr) ;
    if negb (resp_ok response) then
      errorText <- lift (resp_text response) ;
      throw (lit "Custom API Error: " ++ url ++ lit " returned "
             ++ nat_to_str (resp_status response) ++ lit " - " ++ errorText)
    else
      raw <- lift (resp_text response) ;
      data <- json_parse raw ;
      text <- lift (extractReplyText data) ;
      when onStream (emit (Delta text)) ;;
      ret text.

End CustomLLM.

(** ** Cloud-SDK adapter ([callGoogleGemini]) *)

(** A grounding source. *)
Record source : Type := MkSource { uri : str; title : str }.

(** [Array.from(new Map(allSources.map(item => [item.uri, item])).values())]:
    the [Map] constructor performs one [set] per entry, in order. *)
Definition sourceMap (allSources : list source) : list (str * source) :=
  fold_left (fun m item => assoc_set (uri item) item m) allSources [].

Definition uniqueSources (allSources : list source) : list source :=
  map snd (sourceMap allSources).

Section Gemini.
Context {RT : JSRuntime}.
Local Open Scope comp_scope.

(** [gc.web?.uri && gc.web?.title]: both present and non-empty. *)
Definition collectSource (gc : option web_ref) : list source :=
  match gc with
  | Some (MkWeb (Some u) (Some ti)) =>
      if negb (str_eqb u []) && negb (str_eqb ti []) then [MkSource u ti] else []
  | _ => []
  end.

(** The body of the [for await] loop for one chunk; the state is
    [(fullText, allSources)]. *)
Definition geminiChunk (onStream : bool) (st : str * list source)
  (chunk : sdk_chunk) : M (str * list source) :=
  let (fullText, allSources) := st in
  fullText' <-
    match chunk_text chunk with
    | Some chunkText =>
        if negb (str_eqb chunkText []) then
          when onStream (emit (Delta (JStr chunkText))) ;;
          ret (fullText ++ chunkText)
        else ret fullText
    | None => ret fullText
    end ;
  match chunk_grounding chunk with
  | Some groundingChunks =>
      ret (fullText', allSources ++ flat_map collectSource groundingChunks)
  | None => ret (fullText', allSources)
  end.

Fixpoint foldM {A B : Type} (f : A -> B -> M A) (a : A) (l : list B) : M A :=
  match l with
  | [] => ret a
  | x :: l' => a' <- f a x ; foldM f a' l'
  end.

Definition callGoogleGemini (w : World) (settings : AppSettings)
  (prompt systemInstruction : str) (onStream : bool) : M (str * list source) :=
  let key := or_else (apiKey settings) (env_API_KEY w) in
  if str_eqb key [] then
    throw (lit "API Key is missing. Please set it in settings.")
  else
    streamResult <-
      lift (generateContentStream w
              (MkSdkRequest key
                 (or_else (modelName settings) (lit "gemini-2.5-flash"))
                 prompt systemInstruction)) ;
    let (chunks, failure) := streamResult in
    st <- foldM (geminiChunk onStream) ([], []) chunks ;
    match failure with
    | Some e => lift (Throw e)
    | None => ret (fst st, uniqueSources (snd st))
    end.

End Gemini.

(** ** Orchestration-stream adapter ([callPythonBackendStream]) *)

(** *** [TextDecoder] in streaming mode

    The UTF-8 decoder of the Encoding Standard, one byte at a time; the
    state survives between [decode(value, {stream: true})] calls. *)

Record decoder_state : Type := MkDecoder {
  d_code_point : N;
  d_bytes_seen : nat;
  d_bytes_needed : nat;
  d_lower : N;
  d_upper : N;
  d_bom_seen : bool
}.

Definition decoder_init : decoder_state := MkDecoder 0 0 0 128 191 false.

Definition decoder_reset (st : decoder_state) : decoder_state :=
  MkDecoder 0 0 0 128 191 (d_bom_seen st).

(** A byte read while no sequence is pending. *)
Definition decode_lead (st : decoder_state) (b : N) : decoder_state * list N :=
  (if b <=? 127 then (st, [b])
   else if (194 <=? b) && (b <=? 223) then
     (MkDecoder (N.land b 31) 0 1 128 191 (d_bom_seen st), [])
   else if (224 <=? b) && (b <=? 239) then
     (MkDecoder (N.land b 15) 0 2
        (if b =? 224 then 160 else 128) (if b =? 237 then 159 else 191)
        (d_bom_seen st), [])
   else if (240 <=? b) && (b <=? 244) then
     (MkDecoder (N.land b 7) 0 3
        (if b =? 240 then 144 else 128) (if b =? 244 then 143 else 191)
        (d_bom_seen st), [])
   else (st, [65533]))%N.

(** One byte: the new state and the code points produced.  A byte that
    breaks a pending sequence yields U+FFFD and is then read again as a
    lead byte. *)
Definition decode_byte (st : decoder_state) (b : N) : decoder_state * list N :=
  match d_bytes_needed st with
  | O => decode_lead st b
  | S _ =>
      if negb ((d_lower st <=? b) && (b <=? d_upper st))%N then
        let (st', out) := decode_lead (decoder_reset st) b in
        (st', 65533%N :: out)
      else
        let cp := N.lor (N.shiftl (d_code_point st) 6) (N.land b 63) in
        if S (d_bytes_seen st) =? d_bytes_needed st then
          (decoder_reset st, [cp])
        else
          (MkDecoder cp (S (d_bytes_seen st)) (d_bytes_needed st) 128 191
             (d_bom_seen st), [])
  end.

(** A code point as UTF-16 code units. *)
Definition utf16 (cp : N) : str :=
  (if cp <? 65536 then [cp]
   else [55296 + N.shiftr (cp - 65536) 10; 56320 + N.land (cp - 65536) 1023])%N.

(** Serialization of the decoded code points: a leading U+FEFF is
    dropped. *)
Fixpoint serialize (bom_seen : bool) (cps : list N) : bool * str :=
  match cps with
  | [] => (bom_seen, [])
  | cp :: r =>
      let (b, out) := serialize true r in
      (b, (if negb bom_seen && (cp =? 65279)%N then [] else utf16 cp) ++ out)
  end.

Definition decode_step (st : decoder_state) (byte : Byte.byte)
  : decoder_state * str :=
  let (st1, cps) := decode_byte st (Byte.to_N byte) in
  let (b, out) := serialize (d_bom_seen st1) cps in
  (MkDecoder (d_code_point st1) (d_bytes_seen st1) (d_bytes_needed st1)
     (d_lower st1) (d_upper st1) b, out).

(** [decoder.decode(value, {stream: true})] *)
Fixpoint decode (st : decoder_state) (value : list Byte.byte)
  : decoder_state * str :=
  match value with
  | [] => (st, [])
  | b :: r =>
      let (st1, out1) := decode_step st b in
      let (st2, out2) := decode st1 r in
      (st2, out1 ++ out2)
  end.

Section PythonStream.
Context {RT : JSRuntime}.
Local Open Scope comp_scope.

(** [v === 'literal'] *)
Definition is_string (v : option value) (s : str) : bool :=
  match v with
  | Some (JStr x) => str_eqb x s
  | _ => false
  end.

(** [a || b] on values. *)
Definition value_or (a : option value) (b : value) : value :=
  match a with
  | Some x => if truthy x then x else b
  | None => b
  end.

(** The dispatch on one parsed event (lines 987-1005); the state is
    [fullText]. *)
Definition sseDispatch (onStream onStatus : bool) (fullText : str)
  (data : value) : M str :=
  type <- lift (getStrict (Some data) (lit "type")) ;
  let metadata := getProp data (lit "metadata") in
  if is_string type (lit "status_update") && onStatus then
    emit (Status (MkStatus (getOpt metadata (lit "node"))
                    (value_or (getOpt metadata (lit "display_text"))
                       (JStr (lit "Processing...")))
                    (value_or (getOpt metadata (lit "status"))
                       (JStr (lit "processing")))
                    None)) ;;
    ret fullText
  else if is_string type (lit "meta_update") && onStatus then
    emit (Status (MkStatus (getOpt metadata (lit "node"))
                    (JStr (lit "Processing found data..."))
                    (JStr (lit "processing"))
                    (getOpt metadata (lit "step_data")))) ;;
    ret fullText
  else if is_string type (lit "content")
          || truthy_opt (getProp data (lit "chunk")) then
    let text := value_or (getProp data (lit "chunk")) (JStr []) in
    when onStream (emit (Delta text)) ;;
    ret (fullText ++ toString text)
  else ret fullText.

(** The body of [for (const line of lines)] (lines 979-1010). *)
Definition sseLine (onStream onStatus : bool) (fullText : str) (line : str)
  : M str :=
  if is_prefix (lit "data: ") (trim line) then
    let jsonStr := trim (replace_first (Lit (lit "data: ")) [] line) in
    if str_eqb jsonStr (lit "[DONE]") then ret fullText
    else
      try_catch
        (data <- json_parse jsonStr ;
         sseDispatch onStream onStatus fullText data)
        (fun _ => ret fullText)
  else ret fullText.

(** The variables of the read loop. *)
Record reader_state : Type := MkReader {
  rs_decoder : decoder_state;
  rs_buffer : str;
  rs_fullText : str
}.

Definition reader_init : reader_state := MkReader decoder_init [] [].

(** One iteration of [while (true)] for a chunk delivered by [read()]
    (lines 974-1011). *)
Definition readChunk (onStream onStatus : bool) (st : reader_state)
  (value : list Byte.byte) : M reader_state :=
  let (dec, text) := decode (rs_decoder st) value in
  let buffer := rs_buffer st ++ text in
  let lines := split newline buffer in
  let buffer' := or_else (last lines []) [] in
  let lines' := removelast lines in
  fullText <- foldM (sseLine onStream onStatus) (rs_fullText st) lines' ;
  ret (MkReader dec buffer' fullText).

(** Lines 965-1014: the whole loop over the chunks of a stream that ends
    normally. *)
Definition readLoop (onStream onStatus : bool) (chunks : list (list Byte.byte))
  : M reader_state :=
  foldM (readChunk onStream onStatus) reader_init chunks.

Definition streamPayload (settings : AppSettings) (prompt : str)
  (workflow : value) (sessionId : str) (errorLog : option str) : value :=
  JObj ([ (lit "message", JStr prompt);
          (lit "workflow", workflow);
          (lit "session_id", JStr sessionId);
          (lit "error_log",
            match errorLog with Some e => JStr e | None => JNull end);
          (lit "language", JStr (language settings)) ]
        ++ (if str_eqb (activeBackendConfigId settings) [] then []
            else [(lit "config_id", JStr (activeBackendConfigId settings))])).

Definition callPythonBackendStream (w : World) (settings : AppSettings)
  (prompt : str) (workflow : value) (sessionId : str) (errorLog : option str)
  (onStream onStatus : bool) : M (str * list source) :=
  if str_eqb (pythonBackendUrl settings) [] then
    throw (lit "Python Backend URL is missing.")
  else
    response <-
      do_fetch w
        (strip_trailing_slash (pythonBackendUrl settings)
         ++ lit "/api/chat/stream")
        (MkRequest (lit "POST")
           (JObj [(lit "Content-Type", JStr (lit "application/json"))])
           (stringify (streamPayload settings prompt workflow sessionId errorLog))) ;
    if negb (resp_ok response) then
      throw (lit "Backend Error: " ++ nat_to_str (resp_status response)
             ++ lit " " ++ resp_statusText response)
    else
      match resp_body response with
      | None => throw (lit "No response body from backend")
      | Some (chunks, failure) =>
          st <- readLoop onStream onStatus chunks ;
          match failure with
          | Some e => lift (Throw e)
          | None => ret (rs_fullText st, [])
          end
      end.

End PythonStream.

(** ** Structured extraction and the entry point
       ([cleanJsonString], [sendMessageToComfyAgent]) *)

Definition BASE_SYSTEM_INSTRUCTION : str := qlit "
You are ~Comfy Workflow Agent~, an expert AI assistant and Workflow Architect specialized in ComfyUI.

## CORE MISSION
1. **SOLVE ERRORS**: Identify, explain, and fix execution errors, missing connections, and incompatible types.
2. **EXPLAIN LOGIC**: Deconstruct complex workflows into clear, step-by-step explanations of how data flows (e.g., Load Image -> VAE Encode -> KSampler -> Decode).

## CAPABILITIES
1. **Analyze Workflows**: Understand the structure, data flow, and logic of the provided JSON.
2. **Modify Workflows**: Generate a VALID, COMPLETE JSON representation of the workflow when requested.
3. **Active Inquiry**: If a user's request is ambiguous, ASK for clarification.

## RESPONSE FORMAT
1. **For Explanations**: Use natural language with bold key terms. Break down the flow logically (e.g., ~Step 1: Input~, ~Step 2: Processing~).
2. **For Workflow Updates**:
   - Output the **FULL JSON** in a Markdown code block labeled `json`.
   - Example: ```json { ... } ```
   - **CRITICAL**: Ensure valid JSON. NO trailing commas. NO comments inside the JSON block.
3. **For Diagnostics / Issues**:
   - If you find specific problems, output them in a JSON array block labeled `ISSUES_JSON`.
   - Format: `ISSUES_JSON: [{~nodeId~: 10, ~severity~: ~error~, ~message~: ~...~, ~fixSuggestion~: ~...~}]`
4. **For Missing Nodes**:
   - Use a section: ~SUGGESTED_ACTIONS: [Action1, Action2]~.

## RULES
- **Always** validate connections.
- **Never** break JSON structure.
- When explaining, focus on **data flow** and **functionality**, not just node names.

## FINAL OUTPUT
At the end of your response, please provide 3 short ~Related Questions~ that user might want to ask next to help them deeper understand the workflow or resolve issues.
Format them as a JSON array labeled `RELATED_QUESTIONS`.
Example: `RELATED_QUESTIONS: [~Question 1?~, ~Question 2?~]`
".

(** [/```json\s*([\s\S]*?)\s*```/] *)
Definition rx_json_block : regex :=
  (Lit (lit "```json") +++ Star true rx_space +++ Group (Star false rx_any)
   +++ Star true rx_space +++ Lit (lit "```"))%re.

(** The expressions of lines 1164 and 1191, which differ in their label
    ([ISSUES_JSON:], [RELATED_QUESTIONS:]): the label, white space, an
    optional opening fence (three backticks, optionally [json], white
    space), the captured group (a bracket, lazily any characters, a closing
    bracket), and an optional closing fence (white space, three
    backticks). *)
Definition rx_tagged_array (label : str) : regex :=
  (Lit label +++ Star true rx_space
   +++ Opt (Lit (lit "```") +++ Opt (Lit (lit "json")) +++ Star true rx_space)
   +++ Group (Lit (lit "[") +++ Star false rx_any +++ Lit (lit "]"))
   +++ Opt (Star true rx_space +++ Lit (lit "```")))%re.

Definition rx_issues : regex := rx_tagged_array (lit "ISSUES_JSON:").
Definition rx_related : regex := rx_tagged_array (lit "RELATED_QUESTIONS:").

(** [/SUGGESTED_ACTIONS:\s*\[(.*?)\]/] *)
Definition rx_actions : regex :=
  (Lit (lit "SUGGESTED_ACTIONS:") +++ Star true rx_space +++ Lit (lit "[")
   +++ Group (Star false rx_dot) +++ Lit (lit "]"))%re.

(** [/\/\/.*$/gm], [/\/\*[\s\S]*?\*\//g], [/,\s*}/g] and [/,\s*]/g]. *)
Definition rx_line_comment : regex :=
  (Lit (lit "//") +++ Star true rx_dot +++ Eol)%re.
Definition rx_block_comment : regex :=
  (Lit (lit "/*") +++ Star false rx_any +++ Lit (lit "*/"))%re.
Definition rx_comma_brace : regex :=
  (Lit (lit ",") +++ Star true rx_space +++ Lit (lit "}"))%re.
Definition rx_comma_bracket : regex :=
  (Lit (lit ",") +++ Star true rx_space +++ Lit (lit "]"))%re.

Definition cleanJsonString (jsonStr : str) : str :=
  let clean := replace_global rx_line_comment [] jsonStr in
  let clean := replace_global rx_block_comment [] clean in
  replace_global rx_comma_bracket (lit "]")
    (replace_global rx_comma_brace (lit "}") clean).

(** The character class of line 1186: a single or a double quote. *)
Definition rx_quote : regex :=
  Chr (fun c => N.eqb c squote || N.eqb c dquote).

(** [m && m[1]]: the first group of a match, when it is a non-empty
    string. *)
Definition captured (m : option rx_match) : option str :=
  match m with
  | Some x =>
      match m_group x with
      | Some g => if str_eqb g [] then None else Some g
      | None => None
      end
  | None => None
  end.

Section Agent.
Context {RT : JSRuntime}.
Local Open Scope comp_scope.

Record WorkflowIssue : Type := MkIssue {
  issue_id : str;
  issue_nodeId : value;
  issue_severity : value;
  issue_message : value;
  issue_fixSuggestion : option value
}.

(** [GeminiResponseSchema]; a field the returned object does not have is
    [None]. *)
Record AgentResponse : Type := MkAgentResponse {
  chatResponse : str;
  updatedWorkflow : value;
  missingNodes : option (list str);
  issues : option (list WorkflowIssue);
  suggestedActions : list str;
  relatedQuestions : option value;
  groundingSources : list source
}.

(** Lines 1149-1160. *)
Definition extractWorkflow (textResponse : str) : M value :=
  match captured (exec rx_json_block textResponse) with
  | Some rawJson =>
      try_catch (json_parse (cleanJsonString rawJson)) (fun _ => ret JNull)
  | None => ret JNull
  end.

(** The callback of [parsedIssues.map] (lines 1170-1176). *)
Definition normalizeIssue (now : N) (idx : nat) (issue : value)
  : completion WorkflowIssue :=
  match getStrict (Some issue) (lit "nodeId") with
  | Throw e => Throw e
  | Normal nodeId =>
      Normal
        (MkIssue (lit "ai-issue-" ++ N_to_str now ++ lit "-" ++ nat_to_str idx)
           (value_or nodeId JNull)
           (value_or (getProp issue (lit "severity")) (JStr (lit "warning")))
           (value_or (getProp issue (lit "message")) (JStr (lit "Unknown issue")))
           (getProp issue (lit "fixSuggestion")))
  end.

Fixpoint normalizeIssues (now : N) (idx : nat) (l : list value)
  : completion (list WorkflowIssue) :=
  match l with
  | [] => Normal []
  | x :: r =>
      match normalizeIssue now idx x with
      | Throw e => Throw e
      | Normal i =>
          match normalizeIssues now (S idx) r with
          | Throw e => Throw e
          | Normal others => Normal (i :: others)
          end
      end
  end.

(** Lines 1162-1181. *)
Definition extractIssues (w : World) (textResponse : str)
  : M (list WorkflowIssue) :=
  match captured (exec rx_issues textResponse) with
  | Some rawIssues =>
      try_catch
        (parsedIssues <- json_parse (cleanJsonString rawIssues) ;
         match parsedIssues with
         | JArr l => lift (normalizeIssues (date_now w) 0 l)
         | _ => ret []
         end)
        (fun _ => ret [])
  | None => ret []
  end.

(** The callback of the [map] of line 1186. *)
Definition cleanAction (s : str) : str := replace_global rx_quote [] (trim s).

(** Lines 1183-1187. *)
Definition extractActions (textResponse : str) : list str :=
  match captured (exec rx_actions textResponse) with
  | Some inner => map cleanAction (split 44%N inner)
  | None => []
  end.

(** Lines 1189-1198. *)
Definition extractRelated (textResponse : str) : M value :=
  match captured (exec rx_related textResponse) with
  | Some raw =>
      try_catch (json_parse (cleanJsonString raw)) (fun _ => ret (JArr []))
  | None => ret (JArr [])
  end.

(** Lines 1200-1205; the second patterns are those of the extraction without
    their capture group. *)
Definition rx_tagged_region (label : str) : regex :=
  (Lit label +++ Star true rx_space
   +++ Opt (Lit (lit "```") +++ Opt (Lit (lit "json")) +++ Star true rx_space)
   +++ Lit (lit "[") +++ Star false rx_any +++ Lit (lit "]")
   +++ Opt (Star true rx_space +++ Lit (lit "```")))%re.

Definition cleanText (w : World) (lang textResponse : str) : str :=
  trim
    (replace_first (rx_tagged_region (lit "RELATED_QUESTIONS:")) []
       (replace_first
          (Lit (lit "SUGGESTED_ACTIONS:") +++ Star true rx_space
           +++ Lit (lit "[") +++ Star false rx_dot +++ Lit (lit "]"))%re []
          (replace_first (rx_tagged_region (lit "ISSUES_JSON:")) []
             (replace_first
                (Lit (lit "```json") +++ Star true rx_space
                 +++ Star false rx_any +++ Star true rx_space
                 +++ Lit (lit "```"))%re
                (t w lang (lit "updateMessage")) textResponse)))).

(** Lines 1147-1215: the parsing shared by the three providers. *)
Definition parseResponse (w : World) (lang textResponse : str)
  (sources : list source) : M AgentResponse :=
  updated <- extractWorkflow textResponse ;
  found <- extractIssues w textResponse ;
  let actions := extractActions textResponse in
  related <- extractRelated textResponse ;
  ret (MkAgentResponse (cleanText w lang textResponse) updated (Some [])
         (Some found)
         (match actions with
          | [] => [t w lang (lit "actionUndo");
                   t w lang (lit "actionExplainChanges")]
          | _ :: _ => actions
          end)
         (Some related) sources).

End Agent.

Section EntryPoint.
Context {RT : JSRuntime}.
Local Open Scope comp_scope.

(** The callback of [nodes.map] in the workflow summary (line 1113);
    properties whose value is [undefined] are left out by
    [JSON.stringify]. *)
Definition summarizeNode (n : value) : completion value :=
  match getStrict (Some n) (lit "id") with
  | Throw e => Throw e
  | Normal id =>
      let field (k : str) (v : option value) : list (str * value) :=
        match v with Some x => [(k, x)] | None => [] end in
      Normal
        (JObj (field (lit "id") id
               ++ field (lit "type") (getProp n (lit "type"))
               ++ field (lit "title")
                    (getOpt (getProp n (lit "properties"))
                       (lit "Node name for S&R"))))
  end.

Fixpoint summarizeNodes (l : list value) : completion (list value) :=
  match l with
  | [] => Normal []
  | n :: r =>
      match summarizeNode n with
      | Throw e => Throw e
      | Normal x =>
          match summarizeNodes r with
          | Throw e => Throw e
          | Normal xs => Normal (x :: xs)
          end
      end
  end.

(** [currentWorkflow?.nodes?.map(...) || []] *)
Definition nodesSummary (currentWorkflow : value) : completion value :=
  match getOpt (Some currentWorkflow) (lit "nodes") with
  | None | Some JNull => Normal (JArr [])
  | Some (JArr l) =>
      match summarizeNodes l with
      | Throw e => Throw e
      | Normal xs => Normal (JArr xs)
      end
  | Some _ =>
      Throw (JsError (lit "currentWorkflow?.nodes?.map is not a function"))
  end.

(** Lines 1110-1133: the prompt sent to the cloud and custom providers. *)
Definition buildPrompt (currentWorkflow : value) (userPrompt : str)
  (errorLog : option str) : M str :=
  let nodes := getOpt (Some currentWorkflow) (lit "nodes") in
  let count :=
    toString (value_or (getOpt nodes (lit "length")) (JNum (number_of_nat 0))) in
  summary <- lift (nodesSummary currentWorkflow) ;
  ret (lit "
            [CURRENT WORKFLOW STATE]
            Node Count: " ++ count ++ lit "
            Nodes Summary: " ++ stringify summary ++ lit "
            
            [FULL WORKFLOW JSON]
            " ++ stringify currentWorkflow ++ lit "
            "
       ++ match errorLog with
          | Some e =>
              if str_eqb e [] then []
              else lit "
[RUNTIME ERRORS]
The user encountered the following errors during execution:
" ++ e ++ [newline]
          | None => []
          end
       ++ qlit "
            [USER REQUEST]
            ~" ++ userPrompt ++ qlit "~

            [INSTRUCTIONS]
            - If the user wants to change the workflow, output the NEW JSON in a ```json block.
            - If the user asks to DIAGNOSE, ANALYZE, or CHECK the workflow, output the issues in `ISSUES_JSON: [...] `.
            - If the user asks to EXPLAIN, provide a detailed summary of the logic and data flow.
            - Suggest 2-3 short follow-up actions if applicable in the format ~SUGGESTED_ACTIONS: [Action 1, Action 2]~.
            - Provide 3 Related Questions in the format `RELATED_QUESTIONS: [~Q1~, ~Q2~]`.
            ").

(** [textResponse.match(...)]: a method call on the reply, which throws
    when the reply is not a string. *)
Definition asText (textResponse : value) : M str :=
  match textResponse with
  | JStr s => ret s
  | _ => throw (lit "textResponse.match is not a function")
  end.

(** The [try] block of [sendMessageToComfyAgent] (lines 1105-1215). *)
Definition agentBody (w : World) (currentWorkflow : value) (userPrompt : str)
  (settings : AppSettings) (sessionId : str) (errorLog : option str)
  (onStream onStatus : bool) : M AgentResponse :=
  let languageInstruction :=
    qlit "
IMPORTANT: You MUST respond in the following language code: ~"
    ++ language settings
    ++ qlit "~. Translate your advice and interface text accordingly." in
  let fullSystemInstruction := BASE_SYSTEM_INSTRUCTION ++ languageInstruction in
  prompt <- buildPrompt currentWorkflow userPrompt errorLog ;
  reply <-
    (if usePythonBackend settings then
       res <- callPythonBackendStream w settings userPrompt currentWorkflow
                sessionId errorLog onStream onStatus ;
       ret (JStr (fst res), snd res)
     else if str_eqb (provider settings) (lit "google") then
       res <- callGoogleGemini w settings prompt fullSystemInstruction onStream ;
       ret (JStr (fst res), snd res)
     else
       text <- callCustomLLM w settings prompt fullSystemInstruction onStream ;
       ret (text, [])) ;
  textResponse <- asText (fst reply) ;
  parseResponse w (language settings) textResponse (snd reply).

(** The [catch] block (lines 1217-1225). *)
Definition errorResponse (w : World) (lang : str) (error : js_error)
  : AgentResponse :=
  MkAgentResponse
    (t w lang (lit "errorPrefix") ++ lit " "
     ++ or_else (message error) (lit "Unknown error"))
    JNull None None [lit "Check Settings"; lit "Retry"] None [].

(** The promise returned by [sendMessageToComfyAgent]: [Normal] when it
    resolves, [Throw] when it rejects. *)
Definition sendMessageToComfyAgent (w : World) (currentWorkflow : value)
  (userPrompt : str) (settings : AppSettings) (sessionId : str)
  (errorLog : option str) (onStream onStatus : bool) : M AgentResponse :=
  let lang := language settings in
  try_catch
    (agentBody w currentWorkflow userPrompt settings sessionId errorLog
       onStream onStatus)
    (fun error => ret (errorResponse w lang error)).

End EntryPoint.

(** ** Session identity ([App.tsx]) *)

Section Session.
Context {RT : JSRuntime}.






(** The session id of a request sent to the back end. *)
Inductive request : Type :=
| ChatRequest (sessionId : value)
| HistoryRequest (sessionId : value).









End Session.

(** ** History and analysis services ([fetchChatHistory],
       [analyzeWorkflowWithBackend]) *)

(** [Sender] of [types]. *)
Inductive Sender : Type := USER | AI | SYSTEM.

Section BackendServices.
Context {RT : JSRuntime}.
Local Open Scope comp_scope.

(** A [ChatMessage].  [msg_timestamp] holds the argument given to
    [new Date]: a value taken from the entry, or the clock.  [msg_metadata]
    is [None] when the field is [undefined]. *)
Record ChatMessage : Type := MkMessage {
  msg_id : str;
  msg_sender : Sender;
  msg_text : value;
  msg_timestamp : value + N;
  msg_metadata : option value
}.

(** [fetch(url)]: a GET request without headers or body. *)
Definition get_request : request_init := MkRequest (lit "GET") (JObj []) [].









End BackendServices.

(** ** Merging the stored history into the conversation ([App.tsx]) *)

Section HistoryMerge.
Context {RT : JSRuntime}.

(** The string of a member of [Sender], as the template literal of line 149
    renders it; the enumeration is declared in [types]. *)
Variable sender_name : Sender -> str.

(** [Array.prototype.sort] with the comparator of line 155, which orders by
    [timestamp.getTime()]. *)
Variable sortByTime : list ChatMessage -> list ChatMessage.

(** [v.text.trim()] for the variable named [var]: a method call on the
    text, which throws when the text is not a string. *)
Definition trimmedText (var : str) (m : ChatMessage) : completion str :=
  match msg_text m with
  | JStr text => Normal (trim text)
  | JNull => Throw (null_property_error (lit "trim"))
  | _ => Throw (JsError (var ++ lit ".text.trim is not a function"))
  end.

(** The signature of a message: its sender and its trimmed text. *)
Definition signature (var : str) (m : ChatMessage) : completion str :=
  match trimmedText var m with
  | Normal text => Normal (sender_name (msg_sender m) ++ lit ":" ++ text)
  | Throw e => Throw e
  end.

(** [prev.map(m => ...)] of line 149. *)
Fixpoint signatures (l : list ChatMessage) : completion (list str) :=
  match l with
  | [] => Normal []
  | m :: r =>
      match signature (lit "m") m with
      | Throw e => Throw e
      | Normal sig =>
          match signatures r with
          | Throw e => Throw e
          | Normal sigs => Normal (sig :: sigs)
          end
      end
  end.

(** [hist.filter(h => !existingSignatures.has(sig))] of lines 150-153. *)
Fixpoint newMessages (existingSignatures : list str) (hist : list ChatMessage)
  : completion (list ChatMessage) :=
  match hist with
  | [] => Normal []
  | h :: r =>
      match signature (lit "h") h with
      | Throw e => Throw e
      | Normal sig =>
          match newMessages existingSignatures r with
          | Throw e => Throw e
          | Normal newMsgs =>
              Normal (if negb (existsb (str_eqb sig) existingSignatures)
                      then h :: newMsgs else newMsgs)
          end
      end
  end.

(** The state update of lines 144-157: the messages displayed after the
    history [hist] has been loaded while [prev] was displayed.  Nothing is
    updated when the history is empty. *)
Definition mergeHistory (prev hist : list ChatMessage)
  : completion (list ChatMessage) :=
  match hist with
  | [] => Normal prev
  | _ :: _ =>
      let merged :=
        match signatures prev with
        | Throw e => Throw e
        | Normal existingSignatures =>
            match newMessages existingSignatures hist with
            | Throw e => Throw e
            | Normal [] => Normal prev
            | Normal ((_ :: _) as newMsgs) => Normal (sortByTime (prev ++ newMsgs))
            end
        end in
      match prev with
      | [m] => if str_eqb (msg_id m) (lit "init-1") then Normal hist else merged
      | _ => merged
      end
  end.

End HistoryMerge.

(** ** Configuration service ([getBaseUrl], [getGitHubStatus])

    The service that manages the provider configurations and the GitHub
    token of the orchestration server stands in the source tree as
    [unnamed/part_000]; line numbers of this section refer to it. *)

(** [getBaseUrl] (line 3). *)
Definition getBaseUrl (url : str) : str := strip_trailing_slash url.

Section ConfigService.
Context {RT : JSRuntime}.
Local Open Scope comp_scope.

(** [{ has_token: false }] *)
Definition no_token : value := JObj [(lit "has_token", JBool false)].

(** [getGitHubStatus] (lines 55-63).  The [try] block ends with
    [return res.json()]: the promise is returned without being awaited, so
    the block is left before the body is read, and a failure to read or to
    parse the body rejects the promise of the function instead of reaching
    the [catch] clause.  [pending] is what the [try] statement yields: a
    status, or the response whose body remains to be read. *)
Definition getGitHubStatus (w : World) (backendUrl : str) : M value :=
  pending <-
    try_catch
      (res <- do_fetch w (getBaseUrl backendUrl ++ lit "/api/github-token")
                get_request ;
       if negb (resp_ok res) then ret (inl no_token) else ret (inr res))
      (fun _ => ret (inl no_token)) ;
  match pending with
  | inl status => ret status
  | inr res => raw <- lift (resp_text res) ; json_parse raw
  end.

End ConfigService.

(** ** Notions used in the statements *)

Section StatementNotions.
Context {RT : JSRuntime}.

(** The same response with its whole body delivered by a single [read()]. *)
Definition deliver_whole (r : http_response) : http_response :=
  MkResponse (resp_ok r) (resp_status r) (resp_statusText r) (resp_text r)
    (match resp_body r with
     | Some (chunks, failure) => Some ([List.concat chunks], failure)
     | None => None
     end).

(** The same world, every response body arriving as one chunk. *)
Definition whole_world (w : World) : World :=
  MkWorld
    (fun url init =>
       match fetch w url init with
       | Normal r => Normal (deliver_whole r)
       | Throw e => Throw e
       end)
    (generateContentStream w) (env_API_KEY w) (date_now w) (t w).

End StatementNotions.

(** The distinct elements of a list of keys, in the order of their first
    occurrence. *)
Definition first_seen (keys : list str) : list str :=
  fold_left
    (fun acc k => if existsb (str_eqb k) acc then acc else acc ++ [k])
    keys [].

(** The first and the last citation of a list that carry a given uri. *)
Definition firstWithUri (u : str) (l : list source) : option source :=
  find (fun x => str_eqb (uri x) u) l.

Definition lastWithUri (u : str) (l : list source) : option source :=
  find (fun x => str_eqb (uri x) u) (rev l).

Section GeminiNotions.
Context {RT : JSRuntime}.

(** The citations pushed to [allSources] while the chunks are read. *)
Definition collectedSources (chunks : list sdk_chunk) : list source :=
  flat_map
    (fun chunk =>
       match chunk_grounding chunk with
       | Some groundingChunks => flat_map collectSource groundingChunks
       | None => []
       end) chunks.

End GeminiNotions.

Section ReplyNotions.
Context {RT : JSRuntime}.

(** The selection of the reply as a plain priority list: the first truthy
    value among [choices[0].message.content], [choices[0].text], [content]
    and [response], otherwise the serialized response. *)
Definition priorityReplyText (data : value) : value :=
  let choice0 := getOpt (getOpt (Some data) (lit "choices")) (lit "0") in
  let candidates :=
    [ getOpt (getOpt choice0 (lit "message")) (lit "content");
      getOpt choice0 (lit "text");
      getOpt (Some data) (lit "content");
      getOpt (Some data) (lit "response") ] in
  match find truthy_opt candidates with
  | Some (Some v) => v
  | _ => JStr (stringify data)
  end.

End ReplyNotions.

(** A world for running the embedding on concrete inputs with the reference
    runtime: the network and the SDK are down, and the string table answers
    with the key it is asked for. *)
Definition offline_world : World (RT := ReferenceRuntime) :=
  MkWorld
    (fun _ _ => Throw (JsError (lit "Failed to fetch")))
    (fun _ => Throw (JsError (lit "Failed to fetch")))
    [] 1700000000000%N (fun _ key => key).

(** A custom-provider profile with the given base URL and templates. *)
Definition custom_profile (base headersTpl bodyTpl : str) : AppSettings :=
  MkSettings (lit "custom") (lit "key") (lit "m1") base (lit "en") false []
    (Some (MkCustomConfig [] headersTpl bodyTpl)) [].

(** The global replacement of a text pattern, written as a scan on its own:
    each leftmost non-overlapping occurrence of [pat] is replaced.  [seen] is
    the text already scanned (reversed) and [skip] the number of characters
    of the current occurrence still to pass over. *)
Fixpoint replaceAll_scan (pat rep : str) (seen : str) (skip : nat) (s : str) : str :=
  match s with
  | [] => []
  | c :: s' =>
      match skip with
      | S k => replaceAll_scan pat rep (c :: seen) k s'
      | O =>
          if is_prefix pat s
          then getSubstitution pat (rev seen) (skipn (List.length pat) s) rep
               ++ replaceAll_scan pat rep (c :: seen) (List.length pat - 1) s'
          else c :: replaceAll_scan pat rep (c :: seen) 0 s'
      end
  end.

(** A placeholder written bare between [pre] and [post] is enclosed in the
    quote [q] when [pre] ends with [q] and [post] starts with it. *)
Definition enclosed (q : char) (pre post : str) : Prop :=
  exists pre' post', pre = pre' ++ [q] /\ post = q :: post'.

Section ExtractionNotions.
Context {RT : JSRuntime}.

(** The text has a valid issues region: the region found after the label
    [ISSUES_JSON:] parses, once cleaned, as a non-empty array without
    [null] element. *)
Definition issues_valid (textResponse : str) : Prop :=
  exists rawIssues parsedIssues,
    captured (exec rx_issues textResponse) = Some rawIssues
    /\ JSON_parse (cleanJsonString rawIssues) = Some (JArr parsedIssues)
    /\ parsedIssues <> []
    /\ Forall (fun issue => issue <> JNull) parsedIssues.

(** The text has no usable related-questions region: the label is absent,
    or its bracket is never closed, or what is found does not parse. *)
Definition related_malformed (textResponse : str) : Prop :=
  match captured (exec rx_related textResponse) with
  | Some raw => JSON_parse (cleanJsonString raw) = None
  | None => True
  end.

End ExtractionNotions.

(** A quote character, and an item stripped as the specification words it:
    surrounding white space and surrounding quotes only. *)
Definition is_quote (c : char) : bool := N.eqb c squote || N.eqb c dquote.

Fixpoint strip_leading_quotes (s : str) : str :=
  match s with
  | c :: s' => if is_quote c then strip_leading_quotes s' else s
  | [] => []
  end.

Definition stripSurrounding (item : str) : str :=
  rev (strip_leading_quotes (rev (strip_leading_quotes (trim item)))).

(** The label occurs nowhere in [pre ++ label] before its end. *)
Definition first_occurrence (label pre : str) : Prop :=
  forall p1 p2, pre = p1 ++ p2 -> p2 <> [] -> is_prefix label (p2 ++ label) = false.

(** The bytes of an ASCII text. *)
Definition ascii_bytes (s : str) : list Byte.byte :=
  map (fun c => match Byte.of_N c with Some b => b | None => Byte.x00 end) s.

(** [s.includes(needle)] *)
Fixpoint includes (needle s : str) : bool :=
  is_prefix needle s
  || match s with
     | [] => false
     | _ :: s' => includes needle s'
     end.

(** Some place of [s] satisfies [p] (the end of the text included). *)
Fixpoint somewhere (p : str -> bool) (s : str) : bool :=
  p s
  || match s with
     | [] => false
     | _ :: s' => somewhere p s'
     end.

(** A comma followed by optional white space and the closing character
    [closer] stands at the start of [s]. *)
Definition comma_before (closer : char) (s : str) : bool :=
  match s with
  | c :: s' =>
      N.eqb c 44
      && match trimStart s' with
         | d :: _ => N.eqb d closer
         | [] => false
         end
  | [] => false
  end.

(** The expression of which [rx_comma_brace] and [rx_comma_bracket] are the
    instances for the two closing characters. *)
Definition rx_comma (closer : char) : regex :=
  (Lit (lit ",") +++ Star true rx_space +++ Lit [closer])%re.

Section TraceNotions.
Context {RT : JSRuntime}.

(** The kinds of events. *)
Definition is_request (e : event) : bool :=
  match e with Fetched _ _ => true | _ => false end.

Definition is_delta (e : event) : bool :=
  match e with Delta _ => true | _ => false end.

Definition is_status (e : event) : bool :=
  match e with Status _ => true | _ => false end.

(** What a caller that appends every chunk passed to [onStream] has
    accumulated once the events of a trace have happened (the callback
    given by [handleSendMessage] does [accumulatedText += chunk]). *)
Definition streamedText (tr : list event) : str :=
  flat_map (fun e => match e with Delta chunk => toString chunk | _ => [] end) tr.

(** What the events of a computation that only reports to the callbacks
    look like: no request; [fullText'] is [fullText] extended by what was
    streamed; no call of a callback that was not given. *)
Definition reports (onStream onStatus : bool) (fullText : str) (tr : list event)
  (fullText' : str) : Prop :=
  Forall (fun e => is_request e = false) tr
  /\ (onStream = true -> fullText' = fullText ++ streamedText tr)
  /\ (onStream = false -> Forall (fun e => is_delta e = false) tr)
  /\ (onStatus = false -> Forall (fun e => is_status e = false) tr).

(** The identifier given to the extracted issue at position [idx]. *)
Definition issueId (now : N) (idx : nat) : str :=
  lit "ai-issue-" ++ N_to_str now ++ lit "-" ++ nat_to_str idx.

(** What the normalization guarantees for an issue: a severity and a
    message that are truthy, a node that is [null] or truthy. *)
Definition issue_filled (i : WorkflowIssue) : Prop :=
  truthy (issue_severity i) = true
  /\ truthy (issue_message i) = true
  /\ (issue_nodeId i = JNull \/ truthy (issue_nodeId i) = true).




End TraceNotions.

(** Two profiles agree on what the orchestration server is given. *)
Definition same_backend (s1 s2 : AppSettings) : Prop :=
  usePythonBackend s1 = true /\ usePythonBackend s2 = true
  /\ pythonBackendUrl s1 = pythonBackendUrl s2
  /\ language s1 = language s2
  /\ activeBackendConfigId s1 = activeBackendConfigId s2.

Section MergeNotions.
Context {RT : JSRuntime}.
Variable sender_name : Sender -> str.
Variable sortByTime : list ChatMessage -> list ChatMessage.

(** The sender and trimmed text of a message whose text is a string. *)
Definition signatureOf (m : ChatMessage) : str :=
  sender_name (msg_sender m) ++ lit ":"
  ++ match msg_text m with JStr text => trim text | _ => [] end.

Definition has_text (m : ChatMessage) : Prop :=
  exists text, msg_text m = JStr text.

(** A message with the signature of [h] is displayed. *)
Definition displayed (prev : list ChatMessage) (h : ChatMessage) : bool :=
  existsb (str_eqb (signatureOf h)) (map signatureOf prev).

(** Only the welcome message is displayed. *)
Definition only_welcome (prev : list ChatMessage) : bool :=
  match prev with
  | [m] => str_eqb (msg_id m) (lit "init-1")
  | _ => false
  end.

(** The messages of the history that the filter keeps. *)
Definition fresh (prev hist : list ChatMessage) : list ChatMessage :=
  filter (fun h => negb (displayed prev h)) hist.

(** The merge when more than the welcome message is displayed. *)
Definition merged (prev hist : list ChatMessage) : list ChatMessage :=
  match fresh prev hist with
  | [] => prev
  | _ :: _ => sortByTime (prev ++ fresh prev hist)
  end.

End MergeNotions.

(** A stable sort of the messages by a time function (insertion sort). *)
Section SortBy.
Context {RT : JSRuntime}.
Variable time : ChatMessage -> N.

Fixpoint insertByTime (m : ChatMessage) (l : list ChatMessage)
  : list ChatMessage :=
  match l with
  | [] => [m]
  | x :: r => if (time m <? time x)%N then m :: l else x :: insertByTime m r
  end.

Definition sortBy (l : list ChatMessage) : list ChatMessage :=
  fold_left (fun acc m => insertByTime m acc) l [].

End SortBy.

(** Worlds and profiles for running the embedding on concrete inputs with
    the reference runtime.  A world whose network answers every request
    with [response]: *)
Definition serving_world (response : http_response)
  : World (RT := ReferenceRuntime) :=
  MkWorld
    (fun _ _ => Normal response)
    (fun _ => Throw (JsError (lit "Failed to fetch")))
    [] 1700000000000%N (fun _ key => key).

(** A world whose SDK streams [chunks]. *)
Definition sdk_world (chunks : list sdk_chunk)
  : World (RT := ReferenceRuntime) :=
  MkWorld
    (fun _ _ => Throw (JsError (lit "Failed to fetch")))
    (fun _ => Normal (chunks, None))
    [] 1700000000000%N (fun _ key => key).

(** A profile that uses the orchestration server at [url]. *)
Definition backend_profile (url : str) : AppSettings :=
  MkSettings (lit "google") [] (lit "m1") [] (lit "en") true url None [].

(** A profile of the cloud provider with the key [key]. *)
Definition cloud_profile (key : str) : AppSettings :=
  MkSettings (lit "google") key [] [] (lit "en") false [] None [].

(** The strings of the members of [Sender] taken for the examples. *)
Definition sender_string (s : Sender) : str :=
  match s with
  | USER => lit "user"
  | AI => lit "ai"
  | SYSTEM => lit "system"
  end.

(** The time of a message dated by the clock. *)
Definition clockTime (m : ChatMessage (RT := ReferenceRuntime)) : N :=
  match msg_timestamp m with
  | inr now => now
  | inl _ => 0%N
  end.

(** A message of the conversation dated by the clock. *)
Definition clockMessage (id : str) (sender : Sender) (text : str) (now : N)
  : ChatMessage (RT := ReferenceRuntime) :=
  MkMessage id sender (JStr text) (inr now) None.

(* ================================================================== *)
(** * Part II.  Properties                                             *)
(* ================================================================== *)

(** ** Strings and computations *)

(** Closes an equation between closed terms by evaluating its left-hand
    side. *)
Ltac by_evaluation :=
  intros;
  match goal with
  | |- _ = ?rhs => vm_cast_no_check (eq_refl rhs)
  end.

Lemma str_eqb_eq : forall a b, str_eqb a b = true <-> a = b.
Proof.
  induction a as [|x a IH]; destruct b as [|y b]; simpl; split;
    try discriminate; try reflexivity.
  - intros H. apply andb_true_iff in H as [Hxy Hab].
    apply N.eqb_eq in Hxy. apply IH in Hab. congruence.
  - intros H. injection H as -> ->.
    rewrite N.eqb_refl. simpl. apply IH. reflexivity.
Qed.

Lemma str_eqb_refl : forall a, str_eqb a a = true.
Proof. intros a. apply str_eqb_eq. reflexivity. Qed.

Lemma str_eqb_neq : forall a b, str_eqb a b = false <-> a <> b.
Proof.
  intros a b. split.
  - intros H E. apply str_eqb_eq in E. congruence.
  - intros H. destruct (str_eqb a b) eqn:E; [|reflexivity].
    apply str_eqb_eq in E. contradiction.
Qed.

Lemma or_else_nil : forall a, or_else a [] = a.
Proof. intros [|c a]; reflexivity. Qed.

Section Computations.
Context {RT : JSRuntime}.

Lemma bind_ret_l : forall (A B : Type) (a : A) (f : A -> M B),
  bind (ret a) f = f a.
Proof. intros. unfold bind, ret. destruct (f a). reflexivity. Qed.

Lemma bind_ret_r : forall (A : Type) (m : M A), bind m (fun a => ret a) = m.
Proof.
  intros A [tr [a|e]]; simpl; [rewrite app_nil_r|]; reflexivity.
Qed.

Lemma bind_assoc : forall (A B C : Type) (m : M A) (f : A -> M B) (g : B -> M C),
  bind (bind m f) g = bind m (fun a => bind (f a) g).
Proof.
  intros A B C [tr [a|e]] f g; simpl; [|reflexivity].
  destruct (f a) as [tr1 [b|e1]]; simpl; [|reflexivity].
  destruct (g b) as [tr2 r]. rewrite app_assoc. reflexivity.
Qed.

Lemma bind_normal : forall (A B : Type) (tr : list event) (a : A) (f : A -> M B),
  bind (tr, Normal a) f = (tr ++ fst (f a), snd (f a)).
Proof. intros. simpl. destruct (f a). reflexivity. Qed.

Lemma foldM_app : forall (A B : Type) (f : A -> B -> M A) (l1 l2 : list B) (a : A),
  foldM f a (l1 ++ l2) = bind (foldM f a l1) (fun a' => foldM f a' l2).
Proof.
  induction l1 as [|x l1 IH]; intros l2 a.
  - cbn [foldM app]. rewrite bind_ret_l. reflexivity.
  - cbn [foldM app]. rewrite bind_assoc.
    destruct (f a x) as [tr [a'|e]]; simpl; [rewrite IH|]; reflexivity.
Qed.

End Computations.

(** ** The expression built by [newRP] *)

Lemma is_prefix_firstn : forall p s,
  is_prefix p s = true ->
  firstn (List.length p) s = p /\ List.length p <= List.length s.
Proof.
  induction p as [|x p IH]; intros s H; [split; [reflexivity|cbn; lia]|].
  destruct s as [|y s]; [discriminate|]. cbn [is_prefix] in H.
  apply andb_true_iff in H as [Hxy Hp]. apply N.eqb_eq in Hxy. subst y.
  destruct (IH s Hp) as [Hf Hl]. cbn [List.length firstn]. rewrite Hf.
  split; [reflexivity|lia].
Qed.

(** The scan used for [resolveTemplate] is the global replacement of the
    regular-expression engine for the expression that matches the text of
    the pattern. *)
Lemma newRP_literal : forall pat rep,
  pat <> [] ->
  forall s seen skip,
    replace_global_scan (Lit pat) rep seen skip s
    = replaceAll_scan pat rep seen skip s.
Proof.
  intros pat rep Hne. induction s as [|c s IH]; intros seen skip.
  - destruct skip; [|reflexivity]. cbn [replace_global_scan replaceAll_scan].
    unfold match_here. cbn [rmatch].
    destruct pat; [contradiction|reflexivity].
  - destruct skip as [|skip]; [|cbn [replace_global_scan replaceAll_scan]; apply IH].
    cbn [replace_global_scan replaceAll_scan]. unfold match_here. cbn [rmatch].
    destruct (is_prefix pat (c :: s)) eqn:E; [|rewrite IH; reflexivity].
    destruct (is_prefix_firstn _ _ E) as [Hf Hl].
    assert (Hn : List.length (c :: s)
                 - List.length (skipn (List.length pat) (c :: s))
                 = List.length pat)
      by (rewrite length_skipn; lia).
    rewrite Hn, Hf.
    assert (Hpos : (List.length pat =? 0) = false)
      by (apply Nat.eqb_neq; destruct pat; [contradiction|discriminate]).
    rewrite Hpos. cbn [app]. rewrite IH. reflexivity.
Qed.

Lemma replaceAll_as_scan : forall pat rep s,
  pat <> [] -> replaceAll pat rep s = replaceAll_scan pat rep [] 0 s.
Proof.
  intros pat rep s H. unfold replaceAll, replace_global, newRP.
  apply newRP_literal. exact H.
Qed.

(** ** The template resolver (C2, C3) *)

Lemma getSubstitution_plain : forall matched before after rep,
  ~ In dollar rep -> getSubstitution matched before after rep = rep.
Proof.
  intros matched before after. induction rep as [|c r IH]; intros H.
  - reflexivity.
  - cbn [getSubstitution]. destruct (N.eqb c dollar) eqn:E.
    + apply N.eqb_eq in E. subst. exfalso. apply H. left. reflexivity.
    + rewrite IH by (intros Hin; apply H; right; exact Hin). reflexivity.
Qed.

Lemma is_prefix_app : forall p s, is_prefix p (p ++ s) = true.
Proof.
  induction p as [|x p IH]; intros s; [reflexivity|].
  cbn [app is_prefix]. rewrite N.eqb_refl, IH. reflexivity.
Qed.

Lemma is_prefix_app_same : forall k a b,
  is_prefix (k ++ a) (k ++ b) = is_prefix a b.
Proof.
  induction k as [|x k IH]; intros a b; [reflexivity|].
  cbn [app is_prefix]. rewrite N.eqb_refl, IH. reflexivity.
Qed.

Lemma is_prefix_In : forall p s x,
  is_prefix p s = true -> In x p -> In x s.
Proof.
  induction p as [|y p IH]; intros s x H Hin; [destruct Hin|].
  destruct s as [|z s]; [discriminate|]. cbn [is_prefix] in H.
  apply andb_true_iff in H as [Hyz Hp]. apply N.eqb_eq in Hyz. subst z.
  destruct Hin as [->|Hin]; [left; reflexivity|right; eapply IH; eassumption].
Qed.

Lemma skipn_length_app : forall (p s : str), skipn (List.length p) (p ++ s) = s.
Proof. induction p as [|x p IH]; intros s; [reflexivity|apply IH]. Qed.

Section Scan.
Variables pat rep : str.

(** Passing over the rest of a match. *)
Lemma replaceAll_scan_skip : forall a seen s,
  replaceAll_scan pat rep seen (List.length a) (a ++ s) =
  replaceAll_scan pat rep (rev a ++ seen) 0 s.
Proof.
  induction a as [|x a IH]; intros seen s.
  - destruct s; reflexivity.
  - cbn [app List.length replaceAll_scan]. rewrite IH.
    cbn [rev]. rewrite <- app_assoc. reflexivity.
Qed.

(** A character at which the pattern does not start is copied. *)
Lemma replaceAll_scan_miss : forall seen c s,
  is_prefix pat (c :: s) = false ->
  replaceAll_scan pat rep seen 0 (c :: s) =
  c :: replaceAll_scan pat rep (c :: seen) 0 s.
Proof. intros seen c s H. cbn [replaceAll_scan]. rewrite H. reflexivity. Qed.

(** An occurrence of the pattern is replaced by the expansion of the
    replacement string, and the scan resumes after it. *)
Lemma replaceAll_scan_match : forall seen s,
  pat <> [] ->
  replaceAll_scan pat rep seen 0 (pat ++ s) =
  getSubstitution pat (rev seen) s rep
  ++ replaceAll_scan pat rep (rev pat ++ seen) 0 s.
Proof.
  intros seen s Hne.
  assert (Hpat : exists p0 ptl, pat = p0 :: ptl)
    by (destruct pat as [|p0 ptl]; [contradiction|eexists _, _; reflexivity]).
  destruct Hpat as (p0 & ptl & Ep).
  assert (E : pat ++ s = p0 :: (ptl ++ s)) by (rewrite Ep; reflexivity).
  rewrite E. cbn [replaceAll_scan]. rewrite <- E.
  rewrite is_prefix_app, skipn_length_app. f_equal.
  replace (List.length pat - 1) with (List.length ptl)
    by (rewrite Ep; cbn [List.length]; lia).
  rewrite replaceAll_scan_skip. rewrite Ep at 3. cbn [rev].
  rewrite <- app_assoc. reflexivity.
Qed.

(** A text without dollar sign has no occurrence of a pattern that contains
    one. *)
Lemma replaceAll_scan_plain : forall s seen,
  In dollar pat -> ~ In dollar s -> replaceAll_scan pat rep seen 0 s = s.
Proof.
  induction s as [|c s IH]; intros seen Hp Hs; [reflexivity|].
  rewrite replaceAll_scan_miss.
  - rewrite IH; [reflexivity|exact Hp|]. intros Hin. apply Hs. right. exact Hin.
  - destruct (is_prefix pat (c :: s)) eqn:E; [|reflexivity].
    exfalso. apply Hs. exact (is_prefix_In _ _ _ E Hp).
Qed.

End Scan.

(** Text without dollar sign is copied when the pattern starts with one. *)
Lemma replaceAll_scan_bare_prefix : forall ptl rep pre seen s,
  ~ In dollar pre ->
  replaceAll_scan (dollar :: ptl) rep seen 0 (pre ++ s) =
  pre ++ replaceAll_scan (dollar :: ptl) rep (rev pre ++ seen) 0 s.
Proof.
  intros ptl rep. induction pre as [|c pre IH]; intros seen s H; [reflexivity|].
  cbn [app]. rewrite replaceAll_scan_miss.
  - rewrite IH by (intros Hin; apply H; right; exact Hin).
    cbn [rev]. rewrite <- app_assoc. reflexivity.
  - cbn [is_prefix]. destruct (N.eqb dollar c) eqn:E; [|reflexivity].
    apply N.eqb_eq in E. exfalso. apply H. left. symmetry. exact E.
Qed.

(** Text without dollar sign is copied when the second character of the
    pattern is a dollar sign and the text that follows does not start with
    one. *)
Lemma replaceAll_scan_quoted_prefix : forall q ptl rep pre seen s,
  ~ In dollar pre -> (forall s', s <> dollar :: s') ->
  replaceAll_scan (q :: dollar :: ptl) rep seen 0 (pre ++ s) =
  pre ++ replaceAll_scan (q :: dollar :: ptl) rep (rev pre ++ seen) 0 s.
Proof.
  intros q ptl rep. induction pre as [|c pre IH]; intros seen s H Hs;
    [reflexivity|].
  cbn [app]. rewrite replaceAll_scan_miss.
  - rewrite IH; [|intros Hin; apply H; right; exact Hin|exact Hs].
    cbn [rev]. rewrite <- app_assoc. reflexivity.
  - cbn [is_prefix]. destruct (N.eqb q c); [|reflexivity]. cbn [andb].
    destruct pre as [|c' pre'].
    + cbn [app]. destruct s as [|d s']; [reflexivity|].
      destruct (N.eqb dollar d) eqn:E; [|reflexivity].
      apply N.eqb_eq in E. subst d. exfalso. exact (Hs s' eq_refl).
    + cbn [app]. destruct (N.eqb dollar c') eqn:E; [|reflexivity].
      apply N.eqb_eq in E. exfalso. apply H. right. left. symmetry. exact E.
Qed.

(** A bare placeholder that is not enclosed in the quote [q] is left alone
    by the pass for the form quoted with [q]. *)
Lemma replaceAll_scan_quoted_bare : forall q key rep post,
  q <> dollar -> ~ In dollar key -> ~ In dollar post ->
  forall pre seen,
  ~ In dollar pre -> ~ enclosed q pre post ->
  replaceAll_scan (q :: dollar :: key ++ [q]) rep seen 0
    (pre ++ dollar :: key ++ post) =
  pre ++ dollar :: key ++ post.
Proof.
  intros q key rep post Hq Hkey Hpost.
  assert (Hpat : In dollar (q :: dollar :: key ++ [q]))
    by (right; left; reflexivity).
  assert (Hrest : ~ In dollar (key ++ post))
    by (intros Hin; apply in_app_or in Hin; tauto).
  induction pre as [|c pre IH]; intros seen Hpre Henc.
  - cbn [app]. rewrite replaceAll_scan_miss.
    + rewrite replaceAll_scan_plain by assumption. reflexivity.
    + cbn [is_prefix]. destruct (N.eqb q dollar) eqn:E; [|reflexivity].
      apply N.eqb_eq in E. contradiction.
  - cbn [app]. rewrite replaceAll_scan_miss.
    + rewrite IH; [reflexivity| |].
      * intros Hin. apply Hpre. right. exact Hin.
      * intros (pre' & post' & E1 & E2). apply Henc.
        exists (c :: pre'), post'. rewrite E1. split; [reflexivity|exact E2].
    + cbn [is_prefix]. destruct (N.eqb q c) eqn:Eqc; [|reflexivity].
      cbn [andb]. apply N.eqb_eq in Eqc. subst c.
      destruct pre as [|c' pre'].
      * cbn [app is_prefix]. rewrite N.eqb_refl. cbn [andb].
        rewrite is_prefix_app_same.
        destruct post as [|d post']; [reflexivity|].
        cbn [is_prefix]. destruct (N.eqb q d) eqn:Eqd; [|reflexivity].
        apply N.eqb_eq in Eqd. subst d. exfalso. apply Henc.
        exists [], post'. split; reflexivity.
      * cbn [app is_prefix]. destruct (N.eqb dollar c') eqn:E; [|reflexivity].
        apply N.eqb_eq in E. exfalso. apply Hpre. right. left. symmetry.
        exact E.
Qed.

Ltac split_in H :=
  match type of H with
  | In _ (_ ++ _) =>
      apply in_app_or in H; destruct H as [H|H]; [split_in H|split_in H]
  | _ => idtac
  end.

(** Solves [~ In dollar s] for a text made of pieces known to be free of
    dollar signs and of literals. *)
Ltac no_dollar :=
  let H := fresh "Hin" in
  intros H; split_in H; try contradiction;
  try (cbv in H; intuition discriminate).

Section Placeholders.
Context {RT : JSRuntime}.

Lemma resolveKey_scalar : forall result key s,
  resolveKey result (key, JStr s) = replaceAll (dollar :: key) s result.
Proof. reflexivity. Qed.

Lemma resolveKey_composite : forall result key (v : value),
  typeof_object v = true ->
  resolveKey result (key, v) =
  replaceAll (dollar :: key) (stringify v)
    (replaceAll (squote :: dollar :: key ++ [squote]) (stringify v)
       (replaceAll (dquote :: dollar :: key ++ [dquote]) (stringify v) result)).
Proof. intros result key v H. unfold resolveKey. rewrite H. reflexivity. Qed.

(** C2 (as the code has it).  A placeholder is replaced as plain text,
    wherever that text occurs and without regard to what follows it, one key
    after the other in the order of the keys of the variable object.  In a
    template that contains [$modelName] and then [$model] (all other text
    and both values free of dollar signs): when [modelName] precedes [model]
    among the keys, each placeholder receives its own value; when [model]
    comes first, [$modelName] becomes the value of [model] followed by
    [Name]. *)
Theorem placeholders_replaced_as_text : forall a b c v w : str,
  ~ In dollar a -> ~ In dollar b -> ~ In dollar c ->
  ~ In dollar v -> ~ In dollar w ->
  is_prefix (lit "Name") c = false ->
  let template := a ++ lit "$modelName" ++ b ++ lit "$model" ++ c in
  resolveTemplate template [(lit "modelName", JStr w); (lit "model", JStr v)]
  = a ++ w ++ b ++ v ++ c
  /\ resolveTemplate template [(lit "model", JStr v); (lit "modelName", JStr w)]
     = a ++ v ++ lit "Name" ++ b ++ v ++ c.
Proof.
  intros a b c v w Ha Hb Hc Hv Hw Hname template.
  assert (Hmodel : ~ In dollar (lit "model")) by no_dollar.
  assert (HName : ~ In dollar (lit "Name")) by no_dollar.
  unfold resolveTemplate. cbn [fold_left]. rewrite !resolveKey_scalar.
  rewrite !replaceAll_as_scan by discriminate. unfold template.
  change (lit "$modelName") with ((dollar :: lit "model") ++ lit "Name").
  change (lit "$model") with (dollar :: lit "model").
  change (dollar :: lit "modelName") with ((dollar :: lit "model") ++ lit "Name").
  split.
  - (* modelName first *)
    assert (E1 : forall seen,
      replaceAll_scan ((dollar :: lit "model") ++ lit "Name") w seen 0
        (a ++ ((dollar :: lit "model") ++ lit "Name") ++ b
           ++ (dollar :: lit "model") ++ c)
      = a ++ w ++ b ++ (dollar :: lit "model") ++ c).
    { intros seen.
      change ((dollar :: lit "model") ++ lit "Name")
        with (dollar :: lit "model" ++ lit "Name") at 1.
      rewrite replaceAll_scan_bare_prefix by exact Ha.
      change (dollar :: lit "model" ++ lit "Name")
        with ((dollar :: lit "model") ++ lit "Name") at 1.
      rewrite replaceAll_scan_match by discriminate.
      rewrite getSubstitution_plain by exact Hw.
      change ((dollar :: lit "model") ++ lit "Name")
        with (dollar :: lit "model" ++ lit "Name") at 1.
      rewrite replaceAll_scan_bare_prefix by exact Hb.
      change (dollar :: lit "model" ++ lit "Name")
        with ((dollar :: lit "model") ++ lit "Name") at 1.
      change ((dollar :: lit "model") ++ c) with (dollar :: (lit "model" ++ c)).
      rewrite replaceAll_scan_miss.
      - rewrite replaceAll_scan_plain; [reflexivity|left; reflexivity|no_dollar].
      - change (dollar :: (lit "model" ++ c)) with ((dollar :: lit "model") ++ c).
        rewrite is_prefix_app_same. exact Hname. }
    rewrite E1.
    rewrite (app_assoc a), (app_assoc (a ++ w)).
    rewrite replaceAll_scan_bare_prefix by no_dollar.
    rewrite replaceAll_scan_match by discriminate.
    rewrite getSubstitution_plain by exact Hv.
    rewrite replaceAll_scan_plain; [|left; reflexivity|exact Hc].
    rewrite <- !app_assoc. reflexivity.
  - (* model first *)
    assert (E1 : forall seen,
      replaceAll_scan (dollar :: lit "model") v seen 0
        (a ++ ((dollar :: lit "model") ++ lit "Name") ++ b
           ++ (dollar :: lit "model") ++ c)
      = a ++ v ++ lit "Name" ++ b ++ v ++ c).
    { intros seen.
      rewrite replaceAll_scan_bare_prefix by exact Ha.
      rewrite <- (app_assoc (dollar :: lit "model")).
      rewrite replaceAll_scan_match by discriminate.
      rewrite getSubstitution_plain by exact Hv.
      rewrite (app_assoc (lit "Name")).
      rewrite replaceAll_scan_bare_prefix by no_dollar.
      rewrite replaceAll_scan_match by discriminate.
      rewrite getSubstitution_plain by exact Hv.
      rewrite replaceAll_scan_plain; [|left; reflexivity|exact Hc].
      rewrite <- !app_assoc. reflexivity. }
    rewrite E1.
    apply replaceAll_scan_plain; [left; reflexivity|no_dollar].
Qed.

End Placeholders.

(** The two orders of the keys on the template [$modelName uses $model.]. *)
Lemma placeholders_replaced_as_text_witness :
  let template := lit "$modelName uses $model." in
  resolveTemplate (RT := ReferenceRuntime) template
    [(lit "modelName", JStr (lit "gpt")); (lit "model", JStr (lit "m1"))]
  = lit "gpt uses m1."
  /\ resolveTemplate (RT := ReferenceRuntime) template
       [(lit "model", JStr (lit "m1")); (lit "modelName", JStr (lit "gpt"))]
     = lit "m1Name uses m1.".
Proof.
  refine (@placeholders_replaced_as_text ReferenceRuntime
            [] (lit " uses ") (lit ".") (lit "m1") (lit "gpt") _ _ _ _ _ _);
    try no_dollar.
  reflexivity.
Defined.

(** The claim as stated fails: with the keys [model] and [modelName] in
    this order and distinct values, the occurrence of [$modelName] is
    rewritten by the substitution for [$model]. *)
Lemma placeholder_boundary_counterexample :
  resolveTemplate (RT := ReferenceRuntime) (lit "$model $modelName")
    [(lit "model", JStr (lit "m1")); (lit "modelName", JStr (lit "gpt"))]
  = lit "m1 m1Name"
  /\ resolveTemplate (RT := ReferenceRuntime) (lit "$model $modelName")
       [(lit "model", JStr (lit "m1")); (lit "modelName", JStr (lit "gpt"))]
     <> lit "m1 gpt".
Proof. split; [reflexivity|discriminate]. Qed.

Section CompositeValues.
Context {RT : JSRuntime}.

(** X4.  Where the three quoting forms do agree: for a composite value
    whose serialization has no dollar sign, in a template whose other text
    has none, the double-quoted and the single-quoted placeholder are
    replaced, quotes included, by the serialization, and so is the bare
    placeholder unless it stands between two quotes of the same kind. *)
Lemma composite_forms_agree_without_dollar :
  forall (key : str) (v : value) (pre post : str),
  typeof_object v = true ->
  ~ In dollar key -> ~ In dollar pre -> ~ In dollar post ->
  ~ In dollar (stringify v) ->
  resolveTemplate (pre ++ (dquote :: dollar :: key ++ [dquote]) ++ post)
    [(key, v)] = pre ++ stringify v ++ post
  /\ resolveTemplate (pre ++ (squote :: dollar :: key ++ [squote]) ++ post)
       [(key, v)] = pre ++ stringify v ++ post
  /\ (~ enclosed dquote pre post -> ~ enclosed squote pre post ->
      resolveTemplate (pre ++ (dollar :: key) ++ post) [(key, v)]
      = pre ++ stringify v ++ post).
Proof.
  intros key v pre post Hobj Hkey Hpre Hpost Hjson.
  unfold resolveTemplate. cbn [fold_left].
  rewrite !(resolveKey_composite _ _ _ Hobj).
  rewrite !replaceAll_as_scan by discriminate.
  assert (Hout : ~ In dollar (pre ++ stringify v ++ post)) by no_dollar.
  assert (Hdq : In dollar (dquote :: dollar :: key ++ [dquote]))
    by (right; left; reflexivity).
  assert (Hsq : In dollar (squote :: dollar :: key ++ [squote]))
    by (right; left; reflexivity).
  assert (Hbare : In dollar (dollar :: key)) by (left; reflexivity).
  split; [|split].
  - (* double-quoted *)
    rewrite replaceAll_scan_quoted_prefix;
      [|exact Hpre|intros s' E; discriminate E].
    rewrite replaceAll_scan_match by discriminate.
    rewrite getSubstitution_plain by exact Hjson.
    rewrite (@replaceAll_scan_plain _ _ _ _ Hdq Hpost).
    rewrite (@replaceAll_scan_plain _ _ _ _ Hsq Hout).
    apply (@replaceAll_scan_plain _ _ _ _ Hbare Hout).
  - (* single-quoted: the pass for the double-quoted form changes nothing *)
    assert (E1 : forall seen,
      replaceAll_scan (dquote :: dollar :: key ++ [dquote]) (stringify v)
        seen 0 (pre ++ (squote :: dollar :: key ++ [squote]) ++ post)
      = pre ++ (squote :: dollar :: key ++ [squote]) ++ post).
    { intros seen.
      rewrite replaceAll_scan_quoted_prefix;
        [|exact Hpre|intros s' E; discriminate E].
      cbn [app].
      rewrite replaceAll_scan_miss by reflexivity.
      rewrite replaceAll_scan_miss by reflexivity.
      rewrite replaceAll_scan_plain;
        [reflexivity|right; left; reflexivity|no_dollar]. }
    rewrite E1.
    rewrite replaceAll_scan_quoted_prefix;
      [|exact Hpre|intros s' E; discriminate E].
    rewrite replaceAll_scan_match by discriminate.
    rewrite getSubstitution_plain by exact Hjson.
    rewrite (@replaceAll_scan_plain _ _ _ _ Hsq Hpost).
    apply (@replaceAll_scan_plain _ _ _ _ Hbare Hout).
  - (* bare *)
    intros Hnd Hns.
    change (pre ++ (dollar :: key) ++ post)
      with (pre ++ dollar :: key ++ post).
    rewrite replaceAll_scan_quoted_bare;
      [|discriminate|exact Hkey|exact Hpost|exact Hpre|exact Hnd].
    rewrite replaceAll_scan_quoted_bare;
      [|discriminate|exact Hkey|exact Hpost|exact Hpre|exact Hns].
    rewrite replaceAll_scan_bare_prefix by exact Hpre.
    change (dollar :: key ++ post) with ((dollar :: key) ++ post).
    rewrite replaceAll_scan_match by discriminate.
    rewrite getSubstitution_plain by exact Hjson.
    rewrite (@replaceAll_scan_plain _ _ _ _ Hbare Hpost). reflexivity.
Qed.

End CompositeValues.

(** Scenario A of the specification: the body template with a quoted
    [$model] and a bare [$messages]. *)
Lemma scenario_A_resolves :
  resolveTemplate (RT := ReferenceRuntime)
    (qlit "{~model~:~$model~,~messages~:$messages}")
    [(lit "model", JStr (lit "m1"));
     (lit "messages", JArr [chat_message (lit "user") (lit "hi")])]
  = qlit "{~model~:~m1~,~messages~:[{~role~:~user~,~content~:~hi~}]}".
Proof. reflexivity. Qed.

(** C3 at its failing inputs.  The serialization of a composite value is
    handed to [replace] as a replacement string, in which a dollar sign
    followed by a dollar sign, an ampersand, a backtick or a quote is a
    pattern, and the three passes run one after the other on the result of
    the previous one.  A value that contains [$$] is inserted with a single
    dollar sign, so the output is not its serialization; a value that
    contains [$&] is inserted with the matched text in its place, which
    differs between the bare and the double-quoted form of the placeholder;
    a value that contains the placeholder itself is inserted once for the
    bare form and twice, nested, for the double-quoted form. *)
Theorem composite_substitution_dollar_patterns :
  let doubled : json numeral := JArr [JStr (lit "$$")] in
  let matched : json numeral := JArr [JStr (lit "$&")] in
  let nested : json numeral := JArr [JStr (lit "$x")] in
  stringify doubled = qlit "[~$$~]"
  /\ resolveTemplate (lit "$x") [(lit "x", doubled)] = qlit "[~$~]"
  /\ resolveTemplate (lit "$x") [(lit "x", matched)] = qlit "[~$x~]"
  /\ resolveTemplate (qlit "~$x~") [(lit "x", matched)] = qlit "[~~[~$x~]~~]"
  /\ resolveTemplate (lit "$x") [(lit "x", nested)] = qlit "[~$x~]"
  /\ resolveTemplate (qlit "~$x~") [(lit "x", nested)] = qlit "[~[~$x~]~]".
Proof.
  repeat split; reflexivity.
Qed.

(** The same defect reached through the adapter: with the default
    templates, a user prompt that mentions [$&] makes the resolved body
    invalid, and the call fails before any request; without these two
    characters the request is issued, and fails only because the network of
    this world is down. *)
Lemma custom_call_dollar_pattern_in_prompt :
  let settings :=
    MkSettings (lit "custom") (lit "key") (lit "m1")
      (lit "http://localhost:1234/v1") (lit "en") false [] None [] in
  callCustomLLM offline_world settings (lit "what does $& mean?")
    (lit "be brief") true
  = ([], Throw (JsError (lit "Invalid Body Template JSON")))
  /\ map (fun e => match e with Fetched url _ => url | _ => [] end)
       (fst (callCustomLLM offline_world settings (lit "what does it mean?")
               (lit "be brief") true))
     = [lit "http://localhost:1234/v1/chat/completions"]
  /\ snd (callCustomLLM offline_world settings (lit "what does it mean?")
            (lit "be brief") true)
     = Throw (JsError (lit "Failed to fetch")).
Proof.
  intros settings. split; [|split]; by_evaluation.
Qed.

(** ** Templates are checked before the request is sent (C4) *)

Section TemplateCheck.
Context {RT : JSRuntime}.

Lemma json_parse_some : forall s v, JSON_parse s = Some v -> json_parse s = ret v.
Proof. intros s v H. unfold json_parse. rewrite H. reflexivity. Qed.

Lemma json_parse_none : forall s,
  JSON_parse s = None -> json_parse s = throw (syntax_error_message s).
Proof. intros s H. unfold json_parse. rewrite H. reflexivity. Qed.

(** C4.  With a base URL configured, the headers template and the body
    template are resolved and parsed, in this order, before [fetch] is
    called.  If the resolved headers do not parse, the call fails with the
    error [Invalid Headers Configuration]; if they parse and the resolved
    body does not, it fails with the different error
    [Invalid Body Template JSON].  In both cases nothing has been observed
    from outside: no request, no delta.  More generally a request appears
    among the events of a call only if both resolved templates parsed. *)
Theorem custom_templates_parse_before_request :
  forall (w : World) (settings : AppSettings) (prompt systemInstruction : str)
         (onStream : bool),
  baseUrl settings <> [] ->
  let variables := templateVariables settings prompt systemInstruction in
  let headersStr := resolveTemplate (headers (mergedConfig settings)) variables in
  let bodyStr := resolveTemplate (body (mergedConfig settings)) variables in
  (JSON_parse headersStr = None ->
   callCustomLLM w settings prompt systemInstruction onStream
   = ([], Throw (JsError (lit "Invalid Headers Configuration"))))
  /\ (JSON_parse headersStr <> None -> JSON_parse bodyStr = None ->
      callCustomLLM w settings prompt systemInstruction onStream
      = ([], Throw (JsError (lit "Invalid Body Template JSON"))))
  /\ lit "Invalid Headers Configuration" <> lit "Invalid Body Template JSON"
  /\ (forall url init,
        In (Fetched url init)
           (fst (callCustomLLM w settings prompt systemInstruction onStream)) ->
        JSON_parse headersStr <> None /\ JSON_parse bodyStr <> None).
Proof.
  intros w settings prompt systemInstruction onStream Hbase.
  intros variables headersStr bodyStr.
  assert (Eb : str_eqb (baseUrl settings) [] = false)
    by (apply str_eqb_neq; exact Hbase).
  unfold callCustomLLM. rewrite Eb.
  fold variables. fold headersStr. fold bodyStr.
  split; [|split; [|split]].
  - intros Hh. rewrite (json_parse_none _ Hh). reflexivity.
  - intros Hh Hb. destruct (JSON_parse headersStr) as [hv|] eqn:Eh;
      [|contradiction].
    rewrite (json_parse_some _ Eh), (json_parse_none _ Hb). reflexivity.
  - discriminate.
  - intros url init Hin.
    destruct (JSON_parse headersStr) as [hv|] eqn:Eh.
    + destruct (JSON_parse bodyStr) as [bv|] eqn:Ebody.
      * split; discriminate.
      * rewrite (json_parse_some _ Eh), (json_parse_none _ Ebody) in Hin.
        destruct Hin.
    + rewrite (json_parse_none _ Eh) in Hin. destruct Hin.
Qed.

End TemplateCheck.

(** A custom profile whose headers template is not JSON fails at the
    headers, and one whose body template is not JSON fails at the body, both
    before any request. *)
Lemma custom_templates_parse_before_request_witness :
  callCustomLLM offline_world
    (custom_profile (lit "http://localhost:1234/v1")
       (lit "{Authorization: Bearer $apiKey") [])
    (lit "hi") (lit "be brief") true
  = ([], Throw (JsError (lit "Invalid Headers Configuration")))
  /\ callCustomLLM offline_world
       (custom_profile (lit "http://localhost:1234/v1") []
          (qlit "{~model~:~$model~,~prompt~:$prompt}"))
       (lit "hi") (lit "be brief") true
     = ([], Throw (JsError (lit "Invalid Body Template JSON"))).
Proof.
  split.
  - refine (proj1 (@custom_templates_parse_before_request ReferenceRuntime
                     offline_world _ (lit "hi") (lit "be brief") true _) _).
    + discriminate.
    + vm_compute. reflexivity.
  - refine (proj1 (proj2 (@custom_templates_parse_before_request
                     ReferenceRuntime offline_world _ (lit "hi")
                     (lit "be brief") true _)) _ _).
    + discriminate.
    + vm_compute. discriminate.
    + vm_compute. reflexivity.
Defined.

(** ** The reply text of the custom-API adapter (C6) *)

Section ReplyText.
Context {RT : JSRuntime}.

Lemma stringify_nonempty : forall v : value, stringify v <> [].
Proof.
  intros [| [|] | n | s | l | kvs]; cbn [stringify]; try discriminate.
  destruct (number_finite n); [apply number_to_string_nonempty|discriminate].
Qed.

Lemma value_or_truthy : forall (a : option value) (b : value),
  truthy b = true -> truthy (value_or a b) = true.
Proof.
  intros [x|] b H; cbn [value_or]; [|exact H].
  destruct (truthy x) eqn:E; [exact E|exact H].
Qed.

Lemma truthy_serialized : forall data : value,
  truthy (JStr (stringify data)) = true.
Proof.
  intros data. cbn [truthy]. apply negb_true_iff, str_eqb_neq.
  apply stringify_nonempty.
Qed.

(** A falsy [choices] has no truthy first element. *)
Lemma falsy_has_no_first : forall choices : option value,
  truthy_opt choices = false ->
  truthy_opt (getOpt choices (lit "0")) = false.
Proof.
  intros [[| b | n | s | l | kvs]|]; cbn [truthy_opt truthy getOpt getProp];
    try reflexivity; try discriminate.
  intros H. apply negb_false_iff, str_eqb_eq in H. subst s. reflexivity.
Qed.

(** The final fallback of lines 868-870. *)
Lemma extractReplyText_from : forall data : value,
  data <> JNull ->
  extractReplyText data =
  Normal (value_or (selectReplyFrom data) (JStr (stringify data))).
Proof.
  intros data H. unfold extractReplyText.
  assert (E : selectReply data = Normal (selectReplyFrom data))
    by (destruct data; [contradiction|reflexivity..]).
  rewrite E. destruct (selectReplyFrom data) as [v|]; [|reflexivity].
  cbn [value_or]. destruct (truthy v); reflexivity.
Qed.

(** C6 (as the code has it).  For a response body that is not [null]: when
    [choices[0]] is truthy the reply is [choices[0].message.content] if
    [message] is truthy and [choices[0].text] otherwise; only when
    [choices[0]] is absent or falsy is it the flat [content] field, then the
    flat [response] field; whenever the value so selected is falsy the
    serialized response is returned instead.  Hence the returned text is
    never the empty string; and the response with the single field
    [content] set to [ok] yields [ok]. *)
Theorem reply_text_nested_priority : forall data : value,
  data <> JNull ->
  (exists text,
     extractReplyText data = Normal text
     /\ text <> JStr []
     /\ let choice0 := getOpt (getProp data (lit "choices")) (lit "0") in
        let fallback := JStr (stringify data) in
        (truthy_opt choice0 = true ->
         truthy_opt (getOpt choice0 (lit "message")) = true ->
         text = value_or (getOpt (getOpt choice0 (lit "message")) (lit "content"))
                  fallback)
        /\ (truthy_opt choice0 = true ->
            truthy_opt (getOpt choice0 (lit "message")) = false ->
            text = value_or (getOpt choice0 (lit "text")) fallback)
        /\ (truthy_opt choice0 = false ->
            text = value_or (getProp data (lit "content"))
                     (value_or (getProp data (lit "response")) fallback)))
  /\ extractReplyText (JObj [(lit "content", JStr (lit "ok"))])
     = Normal (JStr (lit "ok")).
Proof.
  intros data Hnull. split; [|reflexivity].
  exists (value_or (selectReplyFrom data) (JStr (stringify data))).
  split; [apply extractReplyText_from; exact Hnull|]. split.
  - intros E.
    pose proof (@value_or_truthy (selectReplyFrom data) _
                  (truthy_serialized data)) as T.
    rewrite E in T. discriminate T.
  - cbv zeta. unfold selectReplyFrom.
    set (choices := getProp data (lit "choices")).
    destruct (truthy_opt choices) eqn:Ec.
    + cbn [andb].
      set (choice0 := getOpt choices (lit "0")).
      destruct (truthy_opt choice0) eqn:E0.
      * split; [|split]; [| |discriminate].
        -- intros _ Em. rewrite Em. reflexivity.
        -- intros _ Em. rewrite Em.
           destruct (getOpt choice0 (lit "text")) as [x|] eqn:Et;
             cbn [truthy_opt value_or]; [|reflexivity].
           destruct (truthy x) eqn:Ex; cbn [value_or]; rewrite ?Ex; reflexivity.
      * split; [discriminate|]. split; [discriminate|]. intros _.
        destruct (getProp data (lit "content")) as [x|];
          cbn [truthy_opt value_or].
        -- destruct (truthy x) eqn:Ex; cbn [value_or]; rewrite ?Ex;
             [reflexivity|].
           destruct (getProp data (lit "response")) as [y|];
             cbn [truthy_opt value_or]; [|reflexivity].
           destruct (truthy y) eqn:Ey; cbn [value_or]; rewrite ?Ey; reflexivity.
        -- destruct (getProp data (lit "response")) as [y|];
             cbn [truthy_opt value_or]; [|reflexivity].
           destruct (truthy y) eqn:Ey; cbn [value_or]; rewrite ?Ey; reflexivity.
    + cbn [andb]. rewrite (falsy_has_no_first choices Ec).
      split; [discriminate|]. split; [discriminate|]. intros _.
      destruct (getProp data (lit "content")) as [x|];
        cbn [truthy_opt value_or].
      * destruct (truthy x) eqn:Ex; cbn [value_or]; rewrite ?Ex;
          [reflexivity|].
        destruct (getProp data (lit "response")) as [y|];
          cbn [truthy_opt value_or]; [|reflexivity].
        destruct (truthy y) eqn:Ey; cbn [value_or]; rewrite ?Ey; reflexivity.
      * destruct (getProp data (lit "response")) as [y|];
          cbn [truthy_opt value_or]; [|reflexivity].
        destruct (truthy y) eqn:Ey; cbn [value_or]; rewrite ?Ey; reflexivity.
Qed.

End ReplyText.

(** The nested priority applied to the response with a [content] field and
    nothing else. *)
Lemma reply_text_nested_priority_witness :
  JObj [(lit "content", JStr (lit "ok"))] <> (JNull : json numeral)
  /\ exists text,
       extractReplyText (JObj [(lit "content", JStr (lit "ok"))]) = Normal text
       /\ text <> JStr [].
Proof.
  assert (H : JObj [(lit "content", JStr (lit "ok"))] <> (JNull : json numeral))
    by discriminate.
  split; [exact H|].
  destruct (proj1 (reply_text_nested_priority (RT := ReferenceRuntime) H))
    as (text & E & Hne & _).
  exists text. split; [exact E|exact Hne].
Defined.

(** The claim as stated fails: a response whose [choices[0]] is an empty
    object and which has a flat [content] field yields the serialized
    response, not the [content] field that the priority list selects. *)
Lemma reply_text_priority_counterexample :
  let data : json numeral :=
    JObj [(lit "choices", JArr [JObj []]); (lit "content", JStr (lit "ok"))] in
  extractReplyText data = Normal (JStr (qlit "{~choices~:[{}],~content~:~ok~}"))
  /\ priorityReplyText data = JStr (lit "ok")
  /\ extractReplyText data <> Normal (priorityReplyText data).
Proof.
  split; [reflexivity|]. split; [reflexivity|]. discriminate.
Qed.

(** ** De-duplication of the grounding sources (C7) *)

Lemma existsb_str_eqb_In : forall k l, existsb (str_eqb k) l = true <-> In k l.
Proof.
  intros k l. rewrite existsb_exists. split.
  - intros (x & Hin & E). apply str_eqb_eq in E. subst. exact Hin.
  - intros Hin. exists k. split; [exact Hin|apply str_eqb_refl].
Qed.

Section Assoc.
Variable V : Type.

Lemma assoc_set_keys : forall (k : str) (v : V) (m : list (str * V)),
  map fst (assoc_set k v m) =
  if existsb (str_eqb k) (map fst m) then map fst m else map fst m ++ [k].
Proof.
  intros k v. induction m as [|[k' v'] m IH]; [reflexivity|].
  cbn [assoc_set map fst existsb].
  destruct (str_eqb k k') eqn:E.
  - apply str_eqb_eq in E. subst. reflexivity.
  - cbn [orb map fst]. rewrite IH.
    destruct (existsb (str_eqb k) (map fst m)); reflexivity.
Qed.

Lemma assoc_set_NoDup : forall (k : str) (v : V) (m : list (str * V)),
  NoDup (map fst m) -> NoDup (map fst (assoc_set k v m)).
Proof.
  intros k v m H. rewrite assoc_set_keys.
  destruct (existsb (str_eqb k) (map fst m)) eqn:E; [exact H|].
  apply NoDup_app; [exact H|repeat constructor; simpl; tauto|].
  intros x Hx [Hk|[]]. subst x.
  apply existsb_str_eqb_In in Hx. congruence.
Qed.

(** After a [set], an entry is either the one just written or an older
    entry under another key. *)
Lemma assoc_set_In : forall (k : str) (v : V) (m : list (str * V)) k' v',
  NoDup (map fst m) ->
  In (k', v') (assoc_set k v m) ->
  (k' = k /\ v' = v) \/ (k' <> k /\ In (k', v') m).
Proof.
  intros k v. induction m as [|[k0 v0] m IH]; intros k' v' Hnd Hin.
  - destruct Hin as [E|[]]. injection E as <- <-. left. tauto.
  - cbn [assoc_set] in Hin. cbn [map fst] in Hnd.
    apply NoDup_cons_iff in Hnd as [Hk0 Hnd].
    destruct (str_eqb k k0) eqn:E.
    + apply str_eqb_eq in E. subst k0. destruct Hin as [E|Hin].
      * injection E as <- <-. left. tauto.
      * right. split; [|right; exact Hin].
        intros ->. apply Hk0. apply (in_map fst) in Hin. exact Hin.
    + apply str_eqb_neq in E. destruct Hin as [E'|Hin].
      * injection E' as <- <-. right. split; [congruence|left; reflexivity].
      * destruct (IH k' v' Hnd Hin) as [H|[H1 H2]]; [left; exact H|].
        right. split; [exact H1|right; exact H2].
Qed.

End Assoc.

Lemma sourceMap_snoc : forall l x,
  sourceMap (l ++ [x]) = assoc_set (uri x) x (sourceMap l).
Proof. intros l x. unfold sourceMap. rewrite fold_left_app. reflexivity. Qed.

Lemma first_seen_snoc : forall l k,
  first_seen (l ++ [k]) =
  if existsb (str_eqb k) (first_seen l) then first_seen l
  else first_seen l ++ [k].
Proof. intros l k. unfold first_seen. rewrite fold_left_app. reflexivity. Qed.

Lemma lastWithUri_snoc : forall u l x,
  lastWithUri u (l ++ [x]) =
  if str_eqb (uri x) u then Some x else lastWithUri u l.
Proof.
  intros u l x. unfold lastWithUri. rewrite rev_app_distr. reflexivity.
Qed.

(** The state of the [Map] after the citations [l] have been entered. *)
Lemma sourceMap_invariant : forall l,
  NoDup (map fst (sourceMap l))
  /\ map fst (sourceMap l) = first_seen (map uri l)
  /\ (forall k s, In (k, s) (sourceMap l) ->
        uri s = k /\ lastWithUri k l = Some s).
Proof.
  induction l as [|x l (Hnd & Hkeys & Hent)] using rev_ind.
  - split; [constructor|]. split; [reflexivity|]. intros k s [].
  - rewrite sourceMap_snoc. split; [apply assoc_set_NoDup; exact Hnd|]. split.
    + rewrite assoc_set_keys, map_app. cbn [map].
      rewrite first_seen_snoc, Hkeys. reflexivity.
    + intros k s Hin. rewrite lastWithUri_snoc.
      destruct (assoc_set_In _ _ _ _ _ Hnd Hin) as [[-> ->]|[Hne Hin']].
      * rewrite str_eqb_refl. tauto.
      * destruct (Hent k s Hin') as [Hu Hl]. split; [exact Hu|].
        destruct (str_eqb (uri x) k) eqn:E; [|exact Hl].
        apply str_eqb_eq in E. congruence.
Qed.

(** C7 (as the code has it).  Whatever citations were collected, the
    returned list has exactly one entry per distinct uri, the uris appear in
    the order in which they were first seen, and each entry is the last
    citation collected for its uri, so it carries the last-seen title. *)
Theorem unique_sources_keep_last_title : forall allSources : list source,
  NoDup (map uri (uniqueSources allSources))
  /\ map uri (uniqueSources allSources) = first_seen (map uri allSources)
  /\ Forall (fun s => lastWithUri (uri s) allSources = Some s)
       (uniqueSources allSources).
Proof.
  intros l. destruct (sourceMap_invariant l) as (Hnd & Hkeys & Hent).
  assert (Huri : map uri (uniqueSources l) = map fst (sourceMap l)).
  { unfold uniqueSources. rewrite map_map.
    apply map_ext_in. intros [k s] Hin. cbn [fst snd].
    apply (Hent k s Hin). }
  split; [rewrite Huri; exact Hnd|]. split; [rewrite Huri; exact Hkeys|].
  apply Forall_forall. intros s Hs. unfold uniqueSources in Hs.
  apply in_map_iff in Hs as ([k s'] & E & Hin). cbn [snd] in E. subst s'.
  destruct (Hent k s Hin) as [Hu Hl]. rewrite Hu. exact Hl.
Qed.

(** The claim as stated fails: with two citations of one uri, the entry
    returned is not the first one seen. *)
Lemma unique_sources_first_title_counterexample :
  let allSources :=
    [MkSource (lit "https://a.example") (lit "First");
     MkSource (lit "https://a.example") (lit "Second")] in
  uniqueSources allSources
    = [MkSource (lit "https://a.example") (lit "Second")]
  /\ ~ Forall (fun s => firstWithUri (uri s) allSources = Some s)
         (uniqueSources allSources).
Proof.
  split; [reflexivity|].
  intros H. cbv in H. inversion H as [|x l Hx Hl]. discriminate Hx.
Qed.

Section GeminiAdapter.
Context {RT : JSRuntime}.

Lemma geminiChunks_collect : forall onStream chunks fullText allSources,
  exists tr fullText',
    foldM (geminiChunk onStream) (fullText, allSources) chunks =
    (tr, Normal (fullText', allSources ++ collectedSources chunks)).
Proof.
  intros onStream. induction chunks as [|c chunks IH]; intros fullText allSources.
  - eexists _, _. cbn. rewrite app_nil_r. reflexivity.
  - cbn [foldM collectedSources flat_map].
    assert (Hc : exists tr f,
               geminiChunk onStream (fullText, allSources) c =
               (tr, Normal (f, allSources ++
                  match chunk_grounding c with
                  | Some g => flat_map collectSource g
                  | None => []
                  end))).
    { unfold geminiChunk.
      destruct (chunk_text c) as [txt|];
        [destruct (str_eqb txt []); [|destruct onStream]|];
        destruct (chunk_grounding c); cbn; rewrite ?app_nil_r;
        eexists _, _; reflexivity. }
    destruct Hc as (tr1 & f1 & E1). rewrite E1, bind_normal.
    destruct (IH f1 (allSources ++
                match chunk_grounding c with
                | Some g => flat_map collectSource g
                | None => []
                end)) as (tr2 & f2 & E2).
    rewrite E2. cbn [fst snd]. rewrite <- app_assoc.
    eexists _, _. reflexivity.
Qed.

(** X7.  The sources returned by a successful call are the de-duplicated
    citations of the chunks that the SDK streamed. *)
Lemma callGoogleGemini_sources :
  forall w settings prompt systemInstruction onStream tr text sources,
  callGoogleGemini w settings prompt systemInstruction onStream
    = (tr, Normal (text, sources)) ->
  exists request chunks,
    generateContentStream w request = Normal (chunks, None)
    /\ sources = uniqueSources (collectedSources chunks).
Proof.
  intros w settings prompt systemInstruction onStream tr text sources H.
  unfold callGoogleGemini in H.
  destruct (str_eqb _ []); [discriminate|].
  match type of H with
  | context [generateContentStream w ?r] =>
      exists r; destruct (generateContentStream w r) as [[chunks failure]|e]
  end; [|discriminate].
  unfold lift in H. rewrite bind_normal in H. cbn [fst snd app] in H.
  match type of H with
  | context [foldM ?f ?a ?l] =>
      assert (E1 : exists tr1 f1,
                 foldM f a l = (tr1, Normal (f1, collectedSources chunks)))
        by exact (geminiChunks_collect onStream chunks [] [])
  end.
  destruct E1 as (tr1 & f1 & E1).
  rewrite E1, bind_normal in H. cbn [fst snd app] in H.
  destruct failure as [e|]; [discriminate|].
  cbn in H. injection H as _ _ <-. exists chunks. tauto.
Qed.

End GeminiAdapter.

(** ** The read loop of the orchestration stream (C1) *)

Lemma last_app_nonempty : forall (A : Type) (l l' : list A) (d : A),
  l' <> [] -> last (l ++ l') d = last l' d.
Proof.
  induction l as [|x l IH]; intros l' d H; [reflexivity|].
  cbn [app last]. destruct (l ++ l') eqn:E.
  - apply app_eq_nil in E. tauto.
  - rewrite <- E. apply IH. exact H.
Qed.

Lemma split_nonempty : forall sep s, split sep s <> [].
Proof.
  intros sep [|c s]; simpl; [discriminate|].
  destruct (N.eqb c sep); [discriminate|].
  destruct (split sep s); discriminate.
Qed.

Lemma split_cons : forall sep c s,
  split sep (c :: s) =
  if N.eqb c sep then [] :: split sep s
  else (c :: hd [] (split sep s)) :: tl (split sep s).
Proof.
  intros sep c s. simpl. destruct (N.eqb c sep); [reflexivity|].
  destruct (split sep s) eqn:E; [|reflexivity].
  exfalso. exact (split_nonempty sep s E).
Qed.

(** Splitting a text received in two parts: the complete lines of the first
    part, then the split of its unfinished last line followed by the second
    part. *)
Lemma split_app : forall sep x y,
  split sep (x ++ y) =
  removelast (split sep x) ++ split sep (last (split sep x) [] ++ y).
Proof.
  intros sep. induction x as [|c x IH]; intros y.
  - reflexivity.
  - cbn [app]. rewrite !split_cons. destruct (N.eqb c sep) eqn:Ec.
    + pose proof (split_nonempty sep x) as Hne.
      destruct (split sep x) as [|p ps] eqn:Ex; [contradiction|].
      rewrite IH. reflexivity.
    + rewrite IH. pose proof (split_nonempty sep x) as Hne.
      destruct (split sep x) as [|p [|q ps]] eqn:Ex; [contradiction| |].
      * cbn [removelast last hd tl app]. rewrite split_cons, Ec.
        reflexivity.
      * cbn [hd tl]. remember (q :: ps) as rest eqn:Er.
        assert (Hrest : rest <> []) by (subst; discriminate).
        cbn [removelast last]. destruct rest as [|q' ps']; [contradiction|].
        cbn [app hd tl]. reflexivity.
Qed.

Lemma last_split_no_sep : forall sep s, ~ In sep (last (split sep s) []).
Proof.
  intros sep. induction s as [|c s IH].
  - simpl. tauto.
  - rewrite split_cons. destruct (N.eqb c sep) eqn:Ec.
    + pose proof (split_nonempty sep s) as Hne.
      destruct (split sep s) as [|p ps]; [contradiction|]. exact IH.
    + pose proof (split_nonempty sep s) as Hne.
      destruct (split sep s) as [|p [|q ps]]; [contradiction| |].
      * cbn [hd tl last] in *. intros [H|H]; [|tauto].
        subst. rewrite N.eqb_refl in Ec. discriminate.
      * exact IH.
Qed.

Lemma split_no_sep : forall sep s, ~ In sep s -> split sep s = [s].
Proof.
  intros sep. induction s as [|c s IH]; intros H.
  - reflexivity.
  - rewrite split_cons. destruct (N.eqb c sep) eqn:Ec.
    + apply N.eqb_eq in Ec. subst. exfalso. apply H. left. reflexivity.
    + rewrite IH by (intros Hin; apply H; right; exact Hin). reflexivity.
Qed.

Lemma decode_app : forall a b st,
  decode st (a ++ b) =
  (fst (decode (fst (decode st a)) b),
   snd (decode st a) ++ snd (decode (fst (decode st a)) b)).
Proof.
  induction a as [|x a IH]; intros b st.
  - cbn [app decode fst snd]. destruct (decode st b). reflexivity.
  - cbn [app decode]. destruct (decode_step st x) as [st1 out1].
    rewrite IH. destruct (decode st1 a) as [st2 out2]. cbn [fst snd].
    rewrite app_assoc. reflexivity.
Qed.

Section ReadLoop.
Context {RT : JSRuntime}.
Variables onStream onStatus : bool.

(** A line never makes the loop fail: a malformed event is skipped. *)
Lemma sseLine_normal : forall fullText line,
  exists tr fullText',
    sseLine onStream onStatus fullText line = (tr, Normal fullText').
Proof.
  intros fullText line. unfold sseLine.
  destruct (is_prefix (lit "data: ") (trim line)); [|eexists _, _; reflexivity].
  destruct (str_eqb _ (lit "[DONE]")); [eexists _, _; reflexivity|].
  unfold try_catch.
  destruct (bind _ _) as [tr [a|e]]; eexists _, _; cbn; reflexivity.
Qed.

Lemma foldM_sseLine_normal : forall lines fullText,
  exists tr fullText',
    foldM (sseLine onStream onStatus) fullText lines = (tr, Normal fullText').
Proof.
  induction lines as [|line lines IH]; intros fullText.
  - eexists _, _. reflexivity.
  - cbn [foldM].
    destruct (sseLine_normal fullText line) as (tr1 & f1 & E1). rewrite E1.
    destruct (IH f1) as (tr2 & f2 & E2). rewrite bind_normal, E2.
    eexists _, _. reflexivity.
Qed.

Lemma readChunk_normal : forall st value,
  exists tr st',
    readChunk onStream onStatus st value = (tr, Normal st')
    /\ ~ In newline (rs_buffer st').
Proof.
  intros st value. unfold readChunk.
  destruct (decode (rs_decoder st) value) as [dec text].
  destruct (foldM_sseLine_normal
              (removelast (split newline (rs_buffer st ++ text)))
              (rs_fullText st)) as (tr & f & E).
  rewrite E, bind_normal. cbn [ret fst snd rs_buffer].
  eexists _, _. split; [reflexivity|].
  rewrite or_else_nil. apply last_split_no_sep.
Qed.

(** A read that delivers nothing changes nothing. *)
Lemma readChunk_nil : forall st,
  ~ In newline (rs_buffer st) -> readChunk onStream onStatus st [] = ret st.
Proof.
  intros [dec buffer fullText] H. cbn [rs_buffer] in H.
  unfold readChunk. cbn [decode rs_decoder rs_buffer rs_fullText].
  rewrite app_nil_r, (split_no_sep _ _ H).
  cbn [removelast last foldM]. rewrite bind_ret_l, or_else_nil. reflexivity.
Qed.

(** Two successive reads act as one read of the two chunks put together:
    the unfinished line left by the first is completed by the second. *)
Lemma readChunk_app : forall st a b,
  readChunk onStream onStatus st (a ++ b) =
  bind (readChunk onStream onStatus st a)
       (fun st' => readChunk onStream onStatus st' b).
Proof.
  intros [dec buffer fullText] a b.
  unfold readChunk. cbn [rs_decoder rs_buffer rs_fullText].
  rewrite decode_app.
  destruct (decode dec a) as [dec1 text1]. cbn [fst snd].
  destruct (decode dec1 b) as [dec2 text2] eqn:E2.
  rewrite bind_assoc.
  rewrite app_assoc, split_app.
  pose proof (split_nonempty newline
                (last (split newline (buffer ++ text1)) [] ++ text2)) as Hne.
  rewrite removelast_app by exact Hne.
  rewrite foldM_app, bind_assoc.
  destruct (foldM (sseLine onStream onStatus) fullText
              (removelast (split newline (buffer ++ text1)))) as [tr [f|e]];
    [|reflexivity].
  rewrite !bind_normal. rewrite bind_ret_l.
  cbn [rs_decoder rs_buffer rs_fullText]. rewrite E2.
  rewrite (or_else_nil (last (split newline (buffer ++ text1)) [])).
  rewrite last_app_nonempty by exact Hne.
  reflexivity.
Qed.

Lemma readLoop_from : forall chunks st,
  ~ In newline (rs_buffer st) ->
  foldM (readChunk onStream onStatus) st chunks =
  readChunk onStream onStatus st (List.concat chunks).
Proof.
  induction chunks as [|c chunks IH]; intros st H.
  - cbn [foldM List.concat]. symmetry. apply readChunk_nil. exact H.
  - cbn [foldM List.concat]. rewrite readChunk_app.
    destruct (readChunk_normal st c) as (tr & st' & E & H').
    rewrite E, !bind_normal, (IH st' H'). reflexivity.
Qed.

End ReadLoop.

Section StreamAdapter.
Context {RT : JSRuntime}.

Lemma readLoop_whole : forall onStream onStatus chunks,
  readLoop onStream onStatus chunks =
  readLoop onStream onStatus [List.concat chunks].
Proof.
  intros onStream onStatus chunks. unfold readLoop.
  rewrite readLoop_from by (cbn; tauto).
  cbn [foldM]. rewrite bind_ret_r. reflexivity.
Qed.

Lemma callPythonBackendStream_whole :
  forall w settings prompt workflow sessionId errorLog onStream onStatus,
  callPythonBackendStream (whole_world w) settings prompt workflow sessionId
    errorLog onStream onStatus =
  callPythonBackendStream w settings prompt workflow sessionId errorLog
    onStream onStatus.
Proof.
  intros. unfold callPythonBackendStream.
  destruct (str_eqb (pythonBackendUrl settings) []); [reflexivity|].
  unfold do_fetch, whole_world. cbn [fetch].
  destruct (fetch w _ _) as [r|e]; [|reflexivity].
  unfold lift, emit. cbn [bind app]. unfold deliver_whole.
  cbn [resp_ok resp_status resp_statusText resp_body].
  destruct (resp_ok r); cbn [negb]; [|reflexivity].
  destruct (resp_body r) as [[chunks failure]|]; [|reflexivity].
  rewrite <- readLoop_whole. reflexivity.
Qed.

(** C1.  However the bytes of a response body are cut into chunks, also in
    the middle of a line or of a multi-byte character, the read loop of
    [callPythonBackendStream] performs the same callbacks in the same order
    and ends with the same accumulated text as when the whole body arrives in
    one chunk: the callbacks are those of the complete lines of the whole
    decoded text, each line handled once, and the unfinished last line is
    what the buffer holds.  The adapter as a whole therefore behaves the same
    in a world that delivers every body in one piece. *)
Theorem sse_chunking_invariance :
  forall (onStream onStatus : bool) (chunks : list (list Byte.byte)),
    readLoop onStream onStatus chunks =
      readLoop onStream onStatus [List.concat chunks]
    /\ readLoop onStream onStatus chunks =
       (let text := snd (decode decoder_init (List.concat chunks)) in
        bind (foldM (sseLine onStream onStatus) []
                (removelast (split newline text)))
          (fun fullText =>
             ret (MkReader (fst (decode decoder_init (List.concat chunks)))
                    (last (split newline text) []) fullText)))
    /\ (forall w settings prompt workflow sessionId errorLog,
          callPythonBackendStream (whole_world w) settings prompt workflow
            sessionId errorLog onStream onStatus =
          callPythonBackendStream w settings prompt workflow sessionId
            errorLog onStream onStatus).
Proof.
  intros onStream onStatus chunks. split; [apply readLoop_whole|]. split.
  - rewrite readLoop_whole. unfold readLoop. cbn [foldM].
    rewrite bind_ret_r. unfold readChunk, reader_init.
    cbn [rs_decoder rs_buffer rs_fullText app].
    destruct (decode decoder_init (List.concat chunks)) as [dec text].
    cbn [fst snd]. rewrite or_else_nil. reflexivity.
  - intros. apply callPythonBackendStream_whole.
Qed.

End StreamAdapter.

(** A two-byte character whose bytes arrive in different reads is decoded
    once, by the second read. *)
Lemma decode_split_character :
  decode decoder_init [Byte.xc3] = (MkDecoder 3 0 1 128 191 false, [])
  /\ decode (MkDecoder 3 0 1 128 191 false) [Byte.xa9]
     = (MkDecoder 0 0 0 128 191 true, [233%N])
  /\ decode decoder_init [Byte.xc3; Byte.xa9]
     = (MkDecoder 0 0 0 128 191 true, [233%N]).
Proof. repeat split; reflexivity. Qed.

(** Scenario B of the specification, with the payload cut in the middle of
    its first and of its second line: two deltas, and the text [Hello]. *)
Lemma scenario_B_stream :
  let payload := ascii_bytes (qlit "data: {~type~:~content~,~chunk~:~Hel~}
data: {~type~:~content~,~chunk~:~lo~}
data: [DONE]
") in
  readLoop (RT := ReferenceRuntime) true true
    [firstn 9 payload; firstn 40 (skipn 9 payload); skipn 49 payload]
  = ([Delta (JStr (lit "Hel")); Delta (JStr (lit "lo"))],
     Normal (MkReader (MkDecoder 0 0 0 128 191 true) [] (lit "Hello"))).
Proof. by_evaluation. Qed.

(** ** The extraction of the tagged regions (C5) *)

Section Extraction.
Context {RT : JSRuntime}.

Lemma guarded_parse_normal : forall (s : str) (fallback : value),
  try_catch (json_parse s) (fun _ => ret fallback)
  = ([], Normal (match JSON_parse s with Some v => v | None => fallback end)).
Proof.
  intros s fallback. unfold json_parse.
  destruct (JSON_parse s); reflexivity.
Qed.

Lemma extractWorkflow_normal : forall text,
  exists updated, extractWorkflow text = ([], Normal updated).
Proof.
  intros text. unfold extractWorkflow.
  destruct (captured _) as [raw|]; [|eexists; reflexivity].
  rewrite guarded_parse_normal. eexists. reflexivity.
Qed.

Lemma extractRelated_normal : forall text,
  exists related, extractRelated text = ([], Normal related).
Proof.
  intros text. unfold extractRelated.
  destruct (captured _) as [raw|]; [|eexists; reflexivity].
  rewrite guarded_parse_normal. eexists. reflexivity.
Qed.

Lemma extractIssues_normal : forall w text,
  exists found, extractIssues w text = ([], Normal found).
Proof.
  intros w text. unfold extractIssues.
  destruct (captured _) as [raw|]; [|eexists; reflexivity].
  unfold json_parse. destruct (JSON_parse (cleanJsonString raw)) as [v|];
    [|eexists; reflexivity].
  destruct v as [| b | n | s | l | kvs]; try (eexists; reflexivity).
  cbn. destruct (normalizeIssues (date_now w) 0 l); eexists; reflexivity.
Qed.

(** An array without [null] element is normalized element by element. *)
Lemma normalizeIssues_total : forall now l idx,
  Forall (fun issue : value => issue <> JNull) l ->
  exists found,
    normalizeIssues now idx l = Normal found
    /\ List.length found = List.length l.
Proof.
  intros now. induction l as [|x l IH]; intros idx H.
  - exists []. split; reflexivity.
  - inversion H as [|? ? Hx Hl]; subst. cbn [normalizeIssues].
    assert (Ex : exists i, normalizeIssue now idx x = Normal i).
    { unfold normalizeIssue, getStrict.
      destruct x; [contradiction|eexists; reflexivity..]. }
    destruct Ex as (i & Ei). rewrite Ei.
    destruct (IH (S idx) Hl) as (found & Ef & Elen). rewrite Ef.
    exists (i :: found). split; [reflexivity|]. cbn. rewrite Elen. reflexivity.
Qed.

Lemma extractIssues_valid : forall w text,
  issues_valid text ->
  exists i found, extractIssues w text = ([], Normal (i :: found)).
Proof.
  intros w text (raw & parsed & Ec & Ep & Hne & Hnn).
  unfold extractIssues. rewrite Ec, (json_parse_some _ Ep).
  destruct (normalizeIssues_total (date_now w) 0 Hnn) as (found & Ef & Elen).
  rewrite bind_ret_l. unfold lift, try_catch. rewrite Ef.
  destruct found as [|i found].
  - destruct parsed; [contradiction|discriminate Elen].
  - exists i, found. reflexivity.
Qed.

Lemma extractRelated_malformed : forall text,
  related_malformed text -> extractRelated text = ([], Normal (JArr [])).
Proof.
  intros text H. unfold related_malformed in H. unfold extractRelated.
  destruct (captured _) as [raw|]; [|reflexivity].
  rewrite guarded_parse_normal, H. reflexivity.
Qed.

(** C5 (as the code has it).  The shared parsing never throws, and each
    field of its result is what the extraction of that region yields on its
    own, so a region that is absent or malformed changes nothing but its own
    field.  In particular, when the issues region that the extraction
    locates (from the first bracket after the label to the next closing
    bracket) parses, once cleaned, as a non-empty array without [null]
    element, and the related-questions region is absent, never closed or
    unparsable, the issues list is not empty and the related-questions list
    is empty. *)
Theorem extraction_regions_independent :
  forall (w : World) (lang textResponse : str) (sources : list source),
  exists response updated found related,
    parseResponse w lang textResponse sources = ([], Normal response)
    /\ extractWorkflow textResponse = ([], Normal updated)
    /\ extractIssues w textResponse = ([], Normal found)
    /\ extractRelated textResponse = ([], Normal related)
    /\ updatedWorkflow response = updated
    /\ issues response = Some found
    /\ relatedQuestions response = Some related
    /\ (extractActions textResponse <> [] ->
        suggestedActions response = extractActions textResponse)
    /\ (issues_valid textResponse -> found <> [])
    /\ (related_malformed textResponse -> related = JArr []).
Proof.
  intros w lang text sources.
  destruct (extractWorkflow_normal text) as (updated & Ew).
  destruct (extractIssues_normal w text) as (found & Ei).
  destruct (extractRelated_normal text) as (related & Er).
  eexists _, updated, found, related.
  split.
  { unfold parseResponse. rewrite Ew, Ei, Er. cbn. reflexivity. }
  cbn [updatedWorkflow issues relatedQuestions suggestedActions].
  split; [exact Ew|]. split; [exact Ei|]. split; [exact Er|].
  repeat (split; [reflexivity|]). split; [|split].
  - intros Hne. destruct (extractActions text); [contradiction|reflexivity].
  - intros Hv. destruct (extractIssues_valid w Hv) as (i & found' & Ei').
    rewrite Ei in Ei'. injection Ei' as ->. discriminate.
  - intros Hm. rewrite (extractRelated_malformed _ Hm) in Er.
    injection Er as <-. reflexivity.
Qed.

End Extraction.

(** A reply with a valid issues region, followed by a related-questions
    region cut off before its closing bracket. *)
Lemma extraction_regions_independent_witness :
  let textResponse := qlit "The sampler has no model input.
ISSUES_JSON: [{~nodeId~: 10, ~severity~: ~error~, ~message~: ~KSampler has no model~}]
RELATED_QUESTIONS: [~How do I connect a model?~, ~What is a" in
  exists response found,
    parseResponse offline_world (lit "en") textResponse [] = ([], Normal response)
    /\ issues response = Some found /\ found <> []
    /\ relatedQuestions response = Some (JArr []).
Proof.
  intros textResponse.
  destruct (@extraction_regions_independent ReferenceRuntime offline_world
              (lit "en") textResponse [])
    as (response & updated & found & related & E & _ & _ & _ & _ & Hi & Hr
        & _ & Hvalid & Hmal).
  exists response, found. split; [exact E|]. split; [exact Hi|]. split.
  - apply Hvalid. eexists _, _. vm_compute.
    split; [reflexivity|]. split; [reflexivity|]. split; [discriminate|].
    repeat constructor. discriminate.
  - rewrite Hr. f_equal. apply Hmal. vm_compute. exact I.
Defined.

(** The claim as stated fails: the array after the label is valid JSON, but
    the message of its issue contains a closing bracket, at which the
    located region stops; that region does not parse and the issues list is
    empty. *)
Lemma extraction_valid_issues_counterexample :
  let array :=
    qlit "[{~nodeId~: 3, ~severity~: ~error~, ~message~: ~inputs[0] is not connected~}]" in
  let textResponse :=
    lit "ISSUES_JSON: " ++ array ++ newline
    :: qlit "RELATED_QUESTIONS: [~How do I connect it?~, ~What is a" in
  parse_json array
  = Some (JArr [JObj [(lit "nodeId", JNum (Numeral 51%N []));
                      (lit "severity", JStr (lit "error"));
                      (lit "message", JStr (lit "inputs[0] is not connected"))]])
  /\ captured (exec rx_issues textResponse)
     = Some (qlit "[{~nodeId~: 3, ~severity~: ~error~, ~message~: ~inputs[0]")
  /\ fst (parseResponse offline_world (lit "en") textResponse []) = []
  /\ match snd (parseResponse offline_world (lit "en") textResponse []) with
     | Normal response => issues response
     | Throw _ => None
     end = Some [].
Proof.
  intros array textResponse. split; [|split; [|split]]; by_evaluation.
Qed.

(** ** The suggested actions (C8) *)

Section RegexFacts.

(** Replacing every match of a character class by the empty string removes
    the characters of the class and nothing else. *)
Lemma replace_global_chr : forall (p : char -> bool) (s seen : str),
  replace_global_scan (Chr p) [] seen 0 s = filter (fun c => negb (p c)) s.
Proof.
  intros p. induction s as [|c s IH]; intros seen; [reflexivity|].
  cbn [replace_global_scan filter]. unfold match_here. cbn [rmatch].
  destruct (p c); cbn [negb].
  - replace (List.length (c :: s) - List.length s) with 1
      by (cbn [List.length]; lia).
    cbn. apply IH.
  - rewrite IH. reflexivity.
Qed.

Variable A : Type.
Variable p : char -> bool.
Variable k : str -> option str -> option A.

(** The body of a star over the character class [p]. *)
Variable body : str -> option str -> (str -> option str -> option A) -> option A.
Hypothesis body_spec : forall s1 c1 k1,
  body s1 c1 k1 =
  match s1 with
  | c :: s' => if p c then k1 s' c1 else None
  | [] => None
  end.

(** A greedy star over a character class runs through the characters of
    the class that come first, when the continuation accepts what
    follows. *)
Lemma star_greedy_run : forall ws s n cap x,
  Forall (fun c => p c = true) ws ->
  match s with c :: _ => p c = false | [] => True end ->
  List.length ws <= n ->
  k s cap = Some x ->
  star_loop true body k n (ws ++ s) cap = Some x.
Proof.
  induction ws as [|c ws IH]; intros s n cap x Hws Hs Hn Hk.
  - cbn [app]. destruct n as [|n]; [exact Hk|].
    cbn [star_loop]. rewrite body_spec. destruct s as [|d s]; [exact Hk|].
    rewrite Hs. exact Hk.
  - inversion Hws as [|? ? Hc Hws']; subst.
    destruct n as [|n]; [cbn in Hn; lia|].
    cbn [app star_loop]. rewrite body_spec, Hc.
    replace (List.length (ws ++ s) <? List.length (c :: ws ++ s)) with true
      by (symmetry; apply Nat.ltb_lt; cbn [List.length]; lia).
    rewrite (IH s n cap x Hws' Hs); [reflexivity| |exact Hk].
    cbn in Hn. lia.
Qed.

(** A lazy star over a character class stops at the first place where the
    continuation accepts. *)
Lemma star_lazy_run : forall inner tail n cap x,
  Forall (fun c => p c = true) inner ->
  (forall i1 i2 cap', inner = i1 ++ i2 -> i2 <> [] -> k (i2 ++ tail) cap' = None) ->
  List.length inner <= n ->
  k tail cap = Some x ->
  star_loop false body k n (inner ++ tail) cap = Some x.
Proof.
  induction inner as [|c inner IH]; intros tail n cap x Hin Hrej Hn Hk.
  - cbn [app]. destruct n as [|n]; [exact Hk|].
    cbn [star_loop]. rewrite Hk. reflexivity.
  - inversion Hin as [|? ? Hc Hin']; subst.
    destruct n as [|n]; [cbn in Hn; lia|].
    cbn [star_loop].
    rewrite (Hrej [] (c :: inner) cap eq_refl) by discriminate.
    cbn [app]. rewrite body_spec, Hc.
    replace (List.length (inner ++ tail) <? List.length (c :: inner ++ tail))
      with true by (symmetry; apply Nat.ltb_lt; cbn [List.length]; lia).
    apply IH; [exact Hin'| |cbn in Hn; lia|exact Hk].
    intros i1 i2 cap' E Hne. apply (Hrej (c :: i1) i2 cap'); [|exact Hne].
    rewrite E. reflexivity.
Qed.

End RegexFacts.

Lemma firstn_length_app : forall (a b : str),
  firstn (List.length (a ++ b) - List.length b) (a ++ b) = a.
Proof.
  intros a b. rewrite length_app.
  replace (List.length a + List.length b - List.length b) with (List.length a)
    by lia.
  rewrite firstn_app, Nat.sub_diag, firstn_all. cbn. apply app_nil_r.
Qed.

Lemma is_prefix_short : forall l x y,
  List.length l <= List.length x -> is_prefix l (x ++ y) = is_prefix l x.
Proof.
  induction l as [|c l IH]; intros x y H; [reflexivity|].
  destruct x as [|d x]; [cbn in H; lia|].
  cbn [app is_prefix]. rewrite IH by (cbn in H; lia). reflexivity.
Qed.

Lemma search_here : forall r seen s rest cap,
  match_here r s = Some (rest, cap) ->
  search r seen s =
  Some (RxMatch (rev seen) (firstn (List.length s - List.length rest) s) cap rest).
Proof.
  intros r seen s rest cap H. destruct s; cbn [search]; rewrite H; reflexivity.
Qed.

(** The leftmost match is not in a stretch of text where the expression
    matches nowhere. *)
Lemma search_skip : forall r pre seen s,
  (forall p1 p2, pre = p1 ++ p2 -> p2 <> [] -> match_here r (p2 ++ s) = None) ->
  search r seen (pre ++ s) = search r (rev pre ++ seen) s.
Proof.
  intros r. induction pre as [|c pre IH]; intros seen s H; [reflexivity|].
  pose proof (H [] (c :: pre) eq_refl ltac:(discriminate)) as E.
  cbn [app] in E. cbn [app search]. rewrite E, IH.
  - cbn [rev]. rewrite <- app_assoc. reflexivity.
  - intros p1 p2 E' Hne. apply (H (c :: p1) p2); [rewrite E'; reflexivity|exact Hne].
Qed.

(** The expression of line 1184 at the place where the label stands. *)
Lemma actions_match_here : forall ws inner rest,
  Forall (fun c => is_js_space c = true) ws ->
  Forall (fun c => negb (is_line_terminator c) = true) inner ->
  ~ In 93%N inner ->
  match_here rx_actions
    (lit "SUGGESTED_ACTIONS:" ++ ws ++ 91%N :: inner ++ 93%N :: rest)
  = Some (rest, Some inner).
Proof.
  intros ws inner rest Hws Hdot Hclose.
  unfold match_here, rx_actions. cbn [rmatch].
  rewrite is_prefix_app, skipn_length_app.
  apply (@star_greedy_run _ is_js_space);
    [reflexivity|exact Hws|reflexivity|rewrite length_app; lia|].
  change (lit "[") with [91%N]. change (lit "]") with [93%N].
  cbn [is_prefix skipn List.length]. rewrite N.eqb_refl. cbn [andb].
  apply (@star_lazy_run _ (fun c => negb (is_line_terminator c)));
    [reflexivity|exact Hdot| |rewrite length_app; lia|].
  - intros i1 i2 cap' E Hne. destruct i2 as [|c i2]; [contradiction|].
    cbn [app is_prefix]. destruct (N.eqb 93 c) eqn:Ec; [|reflexivity].
    apply N.eqb_eq in Ec. subst c. exfalso. apply Hclose. rewrite E.
    apply in_or_app. right. left. reflexivity.
  - cbn [is_prefix]. rewrite N.eqb_refl. cbn [andb skipn].
    rewrite (firstn_length_app inner (93%N :: rest)). reflexivity.
Qed.

Lemma actions_no_match_here : forall s,
  is_prefix (lit "SUGGESTED_ACTIONS:") s = false ->
  match_here rx_actions s = None.
Proof.
  intros s H. unfold match_here, rx_actions. cbn [rmatch]. rewrite H.
  reflexivity.
Qed.

(** The first group of the leftmost match is the text between the first
    bracket after the label and the next closing bracket. *)
Lemma actions_captured : forall pre ws inner rest,
  first_occurrence (lit "SUGGESTED_ACTIONS:") pre ->
  Forall (fun c => is_js_space c = true) ws ->
  Forall (fun c => negb (is_line_terminator c) = true) inner ->
  ~ In 93%N inner ->
  inner <> [] ->
  captured (exec rx_actions
              (pre ++ lit "SUGGESTED_ACTIONS:" ++ ws
               ++ 91%N :: inner ++ 93%N :: rest))
  = Some inner.
Proof.
  intros pre ws inner rest Hfirst Hws Hdot Hclose Hne.
  unfold exec. rewrite search_skip.
  - rewrite (@search_here _ _ _ _ _ (actions_match_here rest Hws Hdot Hclose)).
    cbn [captured m_group]. apply str_eqb_neq in Hne. rewrite Hne.
    reflexivity.
  - intros p1 p2 E Hp2. apply actions_no_match_here.
    rewrite app_assoc, is_prefix_short by (rewrite length_app; lia).
    apply (Hfirst p1 p2 E Hp2).
Qed.

Lemma cleanAction_filter : forall s,
  cleanAction s = filter (fun c => negb (is_quote c)) (trim s).
Proof.
  intros s. unfold cleanAction, replace_global, rx_quote.
  apply replace_global_chr.
Qed.

(** C8 (as the code has it).  When the label [SUGGESTED_ACTIONS:] first
    occurs followed by white space and a bracketed list on one line, the
    suggested actions are the pieces of the bracket content between commas,
    each with its surrounding white space removed and then with every single
    and double quote removed, wherever it stands in the piece; all other
    characters are kept in place. *)
Theorem suggested_actions_strip_all_quotes : forall pre ws inner rest,
  first_occurrence (lit "SUGGESTED_ACTIONS:") pre ->
  Forall (fun c => is_js_space c = true) ws ->
  Forall (fun c => negb (is_line_terminator c) = true) inner ->
  ~ In 93%N inner ->
  inner <> [] ->
  extractActions
    (pre ++ lit "SUGGESTED_ACTIONS:" ++ ws ++ 91%N :: inner ++ 93%N :: rest)
  = map (fun item => filter (fun c => negb (is_quote c)) (trim item))
      (split 44%N inner).
Proof.
  intros pre ws inner rest Hfirst Hws Hdot Hclose Hne.
  unfold extractActions.
  rewrite (actions_captured rest Hfirst Hws Hdot Hclose Hne).
  apply map_ext. exact cleanAction_filter.
Qed.

(** A reply that ends with a list of two actions, one with an apostrophe,
    one written between double quotes. *)
Lemma suggested_actions_strip_all_quotes_witness :
  extractActions (qlit "OK SUGGESTED_ACTIONS: [Don't panic, ~Retry~]
bye")
  = [lit "Dont panic"; lit "Retry"].
Proof.
  refine (@suggested_actions_strip_all_quotes (lit "OK ") (lit " ")
            (qlit "Don't panic, ~Retry~") (newline :: lit "bye") _ _ _ _ _).
  - intros p1 p2 E Hne.
    repeat (destruct p1 as [|? p1];
            [cbn [app] in E; subst p2;
             first [reflexivity | exfalso; apply Hne; reflexivity]
            |cbn [app] in E; first [discriminate E | injection E as _ E]]).
  - repeat constructor.
  - repeat constructor.
  - cbv. intuition discriminate.
  - discriminate.
Defined.

(** The claim as stated fails: the apostrophe inside an item is removed,
    whereas stripping only what surrounds the item keeps it. *)
Lemma suggested_actions_interior_counterexample :
  extractActions (lit "SUGGESTED_ACTIONS: [Don't panic]") = [lit "Dont panic"]
  /\ map stripSurrounding (split 44%N (lit "Don't panic")) = [lit "Don't panic"]
  /\ extractActions (lit "SUGGESTED_ACTIONS: [Don't panic]")
     <> map stripSurrounding (split 44%N (lit "Don't panic")).
Proof. split; [reflexivity|]. split; [reflexivity|discriminate]. Qed.

(** ** The entry point never rejects (C10) *)

Section NeverRejects.
Context {RT : JSRuntime}.
Variables (w : World) (currentWorkflow : value) (userPrompt : str)
          (settings : AppSettings) (sessionId : str) (errorLog : option str)
          (onStream onStatus : bool).

(** The errors named by the claim do reach the [catch] block.  A missing
    base URL of the custom provider: *)
Lemma agentBody_missing_base_url : forall summary,
  nodesSummary currentWorkflow = Normal summary ->
  usePythonBackend settings = false ->
  str_eqb (provider settings) (lit "google") = false ->
  baseUrl settings = [] ->
  agentBody w currentWorkflow userPrompt settings sessionId errorLog
    onStream onStatus
  = ([], Throw (JsError (lit "Base URL required for custom provider"))).
Proof.
  intros summary Hs Hpy Hprov Hbase. unfold agentBody, buildPrompt.
  rewrite Hs, Hpy, Hprov. unfold callCustomLLM. rewrite Hbase. reflexivity.
Qed.

(** A missing API key of the cloud provider: *)
Lemma agentBody_missing_api_key : forall summary,
  nodesSummary currentWorkflow = Normal summary ->
  usePythonBackend settings = false ->
  str_eqb (provider settings) (lit "google") = true ->
  apiKey settings = [] -> env_API_KEY w = [] ->
  agentBody w currentWorkflow userPrompt settings sessionId errorLog
    onStream onStatus
  = ([], Throw (JsError (lit "API Key is missing. Please set it in settings."))).
Proof.
  intros summary Hs Hpy Hprov Hkey Henv. unfold agentBody, buildPrompt.
  rewrite Hs, Hpy, Hprov. unfold callGoogleGemini. rewrite Hkey, Henv.
  reflexivity.
Qed.

(** A transport failure of the orchestration server, after the request has
    been issued: *)
Lemma agentBody_transport_failure : forall summary error,
  nodesSummary currentWorkflow = Normal summary ->
  usePythonBackend settings = true ->
  pythonBackendUrl settings <> [] ->
  (forall url init, fetch w url init = Throw error) ->
  exists url init,
    agentBody w currentWorkflow userPrompt settings sessionId errorLog
      onStream onStatus
    = ([Fetched url init], Throw error).
Proof.
  intros summary error Hs Hpy Hurl Hfetch. unfold agentBody, buildPrompt.
  rewrite Hs, Hpy. unfold callPythonBackendStream.
  apply str_eqb_neq in Hurl. rewrite Hurl. unfold do_fetch.
  rewrite Hfetch. eexists _, _. reflexivity.
Qed.

(** A workflow whose [nodes] is not an array makes the assembly of the
    prompt throw: *)
Lemma agentBody_assembly_failure : forall error,
  nodesSummary currentWorkflow = Throw error ->
  agentBody w currentWorkflow userPrompt settings sessionId errorLog
    onStream onStatus
  = ([], Throw error).
Proof.
  intros error Hs. unfold agentBody, buildPrompt. rewrite Hs. reflexivity.
Qed.

(** C10.  [sendMessageToComfyAgent] always resolves.  When its [try] block
    throws an error, whether from the assembly of the request or from an
    adapter, the call resolves with the events that happened until then and
    with the response whose [chatResponse] is the localized error prefix, a
    space and the message of the error (or [Unknown error] when the message
    is empty) and whose [updatedWorkflow] is [null]. *)
Theorem agent_never_rejects :
  exists tr response,
    sendMessageToComfyAgent w currentWorkflow userPrompt settings sessionId
      errorLog onStream onStatus
    = (tr, Normal response)
    /\ forall tr' error,
         agentBody w currentWorkflow userPrompt settings sessionId errorLog
           onStream onStatus
         = (tr', Throw error) ->
         tr = tr'
         /\ chatResponse response
            = t w (language settings) (lit "errorPrefix") ++ lit " "
              ++ or_else (message error) (lit "Unknown error")
         /\ updatedWorkflow response = JNull.
Proof.
  unfold sendMessageToComfyAgent, try_catch.
  destruct (agentBody w currentWorkflow userPrompt settings sessionId errorLog
              onStream onStatus) as [tr [response|error]].
  - exists tr, response. split; [reflexivity|]. intros tr' error' H.
    discriminate H.
  - cbn [ret]. rewrite app_nil_r. eexists _, _. split; [reflexivity|].
    intros tr' error' H. injection H as <- <-. cbn. tauto.
Qed.

End NeverRejects.

(** A custom provider without base URL: the call resolves with the
    localized prefix followed by the message of the configuration error. *)
Lemma agent_never_rejects_witness :
  exists tr response,
    sendMessageToComfyAgent offline_world (JObj [(lit "nodes", JArr [])])
      (lit "hi") (custom_profile [] [] []) (lit "s1") None true true
    = (tr, Normal response)
    /\ chatResponse response
       = lit "errorPrefix Base URL required for custom provider"
    /\ updatedWorkflow response = JNull.
Proof.
  destruct (@agent_never_rejects ReferenceRuntime offline_world
              (JObj [(lit "nodes", JArr [])]) (lit "hi")
              (custom_profile [] [] []) (lit "s1") None true true)
    as (tr & response & E & H).
  exists tr, response. split; [exact E|].
  destruct (H [] (JsError (lit "Base URL required for custom provider")))
    as (_ & Hc & Hu).
  - apply (@agentBody_missing_base_url ReferenceRuntime offline_world _ _ _ _
             _ _ _ (JArr [])); reflexivity.
  - split; [exact Hc|exact Hu].
Defined.

(** ** The session identity is promoted one way (C9) *)

Section SessionPromotion.
Context {RT : JSRuntime}.
Variable token : str.












End SessionPromotion.


(** ** Further properties of the embedded code *)

(** ** Base URLs and templates without placeholder *)

Lemma search_trailing_slash : forall s seen,
  search (Lit (lit "/") +++ Eoi)%re seen (s ++ lit "/")
  = Some (RxMatch (rev seen ++ s) (lit "/") None []).
Proof.
  induction s as [|c s IH]; intros seen.
  - rewrite app_nil_r. reflexivity.
  - cbn [app search]. unfold match_here. cbn [rmatch].
    change (lit "/") with [47%N]. cbn [is_prefix List.length skipn].
    destruct (N.eqb 47 c); cbn [andb].
    + destruct (s ++ [47%N]) as [|d r] eqn:E.
      * apply app_eq_nil in E. destruct E as [_ E]. discriminate E.
      * rewrite <- E. change [47%N] with (lit "/"). rewrite IH.
        cbn [rev]. rewrite <- app_assoc. reflexivity.
    + change [47%N] with (lit "/"). rewrite IH.
      cbn [rev]. rewrite <- app_assoc. reflexivity.
Qed.

Lemma search_no_trailing_slash : forall s seen,
  (forall s', s <> s' ++ lit "/") ->
  search (Lit (lit "/") +++ Eoi)%re seen s = None.
Proof.
  induction s as [|c s IH]; intros seen H.
  - reflexivity.
  - cbn [search]. unfold match_here. cbn [rmatch].
    change (lit "/") with [47%N] in *. cbn [is_prefix List.length skipn].
    assert (Hs : forall s', s <> s' ++ [47%N]).
    { intros s' E. apply (H (c :: s')). rewrite E. reflexivity. }
    destruct (N.eqb 47 c) eqn:Ec; cbn [andb].
    + destruct s as [|d r].
      * apply N.eqb_eq in Ec. subst c. exfalso. apply (H []). reflexivity.
      * apply IH. exact Hs.
    + apply IH. exact Hs.
Qed.

Lemma strip_slash_ended : forall s : str,
  strip_trailing_slash (s ++ lit "/") = s.
Proof.
  intros s. unfold strip_trailing_slash, replace_first, exec.
  rewrite search_trailing_slash. cbn. rewrite app_nil_r. reflexivity.
Qed.

Lemma strip_slash_free : forall s : str,
  (forall s', s <> s' ++ lit "/") -> strip_trailing_slash s = s.
Proof.
  intros s H. unfold strip_trailing_slash, replace_first, exec.
  rewrite search_no_trailing_slash by exact H. reflexivity.
Qed.

(** X1.  The expression that removes a trailing slash from a base URL
    removes exactly one: a text that ends with a slash loses that slash and
    nothing else (so a text that ends with two slashes keeps one), and a
    text that does not end with a slash is unchanged. *)
Theorem strip_trailing_slash_once : forall s : str,
  strip_trailing_slash (s ++ lit "/") = s
  /\ strip_trailing_slash ((s ++ lit "/") ++ lit "/") = s ++ lit "/"
  /\ ((forall s', s <> s' ++ lit "/") -> strip_trailing_slash s = s).
Proof.
  intros s. split; [apply strip_slash_ended|].
  split; [apply strip_slash_ended|apply strip_slash_free].
Qed.

(** X2.  A relative endpoint is joined to the base URL by exactly one slash,
    whether or not the base URL ends with a slash and whether or not the
    endpoint starts with one. *)
Theorem resolveUrl_joins_with_one_slash :
  forall (settings : AppSettings) (b e : str),
  is_prefix (lit "http") e = false ->
  is_prefix (lit "/") e = false ->
  baseUrl settings = b ++ lit "/"
  \/ (baseUrl settings = b /\ forall b', b <> b' ++ lit "/") ->
  resolveUrl settings e = b ++ lit "/" ++ e
  /\ resolveUrl settings (lit "/" ++ e) = b ++ lit "/" ++ e.
Proof.
  intros settings b e Hhttp Hslash Hbase.
  assert (Hstrip : strip_trailing_slash (baseUrl settings) = b).
  { destruct Hbase as [E|[E Hno]]; rewrite E.
    - apply strip_slash_ended.
    - apply strip_slash_free. exact Hno. }
  unfold resolveUrl. rewrite Hhttp, Hslash, Hstrip.
  split; [reflexivity|].
  change (is_prefix (lit "http") (lit "/" ++ e)) with false.
  change (is_prefix (lit "/") (lit "/" ++ e)) with true.
  cbv iota. reflexivity.
Qed.

(** *** Templates without placeholder *)

Lemma includes_cons : forall needle c s,
  includes needle (c :: s) = false ->
  is_prefix needle (c :: s) = false /\ includes needle s = false.
Proof.
  intros needle c s H. cbn [includes] in H. apply orb_false_iff in H. exact H.
Qed.

Lemma replaceAll_scan_absent : forall pat rep s seen,
  includes pat s = false -> replaceAll_scan pat rep seen 0 s = s.
Proof.
  intros pat rep. induction s as [|c s IH]; intros seen H; [reflexivity|].
  apply includes_cons in H as [Hp Hs].
  rewrite replaceAll_scan_miss by exact Hp. rewrite IH by exact Hs. reflexivity.
Qed.

Lemma replaceAll_absent : forall pat rep s,
  pat <> [] -> includes pat s = false -> replaceAll pat rep s = s.
Proof.
  intros pat rep s Hne H. rewrite replaceAll_as_scan by exact Hne.
  apply replaceAll_scan_absent. exact H.
Qed.

(** An occurrence of a placeholder between quotes is an occurrence of the
    placeholder. *)
Lemma includes_quoted : forall q p s,
  includes p s = false -> includes (q :: p ++ [q]) s = false.
Proof.
  intros q p. induction s as [|c s IH]; intros H.
  - reflexivity.
  - apply includes_cons in H as [Hp Hs]. cbn [includes].
    rewrite (IH Hs), orb_false_r. cbn [is_prefix].
    destruct (N.eqb q c); [|reflexivity]. cbn [andb].
    destruct (is_prefix (p ++ [q]) s) eqn:E; [|reflexivity].
    exfalso. clear - E Hs.
    assert (Hpre : forall p' s', is_prefix (p' ++ [q]) s' = true ->
                                 is_prefix p' s' = true).
    { clear. induction p' as [|x p' IH]; intros s' E; [reflexivity|].
      destruct s' as [|y s']; [discriminate|]. cbn [app is_prefix] in *.
      apply andb_true_iff in E as [E1 E2]. rewrite E1, (IH _ E2). reflexivity. }
    apply Hpre in E.
    destruct s as [|d s]; cbn [includes] in Hs; rewrite E in Hs; discriminate.
Qed.

Section NoPlaceholder.
Context {RT : JSRuntime}.

Lemma resolveKey_absent : forall result key (v : value),
  includes (dollar :: key) result = false ->
  resolveKey result (key, v) = result.
Proof.
  intros result key v H. unfold resolveKey.
  destruct (typeof_object v).
  - rewrite (@replaceAll_absent ([dquote] ++ (dollar :: key) ++ [dquote]))
      by (try discriminate;
          apply (includes_quoted dquote (dollar :: key)); exact H).
    rewrite (@replaceAll_absent ([squote] ++ (dollar :: key) ++ [squote]))
      by (try discriminate;
          apply (includes_quoted squote (dollar :: key)); exact H).
    apply replaceAll_absent; [discriminate|exact H].
  - apply replaceAll_absent; [discriminate|exact H].
Qed.

(** X3.  A template in which the placeholder of no variable occurs is
    returned unchanged, whatever the values: text that holds a dollar sign
    followed by an unknown name is left as it is. *)
Theorem resolveTemplate_without_placeholder :
  forall (templateStr : str) (vars : list (str * value)),
  Forall (fun kv => includes (dollar :: fst kv) templateStr = false) vars ->
  resolveTemplate templateStr vars = templateStr.
Proof.
  intros templateStr vars H. unfold resolveTemplate.
  induction H as [|[key v] vars Hk _ IH]; [reflexivity|].
  cbn [fold_left]. rewrite resolveKey_absent by exact Hk. exact IH.
Qed.

End NoPlaceholder.

(** ** Global replacement and stars over a character class *)

Section GlobalReplace.
Variables (r : regex) (rep : str).

Lemma replace_global_scan_skip : forall a seen s,
  replace_global_scan r rep seen (List.length a) (a ++ s) =
  replace_global_scan r rep (rev a ++ seen) 0 s.
Proof.
  induction a as [|x a IH]; intros seen s.
  - reflexivity.
  - cbn [app List.length replace_global_scan]. rewrite IH.
    cbn [rev]. rewrite <- app_assoc. reflexivity.
Qed.

(** Text in which the expression matches nowhere is copied. *)
Lemma replace_global_scan_copy : forall pre seen tail,
  (forall p1 p2, pre = p1 ++ p2 -> p2 <> [] ->
                 match_here r (p2 ++ tail) = None) ->
  replace_global_scan r rep seen 0 (pre ++ tail) =
  pre ++ replace_global_scan r rep (rev pre ++ seen) 0 tail.
Proof.
  induction pre as [|c pre IH]; intros seen tail H; [reflexivity|].
  pose proof (H [] (c :: pre) eq_refl ltac:(discriminate)) as E.
  cbn [app] in E. cbn [app replace_global_scan]. rewrite E, IH.
  - cbn [rev]. rewrite <- app_assoc. reflexivity.
  - intros p1 p2 E' Hne.
    apply (H (c :: p1) p2); [rewrite E'; reflexivity|exact Hne].
Qed.

(** A match that is not empty is replaced by the expansion of the
    replacement string, and the scan resumes after it. *)
Lemma replace_global_scan_match : forall m s cap seen,
  m <> [] ->
  match_here r (m ++ s) = Some (s, cap) ->
  replace_global_scan r rep seen 0 (m ++ s) =
  getSubstitution m (rev seen) s rep
  ++ replace_global_scan r rep (rev m ++ seen) 0 s.
Proof.
  intros m s cap seen Hne H. destruct m as [|c m]; [contradiction|].
  cbn [app replace_global_scan]. cbn [app] in H. rewrite H.
  replace (List.length (c :: m ++ s) - List.length s) with (S (List.length m))
    by (cbn [List.length]; rewrite length_app; lia).
  change (c :: m ++ s) with ((c :: m) ++ s) at 1.
  rewrite firstn_app. replace (S (List.length m) - List.length (c :: m)) with 0
    by (cbn [List.length]; lia).
  rewrite firstn_all2 by (cbn [List.length]; lia).
  cbn [firstn Nat.eqb app]. rewrite app_nil_r.
  replace (S (List.length m) - 1) with (List.length m) by lia.
  rewrite replace_global_scan_skip. cbn [rev]. rewrite <- app_assoc.
  reflexivity.
Qed.

Lemma replace_global_scan_end : forall seen,
  match_here r [] = None -> replace_global_scan r rep seen 0 [] = [].
Proof. intros seen H. cbn [replace_global_scan]. rewrite H. reflexivity. Qed.

(** Where the expression matches nowhere, the text is unchanged. *)
Lemma replace_global_unchanged : forall s,
  (forall p1 p2, s = p1 ++ p2 -> match_here r p2 = None) ->
  replace_global r rep s = s.
Proof.
  intros s H. unfold replace_global.
  rewrite <- (app_nil_r s) at 1. rewrite replace_global_scan_copy.
  - rewrite replace_global_scan_end; [apply app_nil_r|].
    apply (H s []). symmetry. apply app_nil_r.
  - intros p1 p2 E _. rewrite app_nil_r. apply (H p1 p2 E).
Qed.

End GlobalReplace.

(** With the empty replacement the text scanned before plays no part. *)
Lemma replace_global_scan_empty_seen : forall r s seen seen' skip,
  replace_global_scan r [] seen skip s = replace_global_scan r [] seen' skip s.
Proof.
  intros r. induction s as [|c s IH]; intros seen seen' skip.
  - destruct skip; reflexivity.
  - destruct skip as [|k]; cbn [replace_global_scan].
    + destruct (match_here r (c :: s)) as [[rest cap]|].
      * cbn [getSubstitution app]. f_equal. apply IH.
      * f_equal. apply IH.
    + apply IH.
Qed.

Lemma somewhere_cons : forall p c s,
  somewhere p (c :: s) = false -> p (c :: s) = false /\ somewhere p s = false.
Proof.
  intros p c s H. cbn [somewhere] in H. apply orb_false_iff in H. exact H.
Qed.

Lemma somewhere_suffix : forall p s p1 p2,
  somewhere p s = false -> s = p1 ++ p2 -> p p2 = false.
Proof.
  intros p s p1. revert s. induction p1 as [|c p1 IH]; intros s p2 H E.
  - cbn [app] in E. subst p2. destruct s; cbn [somewhere] in H;
      apply orb_false_iff in H; tauto.
  - subst s. cbn [app] in H. apply somewhere_cons in H as [_ H].
    exact (IH _ _ H eq_refl).
Qed.

Lemma includes_suffix : forall needle s p1 p2,
  includes needle s = false -> s = p1 ++ p2 -> is_prefix needle p2 = false.
Proof.
  intros needle s p1. revert s. induction p1 as [|c p1 IH]; intros s p2 H E.
  - cbn [app] in E. subst p2. destruct s; cbn [includes] in H;
      apply orb_false_iff in H; tauto.
  - subst s. cbn [app] in H. apply includes_cons in H as [_ H].
    exact (IH _ _ H eq_refl).
Qed.

(** *** A star over a character class followed by one character *)

Section StarThenChar.
Variable A : Type.
Variable p : char -> bool.
Variable body : str -> option str -> (str -> option str -> option A) -> option A.
Hypothesis body_spec : forall s1 c1 k1,
  body s1 c1 k1 =
  match s1 with
  | c :: s' => if p c then k1 s' c1 else None
  | [] => None
  end.

(** Whatever the priority of the star, if the continuation rejects the text
    after every run of characters of the class, the star fails. *)
Lemma star_rejects : forall greedy k n s cap,
  (forall ws s2, s = ws ++ s2 -> Forall (fun c => p c = true) ws ->
                 k s2 cap = None) ->
  star_loop greedy body k n s cap = None.
Proof.
  intros greedy k. induction n as [|n IH]; intros s cap H.
  - cbn [star_loop]. apply (H [] s); [reflexivity|constructor].
  - assert (Hk : k s cap = None) by (apply (H [] s); [reflexivity|constructor]).
    assert (Hb : body s cap
                   (fun s1 c1 =>
                      if List.length s1 <? List.length s
                      then star_loop greedy body k n s1 c1 else None) = None).
    { rewrite body_spec. destruct s as [|c s']; [reflexivity|].
      destruct (p c) eqn:Ec; [|reflexivity].
      destruct (List.length s' <? List.length (c :: s')); [|reflexivity].
      apply IH. intros ws s2 E Hws. apply (H (c :: ws) s2).
      - rewrite E. reflexivity.
      - constructor; assumption. }
    cbn [star_loop]. destruct greedy; rewrite Hb, Hk; reflexivity.
Qed.

End StarThenChar.

(** ** [cleanJsonString] *)

Lemma trimStart_spaces : forall ws s,
  Forall (fun c => is_js_space c = true) ws -> trimStart (ws ++ s) = trimStart s.
Proof.
  induction ws as [|c ws IH]; intros s H; [reflexivity|].
  inversion H as [|? ? Hc Hws]; subst. cbn [app trimStart]. rewrite Hc.
  apply IH. exact Hws.
Qed.

(** A text that starts with a character other than the first one of a
    literal does not start with the literal. *)
Lemma is_prefix_absent : forall c l s p1 p2 tail,
  ~ In c s -> s = p1 ++ p2 -> p2 <> [] ->
  is_prefix (c :: l) (p2 ++ tail) = false.
Proof.
  intros c l s p1 p2 tail Hin E Hne. destruct p2 as [|d p2]; [contradiction|].
  cbn [app is_prefix]. destruct (N.eqb c d) eqn:Ecd; [|reflexivity].
  apply N.eqb_eq in Ecd. subst d. exfalso. apply Hin. rewrite E.
  apply in_or_app. right. left. reflexivity.
Qed.

(** An expression that starts with a literal matches at no place of a
    stretch of text that lacks the first character of the literal. *)
Lemma literal_no_match : forall c l r' s p1 p2 tail,
  ~ In c s -> s = p1 ++ p2 -> p2 <> [] ->
  match_here (Lit (c :: l) +++ r')%re (p2 ++ tail) = None.
Proof.
  intros c l r' s p1 p2 tail Hin E Hne. unfold match_here. cbn [rmatch].
  rewrite (@is_prefix_absent c l s p1 p2 tail Hin E Hne). reflexivity.
Qed.

(** The expressions of [cleanJsonString] where they stand. *)

Lemma line_comment_no_match : forall s,
  is_prefix (lit "//") s = false -> match_here rx_line_comment s = None.
Proof.
  intros s H. unfold match_here, rx_line_comment. cbn [rmatch]. rewrite H.
  reflexivity.
Qed.

Lemma block_comment_no_match : forall s,
  is_prefix (lit "/*") s = false -> match_here rx_block_comment s = None.
Proof.
  intros s H. unfold match_here, rx_block_comment. cbn [rmatch]. rewrite H.
  reflexivity.
Qed.

(** A line comment runs to the end of its line. *)
Lemma line_comment_match : forall rest tail,
  Forall (fun c => negb (is_line_terminator c) = true) rest ->
  match tail with
  | [] => True
  | c :: _ => negb (is_line_terminator c) = false
  end ->
  match_here rx_line_comment (lit "//" ++ rest ++ tail) = Some (tail, None).
Proof.
  intros rest tail Hrest Htail. unfold match_here, rx_line_comment.
  cbn [rmatch]. rewrite is_prefix_app, skipn_length_app.
  apply (@star_greedy_run _ (fun c => negb (is_line_terminator c)));
    [reflexivity|exact Hrest|exact Htail|rewrite length_app; lia|].
  destruct tail as [|c tail]; [reflexivity|].
  apply negb_false_iff in Htail. rewrite Htail. reflexivity.
Qed.

Section CommaBefore.
Variable closer : char.
Hypothesis closer_not_space : is_js_space closer = false.

Lemma comma_no_match : forall s,
  comma_before closer s = false -> match_here (rx_comma closer) s = None.
Proof.
  intros s H. unfold match_here, rx_comma. cbn [rmatch].
  destruct s as [|c s]; [reflexivity|].
  change (lit ",") with [44%N]. cbn [is_prefix List.length skipn].
  cbn [comma_before] in H. rewrite N.eqb_sym.
  destruct (N.eqb c 44); [|reflexivity]. cbn [andb] in *.
  apply (@star_rejects _ is_js_space); [reflexivity|].
  intros ws s2 E Hws. destruct s2 as [|d s2]; [reflexivity|].
  cbn [is_prefix]. destruct (N.eqb closer d) eqn:Ed; [|reflexivity].
  apply N.eqb_eq in Ed. subst d. exfalso.
  rewrite E, trimStart_spaces in H by exact Hws.
  cbn [trimStart] in H. rewrite closer_not_space, N.eqb_refl in H.
  discriminate H.
Qed.

Lemma comma_match : forall ws b,
  Forall (fun c => is_js_space c = true) ws ->
  match_here (rx_comma closer) (lit "," ++ ws ++ closer :: b) = Some (b, None).
Proof.
  intros ws b Hws. unfold match_here, rx_comma. cbn [rmatch].
  rewrite is_prefix_app, skipn_length_app.
  apply (@star_greedy_run _ is_js_space);
    [reflexivity|exact Hws|exact closer_not_space|rewrite length_app; lia|].
  cbn [is_prefix List.length skipn]. rewrite N.eqb_refl. reflexivity.
Qed.

End CommaBefore.

Lemma rx_comma_brace_eq : rx_comma_brace = rx_comma 125%N.
Proof. reflexivity. Qed.

Lemma rx_comma_bracket_eq : rx_comma_bracket = rx_comma 93%N.
Proof. reflexivity. Qed.

(** X13.  [cleanJsonString] leaves alone a text that holds no comment marker
    and no comma followed, after optional white space, by a closing brace or
    bracket. *)
Theorem cleanJsonString_conservative : forall jsonStr,
  includes (lit "//") jsonStr = false ->
  includes (lit "/*") jsonStr = false ->
  somewhere (comma_before 125%N) jsonStr = false ->
  somewhere (comma_before 93%N) jsonStr = false ->
  cleanJsonString jsonStr = jsonStr.
Proof.
  intros s H1 H2 H3 H4. unfold cleanJsonString.
  rewrite (@replace_global_unchanged rx_line_comment).
  2:{ intros p1 p2 E. apply line_comment_no_match.
      exact (includes_suffix _ _ _ H1 E). }
  rewrite (@replace_global_unchanged rx_block_comment).
  2:{ intros p1 p2 E. apply block_comment_no_match.
      exact (includes_suffix _ _ _ H2 E). }
  rewrite rx_comma_brace_eq, rx_comma_bracket_eq.
  rewrite (@replace_global_unchanged (rx_comma 125%N)).
  2:{ intros p1 p2 E. apply comma_no_match; [reflexivity|].
      exact (somewhere_suffix _ _ _ H3 E). }
  apply replace_global_unchanged.
  intros p1 p2 E. apply comma_no_match; [reflexivity|].
  exact (somewhere_suffix _ _ _ H4 E).
Qed.

(** Neither marker of a comment occurs in a text without slash. *)
Lemma no_slash_unchanged : forall (r' : regex) (l : str) (rep s : str),
  ~ In 47%N s ->
  replace_global (Lit (47%N :: l) +++ r')%re rep s = s.
Proof.
  intros r' l rep s H. apply replace_global_unchanged.
  intros p1 p2 E. unfold match_here. cbn [rmatch].
  destruct p2 as [|d p2]; [reflexivity|].
  assert (Hp : is_prefix (47%N :: l) (d :: p2) = false).
  { rewrite <- (app_nil_r (d :: p2)).
    apply (@is_prefix_absent _ l _ _ _ [] H E). discriminate. }
  rewrite Hp. reflexivity.
Qed.

Lemma no_comma_unchanged : forall closer rep s,
  ~ In 44%N s -> replace_global (rx_comma closer) rep s = s.
Proof.
  intros closer rep s H. apply replace_global_unchanged.
  intros p1 p2 E. unfold match_here, rx_comma. cbn [rmatch].
  destruct p2 as [|d p2]; [reflexivity|].
  assert (Hp : is_prefix (lit ",") (d :: p2) = false).
  { rewrite <- (app_nil_r (d :: p2)).
    apply (@is_prefix_absent _ [] _ _ _ [] H E). discriminate. }
  rewrite Hp. reflexivity.
Qed.

(** X14.  Two slashes start a comment wherever they stand, inside a string
    literal too: the text from them to the end of the line is dropped. *)
Theorem cleanJsonString_drops_after_slashes : forall pre rest tail,
  ~ In 47%N pre ->
  Forall (fun c => is_line_terminator c = false) rest ->
  match tail with
  | [] => True
  | c :: _ => is_line_terminator c = true
  end ->
  cleanJsonString (pre ++ lit "//" ++ rest ++ tail)
  = cleanJsonString (pre ++ tail).
Proof.
  intros pre rest tail Hpre Hrest Htail.
  assert (E : replace_global rx_line_comment [] (pre ++ lit "//" ++ rest ++ tail)
              = replace_global rx_line_comment [] (pre ++ tail)).
  { unfold replace_global.
    assert (Hcopy : forall tl p1 p2, pre = p1 ++ p2 -> p2 <> [] ->
                      match_here rx_line_comment (p2 ++ tl) = None).
    { intros tl p1 p2 E Hne. apply line_comment_no_match.
      exact (@is_prefix_absent _ [47%N] _ _ _ tl Hpre E Hne). }
    rewrite (@replace_global_scan_copy _ _ pre [] (lit "//" ++ rest ++ tail))
      by (apply Hcopy).
    rewrite (@replace_global_scan_copy _ _ pre [] tail) by (apply Hcopy).
    f_equal. rewrite app_assoc.
    rewrite (@replace_global_scan_match _ _ (lit "//" ++ rest) tail None).
    - cbn [getSubstitution app]. apply replace_global_scan_empty_seen.
    - discriminate.
    - rewrite <- app_assoc. apply line_comment_match.
      + eapply Forall_impl; [|exact Hrest]. cbn. intros c Hc. rewrite Hc.
        reflexivity.
      + destruct tail as [|c tail]; [exact I|]. rewrite Htail. reflexivity. }
  unfold cleanJsonString. rewrite E. reflexivity.
Qed.

(** X15.  A comma that only white space separates from a closing brace or
    bracket is removed, with that white space. *)
Theorem cleanJsonString_trailing_comma : forall closer a ws b,
  closer = 125%N \/ closer = 93%N ->
  ~ In 47%N a -> ~ In 44%N a -> ~ In 47%N b -> ~ In 44%N b ->
  Forall (fun c => is_js_space c = true) ws ->
  cleanJsonString (a ++ lit "," ++ ws ++ closer :: b) = a ++ closer :: b.
Proof.
  intros closer a ws b Hcl Ha1 Ha2 Hb1 Hb2 Hws.
  assert (Hnot : is_js_space closer = false)
    by (destruct Hcl; subst; reflexivity).
  assert (Hslash : ~ In 47%N (a ++ lit "," ++ ws ++ closer :: b)).
  { intros Hin. apply in_app_or in Hin as [Hin|Hin]; [tauto|].
    apply in_app_or in Hin as [Hin|Hin];
      [cbv in Hin; intuition discriminate|].
    apply in_app_or in Hin as [Hin|Hin].
    - rewrite Forall_forall in Hws. apply Hws in Hin. discriminate Hin.
    - destruct Hin as [Hin|Hin]; [|tauto].
      destruct Hcl; subst; discriminate. }
  assert (Hcomma : ~ In 44%N (a ++ closer :: b)).
  { intros Hin. apply in_app_or in Hin as [Hin|[Hin|Hin]]; try tauto.
    destruct Hcl; subst; discriminate. }
  (* the pass for [closer] *)
  assert (Hpass : replace_global (rx_comma closer) [closer]
                    (a ++ lit "," ++ ws ++ closer :: b) = a ++ closer :: b).
  { unfold replace_global. rewrite replace_global_scan_copy.
    - f_equal.
      replace (lit "," ++ ws ++ closer :: b)
        with ((lit "," ++ ws ++ [closer]) ++ b)
        by (rewrite <- !app_assoc; reflexivity).
      rewrite (@replace_global_scan_match _ _ _ b None).
      + rewrite getSubstitution_plain
          by (intros [Hin|[]]; destruct Hcl; subst; discriminate).
        cbn [app]. f_equal.
        rewrite <- (app_nil_r b) at 1. rewrite replace_global_scan_copy.
        * rewrite replace_global_scan_end by reflexivity. apply app_nil_r.
        * intros p1 p2 E Hne.
          exact (@literal_no_match 44%N [] _ _ _ _ _ Hb2 E Hne).
      + discriminate.
      + rewrite <- !app_assoc. apply comma_match; assumption.
    - intros p1 p2 E Hne.
      exact (@literal_no_match 44%N [] _ _ _ _ _ Ha2 E Hne). }
  unfold cleanJsonString.
  rewrite (@no_slash_unchanged _ _ _ _ Hslash
           : replace_global rx_line_comment _ _ = _).
  rewrite (@no_slash_unchanged _ _ _ _ Hslash
           : replace_global rx_block_comment _ _ = _).
  rewrite rx_comma_brace_eq, rx_comma_bracket_eq.
  destruct Hcl; subst closer.
  - change (lit "}") with [125%N]. rewrite Hpass.
    apply no_comma_unchanged. exact Hcomma.
  - replace (replace_global (rx_comma 125%N) (lit "}")
               (a ++ lit "," ++ ws ++ 93%N :: b))
      with (a ++ lit "," ++ ws ++ 93%N :: b); [exact Hpass|].
    symmetry. unfold replace_global. rewrite replace_global_scan_copy
      by (intros p1 p2 E Hne;
          exact (@literal_no_match 44%N [] _ _ _ _ _ Ha2 E Hne)).
    f_equal. change (lit "," ++ ws ++ 93%N :: b) with (44%N :: ws ++ 93%N :: b).
    cbn [replace_global_scan].
    rewrite comma_no_match.
    + f_equal. rewrite <- (app_nil_r (ws ++ 93%N :: b)) at 1.
      rewrite replace_global_scan_copy.
      * rewrite replace_global_scan_end by reflexivity. apply app_nil_r.
      * intros p1 p2 E Hne.
        refine (@literal_no_match 44%N [] _ _ _ _ _ _ E Hne).
        intros Hin. apply in_app_or in Hin as [Hin|[Hin|Hin]].
        -- rewrite Forall_forall in Hws. apply Hws in Hin. discriminate Hin.
        -- discriminate Hin.
        -- tauto.
    + reflexivity.
    + cbn [comma_before]. rewrite trimStart_spaces by exact Hws. reflexivity.
Qed.

(** ** What the adapters report *)

Section Traces.
Context {RT : JSRuntime}.

Lemma streamedText_app : forall tr1 tr2,
  streamedText (tr1 ++ tr2) = streamedText tr1 ++ streamedText tr2.
Proof. intros. unfold streamedText. apply flat_map_app. Qed.

Lemma reports_nil : forall onStream onStatus fullText,
  reports onStream onStatus fullText [] fullText.
Proof.
  intros. unfold reports. repeat split; try constructor.
  intros _. cbn. symmetry. apply app_nil_r.
Qed.

Lemma reports_app : forall onStream onStatus f0 tr1 f1 tr2 f2,
  reports onStream onStatus f0 tr1 f1 ->
  reports onStream onStatus f1 tr2 f2 ->
  reports onStream onStatus f0 (tr1 ++ tr2) f2.
Proof.
  intros onStream onStatus f0 tr1 f1 tr2 f2 (A1 & B1 & C1 & D1)
         (A2 & B2 & C2 & D2).
  unfold reports. repeat split.
  - apply Forall_app. tauto.
  - intros H. rewrite (B2 H), (B1 H), streamedText_app, app_assoc. reflexivity.
  - intros H. apply Forall_app. tauto.
  - intros H. apply Forall_app. tauto.
Qed.

Lemma reports_status : forall onStream fullText status,
  reports onStream true fullText [Status status] fullText.
Proof.
  intros. unfold reports. split; [repeat constructor|]. split; [|split].
  - intros _. cbn. symmetry. apply app_nil_r.
  - intros _. repeat constructor.
  - discriminate.
Qed.

Lemma reports_delta : forall onStatus fullText chunk,
  reports true onStatus fullText [Delta chunk] (fullText ++ toString chunk).
Proof.
  intros. unfold reports. split; [repeat constructor|]. split; [|split].
  - intros _. cbn. rewrite app_nil_r. reflexivity.
  - discriminate.
  - intros _. repeat constructor.
Qed.

Lemma reports_silent : forall onStatus fullText fullText',
  reports false onStatus fullText [] fullText'.
Proof.
  intros. unfold reports. split; [constructor|]. split; [discriminate|].
  split; intros _; constructor.
Qed.

Lemma sseDispatch_reports : forall onStream onStatus fullText data,
  match sseDispatch onStream onStatus fullText data with
  | (tr, Normal fullText') => reports onStream onStatus fullText tr fullText'
  | (tr, Throw _) => tr = []
  end.
Proof.
  intros onStream onStatus fullText data. unfold sseDispatch.
  destruct (getStrict (Some data) (lit "type")) as [type|e]; [|reflexivity].
  unfold lift. rewrite bind_normal. cbn [fst snd app].
  destruct (is_string type (lit "status_update") && onStatus) eqn:E1.
  { apply andb_true_iff in E1 as [_ ->]. cbn. apply reports_status. }
  destruct (is_string type (lit "meta_update") && onStatus) eqn:E2.
  { apply andb_true_iff in E2 as [_ ->]. cbn. apply reports_status. }
  destruct (is_string type (lit "content") || _)%bool; [|apply reports_nil].
  destruct onStream; cbn.
  - apply reports_delta.
  - apply reports_silent.
Qed.

Lemma sseLine_reports : forall onStream onStatus fullText line,
  exists tr fullText',
    sseLine onStream onStatus fullText line = (tr, Normal fullText')
    /\ reports onStream onStatus fullText tr fullText'.
Proof.
  intros onStream onStatus fullText line. unfold sseLine.
  destruct (is_prefix (lit "data: ") (trim line));
    [|eexists _, _; split; [reflexivity|apply reports_nil]].
  destruct (str_eqb _ (lit "[DONE]"));
    [eexists _, _; split; [reflexivity|apply reports_nil]|].
  unfold json_parse. destruct (JSON_parse _) as [data|].
  - rewrite bind_ret_l.
    pose proof (sseDispatch_reports onStream onStatus fullText data) as H.
    destruct (sseDispatch onStream onStatus fullText data) as [tr [f|e]].
    + eexists _, _. split; [reflexivity|exact H].
    + subst tr. eexists _, _. split; [reflexivity|apply reports_nil].
  - eexists _, _. split; [reflexivity|apply reports_nil].
Qed.

Lemma foldM_sseLine_reports : forall onStream onStatus lines fullText,
  exists tr fullText',
    foldM (sseLine onStream onStatus) fullText lines = (tr, Normal fullText')
    /\ reports onStream onStatus fullText tr fullText'.
Proof.
  intros onStream onStatus. induction lines as [|line lines IH]; intros fullText.
  - eexists _, _. split; [reflexivity|apply reports_nil].
  - cbn [foldM].
    destruct (sseLine_reports onStream onStatus fullText line)
      as (tr1 & f1 & E1 & R1).
    rewrite E1. destruct (IH f1) as (tr2 & f2 & E2 & R2).
    rewrite bind_normal, E2. eexists _, _. split; [reflexivity|].
    exact (reports_app R1 R2).
Qed.

Lemma readChunk_reports : forall onStream onStatus st value,
  exists tr st',
    readChunk onStream onStatus st value = (tr, Normal st')
    /\ reports onStream onStatus (rs_fullText st) tr (rs_fullText st').
Proof.
  intros onStream onStatus st value. unfold readChunk.
  destruct (decode (rs_decoder st) value) as [dec text].
  destruct (foldM_sseLine_reports onStream onStatus
              (removelast (split newline (rs_buffer st ++ text)))
              (rs_fullText st)) as (tr & f & E & R).
  rewrite E, bind_normal. cbn [ret fst snd]. rewrite app_nil_r.
  eexists _, _. split; [reflexivity|exact R].
Qed.

Lemma readLoop_reports : forall onStream onStatus chunks st,
  exists tr st',
    foldM (readChunk onStream onStatus) st chunks = (tr, Normal st')
    /\ reports onStream onStatus (rs_fullText st) tr (rs_fullText st').
Proof.
  intros onStream onStatus. induction chunks as [|c chunks IH]; intros st.
  - eexists _, _. split; [reflexivity|apply reports_nil].
  - cbn [foldM].
    destruct (readChunk_reports onStream onStatus st c)
      as (tr1 & st1 & E1 & R1).
    rewrite E1. destruct (IH st1) as (tr2 & st2 & E2 & R2).
    rewrite bind_normal, E2. eexists _, _. split; [reflexivity|].
    exact (reports_app R1 R2).
Qed.

(** X9.  The orchestration-stream adapter issues at most one request, the
    first thing it does; it calls a callback only if it was given; and the
    text it returns is what it streamed, with no source. *)
Theorem stream_adapter_reports_what_it_returns :
  forall (w : World) (settings : AppSettings) (prompt : str) (workflow : value)
         (sessionId : str) (errorLog : option str) (onStream onStatus : bool),
  let out := callPythonBackendStream w settings prompt workflow sessionId
               errorLog onStream onStatus in
  let url := strip_trailing_slash (pythonBackendUrl settings)
             ++ lit "/api/chat/stream" in
  (fst out = []
   \/ exists init rest,
        fst out = Fetched url init :: rest
        /\ req_method init = lit "POST"
        /\ Forall (fun e => is_request e = false) rest)
  /\ (onStream = false -> Forall (fun e => is_delta e = false) (fst out))
  /\ (onStatus = false -> Forall (fun e => is_status e = false) (fst out))
  /\ (forall text sources,
        snd out = Normal (text, sources) ->
        sources = [] /\ (onStream = true -> streamedText (fst out) = text)).
Proof.
  intros w settings prompt workflow sessionId errorLog onStream onStatus.
  cbv zeta. unfold callPythonBackendStream.
  destruct (str_eqb (pythonBackendUrl settings) []).
  { cbn. split; [left; reflexivity|].
    repeat split; try constructor; discriminate. }
  unfold do_fetch, emit, lift.
  match goal with
  | |- context [fetch w ?u ?i] => destruct (fetch w u i) as [response|e]
  end.
  2:{ cbn. split; [right; eexists _, _; repeat split; constructor|].
      repeat split; try (repeat constructor); discriminate. }
  cbn [bind app fst snd].
  destruct (resp_ok response); cbn [negb].
  2:{ cbn. split; [right; eexists _, _; repeat split; constructor|].
      repeat split; try (repeat constructor); discriminate. }
  destruct (resp_body response) as [[chunks failure]|].
  2:{ cbn. split; [right; eexists _, _; repeat split; constructor|].
      repeat split; try (repeat constructor); discriminate. }
  unfold readLoop.
  destruct (readLoop_reports onStream onStatus chunks reader_init)
    as (tr & st & E & (Ra & Rb & Rc & Rd)).
  rewrite E, bind_normal. cbn [rs_fullText reader_init app] in *.
  destruct failure as [e|]; cbn [lift ret fst snd]; rewrite !app_nil_r.
  - split; [right; eexists _, _;
            split; [reflexivity|split; [reflexivity|exact Ra]]|].
    split; [intros H; constructor; [reflexivity|exact (Rc H)]|].
    split; [intros H; constructor; [reflexivity|exact (Rd H)]|].
    intros text sources H. discriminate H.
  - split; [right; eexists _, _;
            split; [reflexivity|split; [reflexivity|exact Ra]]|].
    split; [intros H; constructor; [reflexivity|exact (Rc H)]|].
    split; [intros H; constructor; [reflexivity|exact (Rd H)]|].
    intros text sources H. injection H as <- <-. split; [reflexivity|].
    intros Hs. cbn. rewrite (Rb Hs). reflexivity.
Qed.

End Traces.

Section Traces2.
Context {RT : JSRuntime}.

Lemma geminiChunk_reports : forall onStream fullText allSources chunk,
  exists tr fullText' allSources',
    geminiChunk onStream (fullText, allSources) chunk
    = (tr, Normal (fullText', allSources'))
    /\ reports onStream false fullText tr fullText'.
Proof.
  intros onStream fullText allSources chunk. unfold geminiChunk.
  destruct (chunk_text chunk) as [chunkText|].
  - destruct (negb (str_eqb chunkText [])).
    + destruct onStream; cbn.
      * destruct (chunk_grounding chunk); cbn; eexists _, _, _;
          (split; [reflexivity
                  |apply (reports_delta false fullText (JStr chunkText))]).
      * destruct (chunk_grounding chunk); cbn; eexists _, _, _;
          (split; [reflexivity|apply reports_silent]).
    + rewrite bind_ret_l. destruct (chunk_grounding chunk); eexists _, _, _;
        (split; [reflexivity|apply reports_nil]).
  - rewrite bind_ret_l. destruct (chunk_grounding chunk); eexists _, _, _;
      (split; [reflexivity|apply reports_nil]).
Qed.

Lemma geminiChunks_reports : forall onStream chunks fullText allSources,
  exists tr fullText' allSources',
    foldM (geminiChunk onStream) (fullText, allSources) chunks
    = (tr, Normal (fullText', allSources'))
    /\ reports onStream false fullText tr fullText'.
Proof.
  intros onStream. induction chunks as [|c chunks IH]; intros fullText allSources.
  - eexists _, _, _. split; [reflexivity|apply reports_nil].
  - cbn [foldM].
    destruct (geminiChunk_reports onStream fullText allSources c)
      as (tr1 & f1 & s1 & E1 & R1).
    rewrite E1. destruct (IH f1 s1) as (tr2 & f2 & s2 & E2 & R2).
    rewrite bind_normal, E2. eexists _, _, _. split; [reflexivity|].
    exact (reports_app R1 R2).
Qed.

(** X6.  The cloud-SDK adapter reports nothing but deltas, none without
    [onStream], and the text it returns is what it streamed. *)
Theorem sdk_adapter_reports_what_it_returns :
  forall (w : World) (settings : AppSettings) (prompt systemInstruction : str)
         (onStream : bool),
  let out := callGoogleGemini w settings prompt systemInstruction onStream in
  Forall (fun e => is_delta e = true) (fst out)
  /\ (onStream = false -> fst out = [])
  /\ (forall text sources,
        snd out = Normal (text, sources) ->
        onStream = true -> streamedText (fst out) = text).
Proof.
  intros w settings prompt systemInstruction onStream. cbv zeta.
  unfold callGoogleGemini.
  destruct (str_eqb _ []).
  { cbn. split; [constructor|]. split; [reflexivity|discriminate]. }
  match goal with
  | |- context [generateContentStream w ?r] =>
      destruct (generateContentStream w r) as [[chunks failure]|e]
  end.
  2:{ cbn. split; [constructor|]. split; [reflexivity|discriminate]. }
  unfold lift. rewrite bind_normal. cbn [fst snd app].
  destruct (geminiChunks_reports onStream chunks [] [])
    as (tr & f & s & E & (Ra & Rb & Rc & Rd)).
  match goal with
  | |- context [foldM ?g ?a ?l] =>
      assert (E' : foldM g a l = (tr, Normal (f, s))) by exact E; rewrite E'
  end.
  rewrite bind_normal. cbn [app] in Rb.
  assert (Hd : Forall (fun e => is_delta e = true) tr).
  { specialize (Rd eq_refl). rewrite Forall_forall in *.
    intros e He. specialize (Ra e He). specialize (Rd e He).
    destruct e; [discriminate Ra|reflexivity|discriminate Rd]. }
  assert (Hn : onStream = false -> tr = []).
  { intros H. specialize (Rc H). destruct tr as [|e tr]; [reflexivity|].
    inversion Hd; subst. inversion Rc; subst. congruence. }
  destruct failure as [e|]; cbn [lift ret fst snd]; rewrite !app_nil_r.
  - split; [exact Hd|]. split; [exact Hn|]. discriminate.
  - split; [exact Hd|]. split; [exact Hn|].
    intros text sources H Hs. injection H as <- _. rewrite (Rb Hs). reflexivity.
Qed.


(** X10.  Once the orchestration server has answered with a successful
    status and a body that ends normally, the call returns normally whatever
    the bytes of the body are: ill-formed UTF-8, lines that are not events,
    events that are not JSON or that are [null] are passed over. *)
Theorem stream_content_never_aborts :
  forall (w : World) (settings : AppSettings) (prompt : str) (workflow : value)
         (sessionId : str) (errorLog : option str) (onStream onStatus : bool)
         (response : http_response) (chunks : list (list Byte.byte)),
  pythonBackendUrl settings <> [] ->
  (forall url init, fetch w url init = Normal response) ->
  resp_ok response = true ->
  resp_body response = Some (chunks, None) ->
  exists init tr text,
    callPythonBackendStream w settings prompt workflow sessionId errorLog
      onStream onStatus
    = (Fetched (strip_trailing_slash (pythonBackendUrl settings)
                ++ lit "/api/chat/stream") init :: tr,
       Normal (text, []))
    /\ Forall (fun e => is_request e = false) tr.
Proof.
  intros w settings prompt workflow sessionId errorLog onStream onStatus
         response chunks Hurl Hfetch Hok Hbody.
  unfold callPythonBackendStream. apply str_eqb_neq in Hurl. rewrite Hurl.
  unfold do_fetch, emit, lift. rewrite Hfetch. cbn [bind app fst snd].
  rewrite Hok, Hbody. cbn [negb]. unfold readLoop.
  destruct (readLoop_reports onStream onStatus chunks reader_init)
    as (tr & st & E & (Ra & _)).
  rewrite E, bind_normal. cbn [ret fst snd]. rewrite app_nil_r.
  eexists _, tr, _. split; [reflexivity|exact Ra].
Qed.

End Traces2.

(** ** Lines of the orchestration stream *)

(** *** White space around a line of the stream *)

Lemma trimStart_split : forall s,
  exists ws, Forall (fun c => is_js_space c = true) ws /\ s = ws ++ trimStart s.
Proof.
  induction s as [|c s (ws & Hws & E)].
  - exists []. split; [constructor|reflexivity].
  - cbn [trimStart]. destruct (is_js_space c) eqn:Ec.
    + exists (c :: ws). split; [constructor; assumption|].
      cbn [app]. rewrite <- E. reflexivity.
    + exists []. split; [constructor|reflexivity].
Qed.

Lemma trimEnd_split : forall s,
  exists ws, Forall (fun c => is_js_space c = true) ws /\ s = trimEnd s ++ ws.
Proof.
  intros s. unfold trimEnd.
  destruct (trimStart_split (rev s)) as (ws & Hws & E).
  exists (rev ws). split.
  - apply Forall_rev. exact Hws.
  - rewrite <- rev_app_distr, <- E, rev_involutive. reflexivity.
Qed.

Lemma trimEnd_spaces : forall s ws,
  Forall (fun c => is_js_space c = true) ws -> trimEnd (s ++ ws) = trimEnd s.
Proof.
  intros s ws H. unfold trimEnd. rewrite rev_app_distr.
  rewrite trimStart_spaces by (apply Forall_rev; exact H). reflexivity.
Qed.

Lemma trimStart_app : forall s t,
  trimStart s <> [] -> trimStart (s ++ t) = trimStart s ++ t.
Proof.
  induction s as [|c s IH]; intros t H; [contradiction H; reflexivity|].
  cbn [app trimStart] in *. destruct (is_js_space c); [apply IH; exact H|].
  reflexivity.
Qed.

Lemma trimStart_all_spaces : forall s,
  trimStart s = [] -> Forall (fun c => is_js_space c = true) s.
Proof.
  induction s as [|c s IH]; intros H; [constructor|].
  cbn [trimStart] in H. destruct (is_js_space c) eqn:Ec; [|discriminate].
  constructor; [exact Ec|apply IH; exact H].
Qed.

Lemma trim_spaces : forall ws1 s ws2,
  Forall (fun c => is_js_space c = true) ws1 ->
  Forall (fun c => is_js_space c = true) ws2 ->
  trim (ws1 ++ s ++ ws2) = trim s.
Proof.
  intros ws1 s ws2 H1 H2. unfold trim. rewrite trimStart_spaces by exact H1.
  destruct (trimStart s) as [|c r] eqn:E.
  - pose proof (trimStart_all_spaces _ E) as Hs.
    rewrite <- (app_nil_r (s ++ ws2)), trimStart_spaces
      by (apply Forall_app; split; assumption).
    reflexivity.
  - rewrite trimStart_app by (rewrite E; discriminate).
    rewrite E. apply trimEnd_spaces. exact H2.
Qed.

Lemma is_prefix_trans_app : forall p s t,
  is_prefix p s = true -> is_prefix p (s ++ t) = true.
Proof.
  induction p as [|x p IH]; intros s t H; [reflexivity|].
  destruct s as [|y s]; [discriminate|]. cbn [app is_prefix] in *.
  apply andb_true_iff in H as [H1 H2]. rewrite H1, (IH _ _ H2). reflexivity.
Qed.

Lemma is_prefix_split : forall p s,
  is_prefix p s = true -> s = p ++ skipn (List.length p) s.
Proof.
  induction p as [|x p IH]; intros s H; [reflexivity|].
  destruct s as [|y s]; [discriminate|]. cbn [is_prefix] in H.
  apply andb_true_iff in H as [H1 H2]. apply N.eqb_eq in H1. subst y.
  cbn [app List.length skipn]. rewrite <- (IH _ H2). reflexivity.
Qed.

(** The first occurrence of the marker in a line that starts, after white
    space, with the marker. *)
Lemma remove_marker : forall ws rest,
  Forall (fun c => is_js_space c = true) ws ->
  replace_first (Lit (lit "data: ")) [] (ws ++ lit "data: " ++ rest)
  = ws ++ rest.
Proof.
  intros ws rest Hws. unfold replace_first, exec.
  rewrite search_skip.
  - rewrite (@search_here _ _ _ rest None).
    + cbn [m_before m_text m_after getSubstitution app].
      rewrite app_nil_r, rev_involutive. reflexivity.
    + unfold match_here. cbn [rmatch].
      rewrite is_prefix_app, skipn_length_app. reflexivity.
  - intros p1 p2 E Hne. unfold match_here. cbn [rmatch].
    destruct p2 as [|c p2]; [contradiction|].
    assert (Hc : is_js_space c = true).
    { rewrite Forall_forall in Hws. apply Hws. rewrite E.
      apply in_or_app. right. left. reflexivity. }
    change (lit "data: ") with (100%N :: lit "ata: ").
    cbn [app is_prefix]. destruct (N.eqb 100 c) eqn:Ec; [|reflexivity].
    apply N.eqb_eq in Ec. subst c. discriminate Hc.
Qed.

Section LineSpaces.
Context {RT : JSRuntime}.

(** X11.  White space before and after a line of the stream plays no part in
    the way the line is handled: in particular a carriage return before the
    line feed, as servers that end their lines with CR LF send. *)
Theorem sse_line_ignores_surrounding_space :
  forall (onStream onStatus : bool) (fullText ws1 line ws2 : str),
  Forall (fun c => is_js_space c = true) ws1 ->
  Forall (fun c => is_js_space c = true) ws2 ->
  sseLine onStream onStatus fullText (ws1 ++ line ++ ws2)
  = sseLine onStream onStatus fullText line.
Proof.
  intros onStream onStatus fullText ws1 line ws2 H1 H2. unfold sseLine.
  rewrite trim_spaces by assumption.
  destruct (is_prefix (lit "data: ") (trim line)) eqn:Ep; [|reflexivity].
  destruct (trimStart_split line) as (ws0 & H0 & E0).
  destruct (trimEnd_split (trimStart line)) as (ws3 & H3 & E3).
  fold (trim line) in E3.
  assert (Hstart : is_prefix (lit "data: ") (trimStart line) = true)
    by (rewrite E3; apply is_prefix_trans_app; exact Ep).
  apply is_prefix_split in Hstart.
  remember (skipn (List.length (lit "data: ")) (trimStart line)) as rest.
  assert (El : line = ws0 ++ lit "data: " ++ rest)
    by (rewrite <- Hstart; exact E0).
  clear Heqrest Hstart E0 E3 Ep. subst line.
  rewrite (remove_marker rest H0).
  replace (ws1 ++ (ws0 ++ lit "data: " ++ rest) ++ ws2)
    with ((ws1 ++ ws0) ++ lit "data: " ++ (rest ++ ws2))
    by (rewrite <- !app_assoc; reflexivity).
  rewrite remove_marker by (apply Forall_app; split; assumption).
  assert (Et : trim (ws0 ++ rest) = trim rest).
  { rewrite <- (app_nil_r rest) at 1. apply trim_spaces; [exact H0|constructor]. }
  rewrite Et.
  rewrite (@trim_spaces (ws1 ++ ws0) rest ws2)
    by (try apply Forall_app; try split; assumption).
  reflexivity.
Qed.

(** X12.  The text that follows the last line feed stays in the buffer and
    is never handled.  Bytes that arrive after what has been read and bring
    no line feed cause no callback and add nothing to the text, even when
    they complete an event: an event that the server does not end with a
    line feed is lost. *)
Theorem stream_unterminated_line_is_dropped :
  forall (onStream onStatus : bool) (chunks : list (list Byte.byte))
         (extra : list Byte.byte) (tr : list event) (st : reader_state),
  readLoop onStream onStatus chunks = (tr, Normal st) ->
  ~ In newline (snd (decode (rs_decoder st) extra)) ->
  exists st',
    readLoop onStream onStatus (chunks ++ [extra]) = (tr, Normal st')
    /\ rs_fullText st' = rs_fullText st
    /\ rs_buffer st' = rs_buffer st ++ snd (decode (rs_decoder st) extra).
Proof.
  intros onStream onStatus chunks extra tr st E Hno.
  assert (Hbuf : ~ In newline (rs_buffer st)).
  { rewrite readLoop_whole in E. unfold readLoop in E. cbn [foldM] in E.
    rewrite bind_ret_r in E.
    destruct (readChunk_normal onStream onStatus reader_init (List.concat chunks))
      as (tr' & st' & E' & H').
    rewrite E' in E. injection E as _ <-. exact H'. }
  unfold readLoop in *. rewrite foldM_app, E, bind_normal.
  cbn [foldM]. rewrite bind_ret_r. unfold readChunk.
  destruct (decode (rs_decoder st) extra) as [dec text]. cbn [snd] in *.
  rewrite split_no_sep.
  - cbn [removelast last foldM]. rewrite bind_ret_l, or_else_nil.
    cbn [ret fst snd]. rewrite app_nil_r. eexists. split; [reflexivity|].
    split; reflexivity.
  - intros Hin. apply in_app_or in Hin. tauto.
Qed.

End LineSpaces.

(** ** Extracted issues and replies without tagged region *)

(** *** Decimal renderings *)

Lemma lit_injective : forall a b, lit a = lit b -> a = b.
Proof.
  intros a b H. unfold lit in H.
  rewrite <- (string_of_list_ascii_of_string a),
          <- (string_of_list_ascii_of_string b).
  f_equal. revert H. generalize (list_ascii_of_string a) (list_ascii_of_string b).
  induction l as [|x l IH]; intros [|y l'] H; try discriminate; [reflexivity|].
  cbn [map] in H. injection H as Hxy Hl. f_equal; [|apply IH; exact Hl].
  rewrite <- (ascii_N_embedding x), <- (ascii_N_embedding y), Hxy. reflexivity.
Qed.

Lemma nat_to_str_injective : forall n m, nat_to_str n = nat_to_str m -> n = m.
Proof.
  intros n m H. unfold nat_to_str in H. apply lit_injective in H.
  apply Unsigned.to_uint_inj.
  assert (E : Some (Nat.to_uint n) = Some (Nat.to_uint m))
    by (rewrite <- !NilEmpty.usu, H; reflexivity).
  injection E as E. exact E.
Qed.

Section Issues.
Context {RT : JSRuntime}.

Lemma value_or_null : forall a : option value,
  value_or a JNull = JNull \/ truthy (value_or a JNull) = true.
Proof.
  intros [x|]; [|left; reflexivity]. unfold value_or.
  destruct (truthy x) eqn:E; [right; exact E|left; reflexivity].
Qed.

Lemma normalizeIssues_shape : forall now l idx found,
  normalizeIssues now idx l = Normal found ->
  map issue_id found = map (issueId now) (seq idx (List.length found))
  /\ List.length found = List.length l
  /\ Forall issue_filled found.
Proof.
  intros now. induction l as [|x l IH]; intros idx found H.
  - injection H as <-. repeat split. constructor.
  - cbn [normalizeIssues] in H.
    destruct (normalizeIssue now idx x) as [i|e] eqn:Ei; [|discriminate].
    destruct (normalizeIssues now (S idx) l) as [others|e] eqn:Eo;
      [|discriminate].
    injection H as <-. destruct (IH _ _ Eo) as (Hid & Hlen & Hall).
    unfold normalizeIssue in Ei.
    destruct (getStrict (Some x) (lit "nodeId")) as [nodeId|e]; [|discriminate].
    injection Ei as <-. cbn [map List.length seq issue_id]. split; [|split].
    + rewrite Hid. reflexivity.
    + rewrite Hlen. reflexivity.
    + constructor; [|exact Hall]. unfold issue_filled.
      cbn [issue_severity issue_message issue_nodeId].
      split; [apply value_or_truthy; reflexivity|].
      split; [apply value_or_truthy; reflexivity|apply value_or_null].
Qed.

Lemma issueId_injective : forall now, Injective (issueId now).
Proof.
  intros now n m H. unfold issueId in H.
  apply app_inv_head in H. apply app_inv_head in H. apply app_inv_head in H.
  apply nat_to_str_injective. exact H.
Qed.

(** X16.  Whatever the reply, the issues extracted from it carry identifiers
    that number them from 0 in their order, all different; each has a
    severity and a message that are not empty (the defaults [warning] and
    [Unknown issue] fill what is missing), and a node that is [null] unless
    the reply gave one that is not 0, empty or false. *)
Theorem extracted_issues_are_normalized :
  forall (w : World) (textResponse : str),
  exists found,
    extractIssues w textResponse = ([], Normal found)
    /\ map issue_id found
       = map (issueId (date_now w)) (seq 0 (List.length found))
    /\ NoDup (map issue_id found)
    /\ Forall issue_filled found.
Proof.
  intros w text.
  assert (H : exists found,
             extractIssues w text = ([], Normal found)
             /\ map issue_id found
                = map (issueId (date_now w)) (seq 0 (List.length found))
             /\ Forall issue_filled found).
  { unfold extractIssues.
    destruct (captured _) as [raw|];
      [|exists []; repeat split; constructor].
    unfold json_parse. destruct (JSON_parse (cleanJsonString raw)) as [v|];
      [|exists []; repeat split; constructor].
    destruct v as [| b | n | s | l | kvs];
      try (exists []; repeat split; constructor).
    rewrite bind_ret_l. unfold lift, try_catch.
    destruct (normalizeIssues (date_now w) 0 l) as [found|e] eqn:E.
    - exists found. destruct (normalizeIssues_shape _ _ _ E) as (Hid & _ & Hall).
      split; [reflexivity|]. split; assumption.
    - exists []. repeat split; constructor. }
  destruct H as (found & E & Hid & Hall). exists found.
  split; [exact E|]. split; [exact Hid|]. split; [|exact Hall].
  rewrite Hid.
  apply Injective_map_NoDup; [apply issueId_injective|apply seq_NoDup].
Qed.

Lemma normalizeIssues_null : forall now l idx,
  In JNull l -> exists e, normalizeIssues now idx l = Throw e.
Proof.
  intros now. induction l as [|x l IH]; intros idx H; [destruct H|].
  cbn [normalizeIssues]. destruct H as [->|H].
  - eexists. reflexivity.
  - destruct (normalizeIssue now idx x); [|eexists; reflexivity].
    destruct (IH (S idx) H) as (e & ->). eexists. reflexivity.
Qed.

(** X17.  The issues are taken all or none: one [null] among the entries of
    the array makes the normalization of that entry throw, and the reply is
    then treated as having no issue. *)
Theorem one_null_issue_discards_all :
  forall (w : World) (textResponse rawIssues : str) (parsedIssues : list value),
  captured (exec rx_issues textResponse) = Some rawIssues ->
  JSON_parse (cleanJsonString rawIssues) = Some (JArr parsedIssues) ->
  In JNull parsedIssues ->
  extractIssues w textResponse = ([], Normal []).
Proof.
  intros w text raw l Hc Hp Hin. unfold extractIssues.
  rewrite Hc, (json_parse_some _ Hp), bind_ret_l.
  destruct (@normalizeIssues_null (date_now w) _ 0 Hin) as (e & E).
  unfold lift, try_catch. rewrite E. reflexivity.
Qed.

End Issues.

(** *** A reply without tagged region *)

Lemma search_absent : forall r s seen,
  (forall p1 p2, s = p1 ++ p2 -> match_here r p2 = None) ->
  search r seen s = None.
Proof.
  intros r. induction s as [|c s IH]; intros seen H.
  - cbn [search]. rewrite (H [] [] eq_refl). reflexivity.
  - cbn [search]. rewrite (H [] (c :: s) eq_refl). apply IH.
    intros p1 p2 E. apply (H (c :: p1) p2). rewrite E. reflexivity.
Qed.

Lemma exec_absent : forall l r' s,
  includes l s = false -> exec (Lit l +++ r')%re s = None.
Proof.
  intros l r' s H. unfold exec. apply search_absent.
  intros p1 p2 E. unfold match_here. cbn [rmatch].
  rewrite (includes_suffix _ _ _ H E). reflexivity.
Qed.

Lemma replace_first_absent : forall l r' rep s,
  includes l s = false -> replace_first (Lit l +++ r')%re rep s = s.
Proof.
  intros l r' rep s H. unfold replace_first. rewrite exec_absent by exact H.
  reflexivity.
Qed.

Section PlainReply.
Context {RT : JSRuntime}.

(** X18.  A reply that contains neither a fenced [json] block nor any of the
    three labels is returned as it is, trimmed: no workflow update, no
    issue, no related question, the sources of the provider, and the two
    default actions of the string table. *)
Theorem plain_reply_passes_through :
  forall (w : World) (lang textResponse : str) (sources : list source),
  includes (lit "```json") textResponse = false ->
  includes (lit "ISSUES_JSON:") textResponse = false ->
  includes (lit "SUGGESTED_ACTIONS:") textResponse = false ->
  includes (lit "RELATED_QUESTIONS:") textResponse = false ->
  parseResponse w lang textResponse sources
  = ([], Normal (MkAgentResponse (trim textResponse) JNull (Some []) (Some [])
                   [t w lang (lit "actionUndo");
                    t w lang (lit "actionExplainChanges")]
                   (Some (JArr [])) sources)).
Proof.
  intros w lang text sources Hj Hi Ha Hr.
  unfold parseResponse, extractWorkflow, extractIssues, extractActions,
    extractRelated, cleanText.
  unfold rx_json_block, rx_issues, rx_related, rx_actions, rx_tagged_array,
    rx_tagged_region.
  rewrite !exec_absent by assumption.
  rewrite (@replace_first_absent _ _ _ text Hj),
          (@replace_first_absent _ _ _ text Hi),
          (@replace_first_absent _ _ _ text Ha),
          (@replace_first_absent _ _ _ text Hr).
  reflexivity.
Qed.

End PlainReply.

(** ** Suggested actions and session identifiers *)

Section Suggestions.
Context {RT : JSRuntime}.

Lemma bind_normal_inv : forall (A B : Type) (m : M A) (f : A -> M B) tr b,
  bind m f = (tr, Normal b) ->
  exists tr1 a tr2, m = (tr1, Normal a) /\ f a = (tr2, Normal b).
Proof.
  intros A B [tr1 [a|e]] f tr b H; [|discriminate H].
  cbn [bind] in H. destruct (f a) as [tr2 r] eqn:E.
  injection H as _ ->. eexists _, _, _. split; [reflexivity|exact E].
Qed.

Lemma parseResponse_suggests : forall w lang text sources tr response,
  parseResponse w lang text sources = (tr, Normal response) ->
  suggestedActions response <> [].
Proof.
  intros w lang text sources tr response H. unfold parseResponse in H.
  destruct (extractWorkflow_normal text) as (updated & Ew).
  destruct (extractIssues_normal w text) as (found & Ei).
  destruct (extractRelated_normal text) as (related & Er).
  rewrite Ew, Ei, Er in H. cbn in H. injection H as _ <-.
  cbn [suggestedActions]. destruct (extractActions text); discriminate.
Qed.

(** X19.  Every response of the entry point proposes at least one action:
    those found in the reply, else the two default actions of the string
    table, else, after an error, [Check Settings] and [Retry]. *)
Theorem agent_always_suggests_an_action :
  forall (w : World) (currentWorkflow : value) (userPrompt : str)
         (settings : AppSettings) (sessionId : str) (errorLog : option str)
         (onStream onStatus : bool),
  exists tr response,
    sendMessageToComfyAgent w currentWorkflow userPrompt settings sessionId
      errorLog onStream onStatus
    = (tr, Normal response)
    /\ suggestedActions response <> [].
Proof.
  intros. unfold sendMessageToComfyAgent, try_catch.
  destruct (agentBody w currentWorkflow userPrompt settings sessionId errorLog
              onStream onStatus) as [tr [response|error]] eqn:E.
  - exists tr, response. split; [reflexivity|].
    unfold agentBody in E.
    apply bind_normal_inv in E as (tr1 & prompt & tr2 & _ & E).
    apply bind_normal_inv in E as (tr3 & reply & tr4 & _ & E).
    apply bind_normal_inv in E as (tr5 & text & tr6 & _ & E).
    exact (parseResponse_suggests _ _ _ _ E).
  - cbn [ret]. eexists _, _. split; [reflexivity|]. discriminate.
Qed.

End Suggestions.

Section SessionIds.
Context {RT : JSRuntime}.






End SessionIds.

(** ** The history and analysis services *)

Section BackendServicesFacts.
Context {RT : JSRuntime}.








End BackendServicesFacts.

(** ** The merge of the stored history *)

Section HistoryMergeFacts.
Context {RT : JSRuntime}.
Variable sender_name : Sender -> str.
Variable sortByTime : list ChatMessage -> list ChatMessage.
Hypothesis sort_permutes : forall l, Permutation (sortByTime l) l.

Lemma signature_has_text : forall var m sig,
  signature sender_name var m = Normal sig ->
  has_text m /\ sig = signatureOf sender_name m.
Proof.
  intros var m sig H. unfold signature, trimmedText, signatureOf, has_text in *.
  destruct (msg_text m); try discriminate. injection H as <-.
  split; [eexists; reflexivity|reflexivity].
Qed.

Lemma signature_of_text : forall var m,
  has_text m -> signature sender_name var m = Normal (signatureOf sender_name m).
Proof.
  intros var m (text & E). unfold signature, trimmedText, signatureOf.
  rewrite E. reflexivity.
Qed.

Lemma signatures_spec : forall l sigs,
  signatures sender_name l = Normal sigs ->
  Forall has_text l /\ sigs = map (signatureOf sender_name) l.
Proof.
  induction l as [|m l IH]; intros sigs H.
  - injection H as <-. split; [constructor|reflexivity].
  - cbn [signatures] in H.
    destruct (signature sender_name (lit "m") m) as [sig|e] eqn:Es;
      [|discriminate].
    destruct (signatures sender_name l) as [sigs'|e] eqn:El; [|discriminate].
    injection H as <-. destruct (signature_has_text _ _ Es) as [Hm ->].
    destruct (IH _ eq_refl) as [Hl ->].
    split; [constructor; assumption|reflexivity].
Qed.

Lemma signatures_of_text : forall l,
  Forall has_text l ->
  signatures sender_name l = Normal (map (signatureOf sender_name) l).
Proof.
  induction l as [|m l IH]; intros H; [reflexivity|].
  inversion H as [|? ? Hm Hl]; subst. cbn [signatures map].
  rewrite (signature_of_text _ Hm), (IH Hl). reflexivity.
Qed.

Lemma newMessages_spec : forall prev hist newMsgs,
  newMessages sender_name (map (signatureOf sender_name) prev) hist
  = Normal newMsgs ->
  Forall has_text hist /\ newMsgs = fresh sender_name prev hist.
Proof.
  intros prev. induction hist as [|h hist IH]; intros newMsgs H.
  - injection H as <-. split; [constructor|reflexivity].
  - cbn [newMessages] in H.
    destruct (signature sender_name (lit "h") h) as [sig|e] eqn:Es;
      [|discriminate].
    destruct (newMessages sender_name _ hist) as [rest|e] eqn:Er;
      [|discriminate].
    injection H as <-. destruct (signature_has_text _ _ Es) as [Hh ->].
    destruct (IH _ eq_refl) as [Hl ->].
    split; [constructor; assumption|]. unfold fresh. cbn [filter].
    unfold displayed. reflexivity.
Qed.

Lemma newMessages_of_text : forall prev hist,
  Forall has_text hist ->
  newMessages sender_name (map (signatureOf sender_name) prev) hist
  = Normal (fresh sender_name prev hist).
Proof.
  intros prev. induction hist as [|h hist IH]; intros H; [reflexivity|].
  inversion H as [|? ? Hh Hl]; subst. cbn [newMessages].
  rewrite (signature_of_text _ Hh), (IH Hl). reflexivity.
Qed.

Lemma mergeHistory_spec : forall prev hist result,
  mergeHistory sender_name sortByTime prev hist = Normal result ->
  hist = [] /\ result = prev
  \/ hist <> [] /\ only_welcome prev = true /\ result = hist
  \/ hist <> [] /\ only_welcome prev = false
     /\ Forall has_text prev /\ Forall has_text hist
     /\ result = merged sender_name sortByTime prev hist.
Proof.
  intros prev hist result H. unfold mergeHistory in H.
  destruct hist as [|h0 hist0]; [left; injection H as <-; split; reflexivity|].
  right. remember (h0 :: hist0) as hist eqn:Eh.
  assert (Hne : hist <> []) by (subst; discriminate).
  assert (Hgen : match signatures sender_name prev with
                 | Normal existingSignatures =>
                     match newMessages sender_name existingSignatures hist with
                     | Normal [] => Normal prev
                     | Normal ((_ :: _) as newMsgs) =>
                         Normal (sortByTime (prev ++ newMsgs))
                     | Throw e => Throw e
                     end
                 | Throw e => Throw e
                 end = Normal result ->
                 Forall has_text prev /\ Forall has_text hist
                 /\ result = merged sender_name sortByTime prev hist).
  { clear H. intros H.
    destruct (signatures sender_name prev) as [sigs|e] eqn:Es; [|discriminate].
    destruct (signatures_spec _ Es) as [Hp ->].
    destruct (newMessages sender_name _ hist) as [newMsgs|e] eqn:En;
      [|discriminate].
    destruct (newMessages_spec _ _ En) as [Hh ->].
    split; [exact Hp|]. split; [exact Hh|]. unfold merged.
    destruct (fresh sender_name prev hist); injection H as <-; reflexivity. }
  destruct prev as [|m [|m' prev']].
  - right. split; [exact Hne|]. split; [reflexivity|]. apply Hgen. exact H.
  - cbn [only_welcome]. destruct (str_eqb (msg_id m) (lit "init-1")).
    + left. injection H as <-. split; [exact Hne|]. split; reflexivity.
    + right. split; [exact Hne|]. split; [reflexivity|]. apply Hgen. exact H.
  - right. split; [exact Hne|]. split; [reflexivity|]. apply Hgen. exact H.
Qed.

Lemma mergeHistory_general : forall prev hist,
  hist <> [] -> only_welcome prev = false ->
  Forall has_text prev -> Forall has_text hist ->
  mergeHistory sender_name sortByTime prev hist
  = Normal (merged sender_name sortByTime prev hist).
Proof.
  intros prev hist Hne Hw Hp Hh. unfold mergeHistory.
  destruct hist as [|h0 hist0]; [contradiction|].
  remember (h0 :: hist0) as hist eqn:Eh.
  rewrite (signatures_of_text Hp), (newMessages_of_text prev Hh).
  assert (E : match fresh sender_name prev hist with
              | [] => Normal prev
              | _ :: _ =>
                  Normal (sortByTime (prev ++ fresh sender_name prev hist))
              end = Normal (merged sender_name sortByTime prev hist))
    by (unfold merged; destruct (fresh sender_name prev hist); reflexivity).
  destruct prev as [|m [|m' prev']]; cbn [only_welcome] in Hw.
  - destruct (fresh sender_name [] hist); exact E.
  - rewrite Hw. destruct (fresh sender_name [m] hist); exact E.
  - destruct (fresh sender_name (m :: m' :: prev') hist); exact E.
Qed.

Lemma displayed_In : forall prev h,
  displayed sender_name prev h = true <->
  In (signatureOf sender_name h) (map (signatureOf sender_name) prev).
Proof. intros prev h. unfold displayed. apply existsb_str_eqb_In. Qed.

Lemma fresh_nil_of_incl : forall prev hist,
  (forall h, In h hist ->
             In (signatureOf sender_name h)
                (map (signatureOf sender_name) prev)) ->
  fresh sender_name prev hist = [].
Proof.
  intros prev. induction hist as [|h hist IH]; intros H; [reflexivity|].
  unfold fresh in *. cbn [filter].
  rewrite (proj2 (displayed_In prev h) (H h (or_introl eq_refl))).
  cbn [negb]. apply IH. intros h' Hin. apply H. right. exact Hin.
Qed.

Lemma fresh_In : forall prev hist h,
  In h hist ->
  displayed sender_name prev h = true \/ In h (fresh sender_name prev hist).
Proof.
  intros prev hist h Hin. destruct (displayed sender_name prev h) eqn:E;
    [left; reflexivity|right].
  unfold fresh. apply filter_In. split; [exact Hin|]. rewrite E. reflexivity.
Qed.

Lemma fresh_all : forall hist, fresh sender_name [] hist = hist.
Proof.
  induction hist as [|h hist IH]; [reflexivity|].
  unfold fresh in *. cbn [filter]. unfold displayed at 1.
  cbn [map existsb negb]. f_equal. exact IH.
Qed.

(** X25.  Loading the same history again changes nothing: once [hist] has
    been merged, every message of [hist] has its signature among those
    displayed. *)
Theorem history_merge_is_idempotent :
  forall (prev hist result : list ChatMessage),
  Forall has_text hist ->
  mergeHistory sender_name sortByTime prev hist = Normal result ->
  mergeHistory sender_name sortByTime result hist = Normal result.
Proof.
  intros prev hist result Hh H.
  destruct (mergeHistory_spec _ _ H)
    as [[-> ->]|[(Hne & Hw & ->)|(Hne & Hw & Hp & _ & ->)]].
  - reflexivity.
  - (* the history has replaced the welcome message *)
    destruct (only_welcome hist) eqn:Ew.
    + unfold mergeHistory. destruct hist as [|h [|h' hist']];
        try discriminate Ew. cbn [only_welcome] in Ew. rewrite Ew. reflexivity.
    + rewrite (mergeHistory_general Hne Ew Hh Hh). unfold merged.
      rewrite fresh_nil_of_incl; [reflexivity|].
      intros h Hin. apply in_map. exact Hin.
  - unfold merged in H |- *.
    destruct (fresh sender_name prev hist) as [|n newMsgs] eqn:Ef.
    + exact H.
    + assert (Hperm : Permutation (sortByTime (prev ++ n :: newMsgs))
                        (prev ++ n :: newMsgs)) by apply sort_permutes.
      remember (sortByTime (prev ++ n :: newMsgs)) as shown eqn:Es.
      assert (Hin : forall m, In m shown <-> In m (prev ++ n :: newMsgs)).
      { intros m. split; intros Hm.
        - exact (Permutation_in _ Hperm Hm).
        - exact (Permutation_in _ (Permutation_sym Hperm) Hm). }
      assert (Hfresh : forall h, In h (n :: newMsgs) -> In h hist).
      { intros h Hm. rewrite <- Ef in Hm. unfold fresh in Hm.
        apply filter_In in Hm. tauto. }
      assert (Htext : Forall has_text shown).
      { rewrite Forall_forall in *. intros m Hm. apply Hin in Hm.
        apply in_app_or in Hm as [Hm|Hm]; [exact (Hp m Hm)|].
        apply Hh. apply Hfresh. exact Hm. }
      assert (Hall : fresh sender_name shown hist = []).
      { apply fresh_nil_of_incl. intros h Hm.
        destruct (fresh_In prev hist h Hm) as [Hd|Hf].
        - apply displayed_In in Hd. apply in_map_iff in Hd as (m & Em & Hm').
          apply in_map_iff. exists m. split; [exact Em|].
          apply Hin. apply in_or_app. left. exact Hm'.
        - apply in_map. apply Hin. apply in_or_app. right.
          rewrite <- Ef. exact Hf. }
      destruct (only_welcome shown) eqn:Ew.
      * (* a single message is displayed: it is the one that was added *)
        destruct shown as [|s [|s' shown']]; try discriminate Ew.
        apply Permutation_length in Hperm. rewrite length_app in Hperm.
        cbn [List.length] in Hperm.
        destruct prev as [|p prev]; [|cbn [List.length] in Hperm; lia].
        destruct newMsgs as [|n' newMsgs]; [|cbn [List.length] in Hperm; lia].
        assert (Es' : s = n).
        { destruct (proj1 (Hin s) (or_introl eq_refl)) as [E|[]].
          exact (eq_sym E). }
        subst s.
        assert (Ehist : hist = [n]).
        { rewrite fresh_all in Ef. exact Ef. }
        rewrite Ehist. unfold mergeHistory. cbn [only_welcome] in Ew.
        rewrite Ew. reflexivity.
      * rewrite (mergeHistory_general Hne Ew Htext Hh). unfold merged.
        rewrite Hall. reflexivity.
Qed.

(** X26.  What the merge displays: the history in place of the welcome
    message when nothing else is displayed; otherwise the messages
    displayed, none lost, together with the messages of the history of which
    no message with the same sender and the same trimmed text was displayed. *)
Theorem history_merge_keeps_the_conversation :
  forall (prev hist result : list ChatMessage),
  mergeHistory sender_name sortByTime prev hist = Normal result ->
  (hist <> [] /\ only_welcome prev = true /\ result = hist)
  \/ Permutation result
       (prev ++ filter (fun h => negb (displayed sender_name prev h)) hist).
Proof.
  intros prev hist result H.
  destruct (mergeHistory_spec _ _ H)
    as [[-> ->]|[(Hne & Hw & ->)|(Hne & Hw & Hp & _ & ->)]].
  - right. cbn [filter]. rewrite app_nil_r. apply Permutation_refl.
  - left. tauto.
  - right. fold (fresh sender_name prev hist). unfold merged.
    destruct (fresh sender_name prev hist) as [|n newMsgs].
    + rewrite app_nil_r. apply Permutation_refl.
    + apply sort_permutes.
Qed.

End HistoryMergeFacts.

(** ** The configuration service *)

Section ConfigServiceFacts.
Context {RT : JSRuntime}.

Lemma getGitHubStatus_outcome : forall (w : World) (backendUrl : str),
  getGitHubStatus w backendUrl
  = ([Fetched (getBaseUrl backendUrl ++ lit "/api/github-token") get_request],
     match fetch w (getBaseUrl backendUrl ++ lit "/api/github-token")
             get_request with
     | Throw _ => Normal no_token
     | Normal res =>
         if resp_ok res then
           match resp_text res with
           | Normal raw =>
               match JSON_parse raw with
               | Some v => Normal v
               | None => Throw (JsError (syntax_error_message raw))
               end
           | Throw e => Throw e
           end
         else Normal no_token
     end).
Proof.
  intros w backendUrl. unfold getGitHubStatus, do_fetch, emit, lift.
  destruct (fetch w _ get_request) as [res|e]; [|reflexivity].
  cbn [bind app fst snd try_catch]. destruct (resp_ok res); [|reflexivity].
  cbn [negb ret bind app fst snd try_catch].
  destruct (resp_text res) as [raw|e]; [|reflexivity].
  unfold json_parse. destruct (JSON_parse raw); reflexivity.
Qed.

(** X27.  [getGitHubStatus] sends one GET request.  It answers that there is
    no token when the request fails and when the status is an error; but
    when the status is a success, the result is the parsed body, and the
    call rejects if the body cannot be read or is not JSON: the [catch]
    clause does not cover the reading of the body. *)
Theorem github_status_rejects_on_unreadable_body :
  forall (w : World) (backendUrl : str),
  let url := getBaseUrl backendUrl ++ lit "/api/github-token" in
  fst (getGitHubStatus w backendUrl) = [Fetched url get_request]
  /\ ((exists e, snd (getGitHubStatus w backendUrl) = Throw e)
      <-> exists res,
            fetch w url get_request = Normal res /\ resp_ok res = true
            /\ match resp_text res with
               | Normal raw => JSON_parse raw = None
               | Throw _ => True
               end)
  /\ ((forall res, fetch w url get_request = Normal res -> resp_ok res = false) ->
      snd (getGitHubStatus w backendUrl) = Normal no_token).
Proof.
  intros w backendUrl. cbv zeta. rewrite getGitHubStatus_outcome.
  cbn [fst snd]. split; [reflexivity|].
  destruct (fetch w _ get_request) as [res|e].
  - destruct (resp_ok res) eqn:Eok.
    + split.
      * destruct (resp_text res) as [raw|e] eqn:Et.
        -- destruct (JSON_parse raw) as [v|] eqn:Ep.
           ++ split.
              ** intros (e & He). discriminate He.
              ** intros (res' & E & _ & H). injection E as <-.
                 rewrite Et, Ep in H. discriminate H.
           ++ split.
              ** intros _. exists res. rewrite Et. tauto.
              ** intros _. eexists. reflexivity.
        -- split.
           ++ intros _. exists res. rewrite Et. tauto.
           ++ intros _. eexists. reflexivity.
      * intros H. specialize (H res eq_refl). congruence.
    + split.
      * split.
        -- intros (e & He). discriminate He.
        -- intros (res' & E & Hok & _). injection E as <-. congruence.
      * intros _. reflexivity.
  - split.
    + split.
      * intros (e' & He). discriminate He.
      * intros (res' & E & _). discriminate E.
    + intros _. reflexivity.
Qed.

End ConfigServiceFacts.

Section SortByFacts.
Context {RT : JSRuntime}.
Variable time : ChatMessage -> N.

Lemma insertByTime_permutes : forall m l,
  Permutation (insertByTime time m l) (m :: l).
Proof.
  intros m. induction l as [|x r IH]; [apply Permutation_refl|].
  cbn [insertByTime]. destruct (time m <? time x)%N; [apply Permutation_refl|].
  eapply Permutation_trans; [apply perm_skip; exact IH|apply perm_swap].
Qed.

Lemma sortBy_permutes : forall l, Permutation (sortBy time l) l.
Proof.
  intros l. unfold sortBy.
  assert (H : forall acc,
            Permutation (fold_left (fun acc m => insertByTime time m acc) l acc)
                        (acc ++ l)).
  { induction l as [|m l IH]; intros acc.
    - cbn. rewrite app_nil_r. apply Permutation_refl.
    - cbn [fold_left]. eapply Permutation_trans; [apply IH|].
      eapply Permutation_trans;
        [apply Permutation_app_tail; apply insertByTime_permutes|].
      cbn [app]. apply Permutation_middle. }
  exact (H []).
Qed.

End SortByFacts.

(** ** Routing, and the de-duplication of sources *)

Section Routing.
Context {RT : JSRuntime}.

(** X20.  When the orchestration server is enabled, the provider, the key,
    the model, the base URL and the custom templates of the profile play no
    part: two profiles that agree on the URL of the server, the language and
    the selected configuration give the same events and the same response. *)
Theorem backend_mode_ignores_provider_settings :
  forall (w : World) (currentWorkflow : value) (userPrompt : str)
         (s1 s2 : AppSettings) (sessionId : str) (errorLog : option str)
         (onStream onStatus : bool),
  same_backend s1 s2 ->
  sendMessageToComfyAgent w currentWorkflow userPrompt s1 sessionId errorLog
    onStream onStatus
  = sendMessageToComfyAgent w currentWorkflow userPrompt s2 sessionId errorLog
      onStream onStatus.
Proof.
  intros w wf userPrompt s1 s2 sessionId errorLog onStream onStatus
         (H1 & H2 & Hurl & Hlang & Hid).
  unfold sendMessageToComfyAgent, agentBody. rewrite H1, H2, Hlang.
  unfold callPythonBackendStream, streamPayload. rewrite Hurl, Hlang, Hid.
  reflexivity.
Qed.

Lemma summarizeNodes_null : forall l,
  In JNull l -> summarizeNodes l = Throw (null_property_error (lit "id")).
Proof.
  induction l as [|n l IH]; intros H; [destruct H|].
  cbn [summarizeNodes]. destruct H as [->|H]; [reflexivity|].
  destruct (summarizeNode n) as [x|e] eqn:E.
  - rewrite (IH H). reflexivity.
  - unfold summarizeNode in E. destruct n; cbn in E; try discriminate E.
    injection E as <-. reflexivity.
Qed.

(** X21.  The prompt is assembled before the provider is chosen, whether or
    not the provider uses it.  A workflow whose list of nodes holds a [null]
    makes the assembly throw: the call then contacts no provider, invokes no
    callback, and resolves with the error response. *)
Theorem null_node_stops_the_call :
  forall (w : World) (currentWorkflow : value) (nodes : list value)
         (userPrompt : str) (settings : AppSettings) (sessionId : str)
         (errorLog : option str) (onStream onStatus : bool),
  getProp currentWorkflow (lit "nodes") = Some (JArr nodes) ->
  In JNull nodes ->
  sendMessageToComfyAgent w currentWorkflow userPrompt settings sessionId
    errorLog onStream onStatus
  = ([], Normal (errorResponse w (language settings)
                   (null_property_error (lit "id")))).
Proof.
  intros w wf nodes userPrompt settings sessionId errorLog onStream onStatus
         Hnodes Hnull.
  assert (Hs : nodesSummary wf = Throw (null_property_error (lit "id"))).
  { unfold nodesSummary, getOpt. destruct wf; try discriminate Hnodes;
      rewrite Hnodes, (summarizeNodes_null _ Hnull); reflexivity. }
  unfold sendMessageToComfyAgent.
  rewrite (agentBody_assembly_failure w wf userPrompt settings sessionId
             errorLog onStream onStatus Hs).
  reflexivity.
Qed.

End Routing.

(** *** De-duplication of sources *)

Lemma assoc_set_fresh : forall (V : Type) (k : str) (v : V) (m : list (str * V)),
  ~ In k (map fst m) -> assoc_set k v m = m ++ [(k, v)].
Proof.
  intros V k v. induction m as [|[k' v'] m IH]; intros H; [reflexivity|].
  cbn [assoc_set map fst] in *. destruct (str_eqb k k') eqn:E.
  - apply str_eqb_eq in E. subst. exfalso. apply H. left. reflexivity.
  - rewrite IH by (intros Hin; apply H; right; exact Hin). reflexivity.
Qed.

Lemma sourceMap_distinct : forall l acc,
  NoDup (map fst acc ++ map uri l) ->
  fold_left (fun m item => assoc_set (uri item) item m) l acc
  = acc ++ map (fun item => (uri item, item)) l.
Proof.
  induction l as [|x l IH]; intros acc H.
  - cbn. symmetry. apply app_nil_r.
  - cbn [fold_left map]. cbn [map] in H.
    rewrite assoc_set_fresh.
    + rewrite IH.
      * rewrite <- app_assoc. reflexivity.
      * rewrite map_app. cbn [map fst]. rewrite <- app_assoc. exact H.
    + apply NoDup_remove_2 in H. intros Hin. apply H.
      apply in_or_app. left. exact Hin.
Qed.

(** X8.  A list of sources in which no uri is repeated is left as it is by
    the de-duplication, which is therefore idempotent. *)
Theorem unique_sources_idempotent : forall allSources : list source,
  (NoDup (map uri allSources) -> uniqueSources allSources = allSources)
  /\ uniqueSources (uniqueSources allSources) = uniqueSources allSources.
Proof.
  assert (H : forall l, NoDup (map uri l) -> uniqueSources l = l).
  { intros l Hl. unfold uniqueSources, sourceMap.
    rewrite sourceMap_distinct by exact Hl. cbn [app].
    rewrite map_map. cbn [snd]. apply map_id. }
  intros allSources. split; [apply H|]. apply H.
  destruct (sourceMap_invariant allSources) as (Hnd & _ & Hent).
  replace (map uri (uniqueSources allSources))
    with (map fst (sourceMap allSources)); [exact Hnd|].
  unfold uniqueSources. rewrite map_map. apply map_ext_in.
  intros [k s] Hin. cbn [fst snd]. symmetry. apply (Hent k s Hin).
Qed.

(** ** Examples *)

(** A base URL that ends with a slash, joined to the endpoint [chat] and to
    the endpoint [/chat]. *)
Lemma resolveUrl_joins_with_one_slash_witness :
  resolveUrl (custom_profile (lit "http://h/v1/") [] []) (lit "chat")
    = lit "http://h/v1/chat"
  /\ resolveUrl (custom_profile (lit "http://h/v1/") [] []) (lit "/chat")
     = lit "http://h/v1/chat".
Proof.
  apply (@resolveUrl_joins_with_one_slash
           (custom_profile (lit "http://h/v1/") [] []) (lit "http://h/v1")
           (lit "chat")).
  - reflexivity.
  - reflexivity.
  - left. reflexivity.
Defined.

(** A header template whose placeholders name no variable of the map. *)
Lemma resolveTemplate_without_placeholder_witness :
  resolveTemplate (RT := ReferenceRuntime) (lit "Bearer $token of $user")
    [(lit "apiKey", JStr (lit "k")); (lit "messages", JArr [JStr (lit "hi")])]
  = lit "Bearer $token of $user".
Proof.
  apply (@resolveTemplate_without_placeholder ReferenceRuntime).
  repeat constructor.
Defined.

(** A list of messages under a double-quoted and under a single-quoted
    placeholder. *)
Lemma composite_forms_agree_without_dollar_witness :
  let v : json numeral := JArr [JObj [(lit "role", JStr (lit "user"))]] in
  resolveTemplate (RT := ReferenceRuntime) (qlit "{~m~:~$messages~}")
    [(lit "messages", v)]
  = qlit "{~m~:[{~role~:~user~}]}"
  /\ resolveTemplate (RT := ReferenceRuntime) (qlit "{~m~:'$messages'}")
       [(lit "messages", v)]
     = qlit "{~m~:[{~role~:~user~}]}".
Proof.
  intros v.
  destruct (@composite_forms_agree_without_dollar ReferenceRuntime
              (lit "messages") v (qlit "{~m~:") (lit "}"))
    as (H1 & H2 & _).
  - reflexivity.
  - cbv. intuition discriminate.
  - cbv. intuition discriminate.
  - cbv. intuition discriminate.
  - vm_compute. intuition discriminate.
  - split; [exact H1|exact H2].
Defined.

(** Two chunks that cite the same uri under two titles, and one entry
    without [web] field. *)
Lemma callGoogleGemini_sources_witness :
  let cited (u ti : string) := Some (MkWeb (Some (lit u)) (Some (lit ti))) in
  let chunks :=
    [MkChunk (Some (lit "Use a "))
       (Some [cited "https://a"%string "A"%string;
              cited "https://b"%string "B"%string]);
     MkChunk (Some (lit "VAE."))
       (Some [cited "https://a"%string "A2"%string; None])] in
  exists request streamed,
    generateContentStream (sdk_world chunks) request = Normal (streamed, None)
    /\ [MkSource (lit "https://a") (lit "A2"); MkSource (lit "https://b") (lit "B")]
       = uniqueSources (collectedSources streamed).
Proof.
  intros cited chunks.
  apply (@callGoogleGemini_sources ReferenceRuntime (sdk_world chunks)
           (cloud_profile (lit "key")) (lit "prompt") (lit "system") true
           [Delta (JStr (lit "Use a ")); Delta (JStr (lit "VAE."))]
           (lit "Use a VAE.")).
  reflexivity.
Defined.

(** A body with a line that is no event, an event cut short, a [null]
    event, a content event and a byte that is not UTF-8. *)
Lemma stream_content_never_aborts_witness :
  let body :=
    ascii_bytes (qlit "event: ping
data: {~type~:
data: null
data: {~type~:~content~,~chunk~:~ok~}
") ++ [Byte.xff] in
  let response := MkResponse true 200 (lit "OK") (Normal []) (Some ([body], None)) in
  exists init tr text,
    callPythonBackendStream (serving_world response)
      (backend_profile (lit "http://127.0.0.1:8000/")) (lit "hi")
      (JObj [(lit "nodes", JArr [])]) (lit "s1") None true true
    = (Fetched (strip_trailing_slash
                  (pythonBackendUrl (backend_profile (lit "http://127.0.0.1:8000/")))
                ++ lit "/api/chat/stream") init :: tr,
       Normal (text, []))
    /\ Forall (fun e => is_request e = false) tr.
Proof.
  intros body response.
  apply (@stream_content_never_aborts ReferenceRuntime (serving_world response)
           (backend_profile (lit "http://127.0.0.1:8000/")) (lit "hi")
           (JObj [(lit "nodes", JArr [])]) (lit "s1") None true true
           response [body]).
  - discriminate.
  - reflexivity.
  - reflexivity.
  - reflexivity.
Defined.

(** An indented event that ends with a carriage return. *)
Lemma sse_line_ignores_surrounding_space_witness :
  sseLine (RT := ReferenceRuntime) true true []
    (lit "  " ++ qlit "data: {~type~:~content~,~chunk~:~hi~}" ++ [13%N])
  = sseLine (RT := ReferenceRuntime) true true []
      (qlit "data: {~type~:~content~,~chunk~:~hi~}").
Proof.
  apply (@sse_line_ignores_surrounding_space ReferenceRuntime true true []
           (lit "  ") (qlit "data: {~type~:~content~,~chunk~:~hi~}") [13%N]).
  - repeat constructor.
  - repeat constructor.
Defined.

(** A first event ended by a line feed, then a second one that is not. *)
Lemma stream_unterminated_line_is_dropped_witness :
  let first := ascii_bytes (qlit "data: {~type~:~content~,~chunk~:~a~}
") in
  let extra := ascii_bytes (qlit "data: {~type~:~content~,~chunk~:~b~}") in
  exists st',
    readLoop (RT := ReferenceRuntime) true true ([first] ++ [extra])
    = ([Delta (JStr (lit "a"))], Normal st')
    /\ rs_fullText st' = lit "a"
    /\ rs_buffer st' = qlit "data: {~type~:~content~,~chunk~:~b~}".
Proof.
  intros first extra.
  apply (@stream_unterminated_line_is_dropped ReferenceRuntime true true
           [first] extra [Delta (JStr (lit "a"))]
           (MkReader (MkDecoder 0 0 0 128 191 true) [] (lit "a"))).
  - reflexivity.
  - vm_compute. intuition discriminate.
Defined.

(** An object with commas between elements and a slash in a string. *)
Lemma cleanJsonString_conservative_witness :
  cleanJsonString (qlit "{~a~: [1, 2], ~b~: {~path~: ~x/y~}}")
  = qlit "{~a~: [1, 2], ~b~: {~path~: ~x/y~}}".
Proof.
  apply cleanJsonString_conservative; reflexivity.
Defined.

(** An object whose only member is a URL: the text is cut in the middle of
    the string.  What is left is not JSON, so a workflow generated with a
    URL in it is taken as no update. *)
Lemma cleanJsonString_drops_after_slashes_witness :
  cleanJsonString (qlit "{~url~:~http://host/x~}") = qlit "{~url~:~http:"
  /\ parse_json (qlit "{~url~:~http://host/x~}")
     = Some (JObj [(lit "url", JStr (lit "http://host/x"))])
  /\ parse_json (qlit "{~url~:~http:") = None
  /\ extractWorkflow (RT := ReferenceRuntime)
       (lit "```json " ++ qlit "{~url~:~http://host/x~}" ++ lit " ```")
     = ([], Normal JNull).
Proof.
  split; [|repeat split; reflexivity].
  transitivity (cleanJsonString (qlit "{~url~:~http:" ++ [])).
  - apply (@cleanJsonString_drops_after_slashes (qlit "{~url~:~http:")
             (qlit "host/x~}") []).
    + cbv. intuition discriminate.
    + repeat constructor.
    + exact I.
  - reflexivity.
Defined.

(** A comma before a line break and the closing brace. *)
Lemma cleanJsonString_trailing_comma_witness :
  cleanJsonString (qlit "{~a~: 1 ,
  }") = qlit "{~a~: 1 }".
Proof.
  apply (@cleanJsonString_trailing_comma 125%N (qlit "{~a~: 1 ")
           (newline :: lit "  ") []).
  - left. reflexivity.
  - cbv. intuition discriminate.
  - cbv. intuition discriminate.
  - cbv. intuition discriminate.
  - cbv. intuition discriminate.
  - repeat constructor.
Defined.

(** A well-formed issue followed by [null]. *)
Lemma one_null_issue_discards_all_witness :
  extractIssues offline_world
    (qlit "ISSUES_JSON: [{~nodeId~: 1, ~message~: ~no model~}, null]")
  = ([], Normal []).
Proof.
  apply (@one_null_issue_discards_all ReferenceRuntime offline_world
           (qlit "ISSUES_JSON: [{~nodeId~: 1, ~message~: ~no model~}, null]")
           (qlit "[{~nodeId~: 1, ~message~: ~no model~}, null]")
           [JObj [(lit "nodeId", JNum (Numeral 49%N []));
                  (lit "message", JStr (lit "no model"))]; JNull]).
  - reflexivity.
  - reflexivity.
  - right. left. reflexivity.
Defined.

(** A sentence with white space around it. *)
Lemma plain_reply_passes_through_witness :
  parseResponse offline_world (lit "en") (lit "
The KSampler denoises the latent image. ") []
  = ([], Normal (MkAgentResponse (lit "The KSampler denoises the latent image.")
                   JNull (Some []) (Some [])
                   [lit "actionUndo"; lit "actionExplainChanges"]
                   (Some (JArr [])) [])).
Proof.
  apply (@plain_reply_passes_through ReferenceRuntime offline_world (lit "en")
           (lit "
The KSampler denoises the latent image. ") []); reflexivity.
Defined.


(** Two messages are displayed; the history holds the first one, with
    spaces around its text, and an earlier reply.  The reply is added in
    front, and merging the same history again changes nothing. *)
Lemma history_merge_is_idempotent_witness :
  let shown := [clockMessage (lit "1") USER (lit "hi") 10;
                clockMessage (lit "2") AI (lit "hello") 20] in
  let hist := [clockMessage (lit "hist-0-30") USER (lit " hi ") 5;
               clockMessage (lit "hist-1-30") AI (lit "earlier") 7] in
  let result := [clockMessage (lit "hist-1-30") AI (lit "earlier") 7;
                 clockMessage (lit "1") USER (lit "hi") 10;
                 clockMessage (lit "2") AI (lit "hello") 20] in
  mergeHistory sender_string (sortBy clockTime) shown hist = Normal result
  /\ mergeHistory sender_string (sortBy clockTime) result hist = Normal result.
Proof.
  intros shown hist result. split; [reflexivity|].
  apply (@history_merge_is_idempotent ReferenceRuntime sender_string
           (sortBy clockTime) (sortBy_permutes clockTime) shown hist result).
  - repeat constructor; eexists; reflexivity.
  - reflexivity.
Defined.

(** The same conversation: the result holds the two messages displayed and
    the earlier reply. *)
Lemma history_merge_keeps_the_conversation_witness :
  let shown := [clockMessage (lit "1") USER (lit "hi") 10;
                clockMessage (lit "2") AI (lit "hello") 20] in
  let hist := [clockMessage (lit "hist-0-30") USER (lit " hi ") 5;
               clockMessage (lit "hist-1-30") AI (lit "earlier") 7] in
  Permutation
    [clockMessage (lit "hist-1-30") AI (lit "earlier") 7;
     clockMessage (lit "1") USER (lit "hi") 10;
     clockMessage (lit "2") AI (lit "hello") 20]
    (shown ++ [clockMessage (lit "hist-1-30") AI (lit "earlier") 7]).
Proof.
  intros shown hist.
  destruct (@history_merge_keeps_the_conversation ReferenceRuntime sender_string
              (sortBy clockTime) (sortBy_permutes clockTime) shown hist
              [clockMessage (lit "hist-1-30") AI (lit "earlier") 7;
               clockMessage (lit "1") USER (lit "hi") 10;
               clockMessage (lit "2") AI (lit "hello") 20] eq_refl)
    as [(_ & Hw & _)|H].
  - discriminate Hw.
  - exact H.
Defined.

(** The same request under a bare profile and under a profile with a
    custom provider whose templates are not even JSON. *)
Lemma backend_mode_ignores_provider_settings_witness :
  let response :=
    MkResponse true 200 (lit "OK") (Normal [])
      (Some ([ascii_bytes (qlit "data: {~type~:~content~,~chunk~:~ok~}
")], None)) in
  let url := lit "http://127.0.0.1:8000" in
  sendMessageToComfyAgent (serving_world response) (JObj [(lit "nodes", JArr [])])
    (lit "hi") (backend_profile url) (lit "s1") None true true
  = sendMessageToComfyAgent (serving_world response) (JObj [(lit "nodes", JArr [])])
      (lit "hi")
      (MkSettings (lit "custom") (lit "key") (lit "gpt") (lit "http://x")
         (lit "en") true url (Some (MkCustomConfig [] (lit "{") (lit "{"))) [])
      (lit "s1") None true true.
Proof.
  intros response url.
  apply (@backend_mode_ignores_provider_settings ReferenceRuntime).
  repeat split.
Defined.

(** A workflow whose second node is [null], with the orchestration server
    enabled. *)
Lemma null_node_stops_the_call_witness :
  sendMessageToComfyAgent offline_world
    (JObj [(lit "nodes", JArr [JObj [(lit "id", JStr (lit "1"))]; JNull])])
    (lit "hi") (backend_profile (lit "http://127.0.0.1:8000")) (lit "s1") None
    true true
  = ([], Normal (MkAgentResponse
                   (lit "errorPrefix Cannot read properties of null (reading 'id')")
                   JNull None None [lit "Check Settings"; lit "Retry"] None [])).
Proof.
  apply (@null_node_stops_the_call ReferenceRuntime offline_world
           (JObj [(lit "nodes", JArr [JObj [(lit "id", JStr (lit "1"))]; JNull])])
           [JObj [(lit "id", JStr (lit "1"))]; JNull]).
  - reflexivity.
  - right. left. reflexivity.
Defined.
